(** * Mini-compilador: lexer, scope stack, parser and 3AC generator

    A shallow embedding of the Python sources [tokens.py], [lexer.py],
    [symtable.py], [astnodes.py], [parser.py], [codegen3ac.py] and the
    pipeline of [main.py], one module per source file, followed by the
    properties established about them.

    Conventions of the embedding.
    - A Python [str] is a [string]; source text is ASCII, for which the
      character classes of [str.isdigit], [str.isalpha], [str.isalnum]
      and [str.isspace] are the ones defined in [pystr].
    - A Python exception is a [Raise] outcome; a loop or recursion whose
      termination is not structural carries a fuel argument and answers
      [OutOfFuel] when it is exhausted.
    - The call stack of the interpreter is not represented: recursion
      is bounded by the fuel or by the size of the tree alone. Where
      Python raises [RecursionError] on a nesting deeper than its
      recursion limit, the embedding goes on.
    - A [float] is kept as the literal text it was read from; what
      [repr] prints for a float or a string is a parameter of the
      generator. *)

From Stdlib Require Import Ascii String List Arith Bool Lia.
From stdpp Require Import base tactics option list gmap strings pretty.

Set Warnings "-register-all".

Open Scope string_scope.
Open Scope nat_scope.
Open Scope list_scope.

(** ** Outcomes *)

Inductive Result (E A : Type) : Type :=
| Ok (a : A)
| Raise (e : E)
| OutOfFuel.

Arguments Ok {E A} a.
Arguments Raise {E A} e.
Arguments OutOfFuel {E A}.

(** ** Python string primitives on ASCII text *)

Module pystr.

Definition LF : ascii := "010"%char.
Definition DQUOTE : ascii := "034"%char.
Definition TAB : ascii := "009"%char.
Definition CR : ascii := "013"%char.

Definition between (lo hi : nat) (c : ascii) : bool :=
  (lo <=? nat_of_ascii c) && (nat_of_ascii c <=? hi).

Definition isdigit (c : ascii) : bool := between 48 57 c.
Definition isalpha (c : ascii) : bool := between 65 90 c || between 97 122 c.
Definition isalnum (c : ascii) : bool := isalpha c || isdigit c.
Definition isspace (c : ascii) : bool :=
  between 9 13 c || between 28 32 c.

(** [s + ch] *)
Definition snoc (s : string) (c : ascii) : string :=
  s +:+ String c EmptyString.

(** The longest prefix of [s] whose characters all satisfy [p]. *)
Fixpoint span (p : ascii -> bool) (s : string) : string :=
  match s with
  | String c s' => if p c then String c (span p s') else EmptyString
  | EmptyString => EmptyString
  end.

(** [s.lstrip(chars)] for the characters accepted by [p]. *)
Fixpoint lstrip (p : ascii -> bool) (s : string) : string :=
  match s with
  | String c s' => if p c then lstrip p s' else s
  | EmptyString => EmptyString
  end.

(** [s.startswith(pre)] *)
Definition startswith (pre s : string) : bool := String.prefix pre s.

(** [s.replace(c, "")] for a one-character [c]. *)
Fixpoint remove_char (c : ascii) (s : string) : string :=
  match s with
  | String d s' =>
      if Ascii.eqb d c then remove_char c s' else String d (remove_char c s')
  | EmptyString => EmptyString
  end.

(** What is left of [s] after [span p s]. *)
Definition drop_span (p : ascii -> bool) (s : string) : string :=
  lstrip p s.

(** Acceptance by [float(s)] of a text made of digits, dots, an
    exponent mark and signs: digits with at most one dot and at least
    one digit, then an optional exponent with at least one digit. *)
Definition exponent_ok (s : string) : bool :=
  match s with
  | EmptyString => true
  | String e s1 =>
      if Ascii.eqb e "e" || Ascii.eqb e "E" then
        let s2 := match s1 with
                  | String sg s2 =>
                      if Ascii.eqb sg "+" || Ascii.eqb sg "-" then s2 else s1
                  | EmptyString => s1
                  end in
        negb (String.eqb (span isdigit s2) EmptyString)
        && String.eqb (drop_span isdigit s2) EmptyString
      else false
  end.

Definition float_ok (s : string) : bool :=
  let int_part := span isdigit s in
  let s1 := drop_span isdigit s in
  match s1 with
  | String dot s2 =>
      if Ascii.eqb dot "." then
        let frac := span isdigit s2 in
        negb (String.eqb int_part EmptyString && String.eqb frac EmptyString)
        && exponent_ok (drop_span isdigit s2)
      else negb (String.eqb int_part EmptyString) && exponent_ok s1
  | EmptyString => negb (String.eqb int_part EmptyString)
  end.

End pystr.

(** ** tokens.py *)

Module tokens.

(** The token type constants [TT_*]. *)
Inductive TokenType : Set :=
| TT_NAME | TT_NUMBER | TT_STRING
| TT_NEWLINE | TT_INDENT | TT_DEDENT | TT_TYPE_COMMENT
| TT_FSTRING_START | TT_FSTRING_MIDDLE | TT_FSTRING_END
| TT_TSTRING_START | TT_TSTRING_MIDDLE | TT_TSTRING_END
| TT_ELLIPSIS | TT_ENDMARKER
| TT_PLUS | TT_MINUS | TT_STAR | TT_SLASH | TT_DOUBLE_SLASH
| TT_PERCENT | TT_AT | TT_PIPE | TT_AMPERSAND | TT_CARET | TT_TILDE
| TT_LSHIFT | TT_RSHIFT | TT_DOUBLE_STAR
| TT_EQUAL | TT_EQEQUAL | TT_NOTEQUAL | TT_LESSEQUAL | TT_GREATEREQUAL
| TT_LESS | TT_GREATER
| TT_LPAREN | TT_RPAREN | TT_LBRACKET | TT_RBRACKET
| TT_LBRACE | TT_RBRACE
| TT_COMMA | TT_COLON | TT_SEMI | TT_DOT | TT_ARROW
| TT_PLUSEQUAL | TT_MINEQUAL | TT_STAREQUAL | TT_SLASHEQUAL
| TT_PERCENTEQUAL | TT_ATEQUAL | TT_AMPEREQUAL | TT_PIPEEQUAL
| TT_CARETEQUAL | TT_LSHIFTEQUAL | TT_RSHIFTEQUAL
| TT_DOUBLE_STAREQUAL | TT_DOUBLE_SLASHEQUAL.

Scheme Equality for TokenType.

(** The [value] of a token: [None], a string, or a float (kept as the
    literal it was read from). *)
Inductive TokenValue : Set :=
| VNone
| VStr (s : string)
| VFloat (literal : string).

Record Token : Set := mkToken {
  type : TokenType;
  value : TokenValue;
  line : nat;
  column : nat
}.

(** [tok.type == t] *)
Definition type_is (tok : Token) (t : TokenType) : bool :=
  TokenType_beq (type tok) t.

(** [tok.type in ts] *)
Definition type_in (tok : Token) (ts : list TokenType) : bool :=
  existsb (TokenType_beq (type tok)) ts.

(** [tok.value == word] for a string [word]. *)
Definition value_is (tok : Token) (word : string) : bool :=
  match value tok with
  | VStr s => String.eqb s word
  | _ => false
  end.

(** The string carried by a NAME or STRING token, as the parser stores
    it in [Name.id], [Arg.name], [Attribute.attr] and [Str.value]. The
    lexer builds these tokens with a string value only; the other two
    cases are met only on a token that breaks the contract stated in
    the docstring of [Token]. *)
Definition str_value (tok : Token) : string :=
  match value tok with
  | VStr s => s
  | VFloat literal => literal
  | VNone => "None"
  end.

(** The float carried by a NUMBER token, as stored in [Num.value]. *)
Definition float_value (tok : Token) : string :=
  match value tok with
  | VFloat literal => literal
  | VStr s => s
  | VNone => "None"
  end.

(** The set [KEYWORDS], as the list of its elements. *)
Definition KEYWORDS : list string :=
  [ "if"; "elif"; "else"; "while"; "for"; "in"; "try"; "except"; "finally";
    "with"; "async"; "await"; "match"; "case";
    "def"; "class"; "lambda"; "type";
    "raise"; "return"; "yield";
    "import"; "from"; "as";
    "pass"; "break"; "continue"; "global"; "nonlocal"; "del"; "assert";
    "True"; "False"; "None";
    "and"; "or"; "not"; "is" ].

(** [ident in KEYWORDS] *)
Definition is_keyword (ident : string) : bool :=
  existsb (String.eqb ident) KEYWORDS.

End tokens.

(** ** lexer.py *)

Module lexer.
Import pystr tokens.

(** What a [LexerError] reports (the message of the exception). *)
Inductive LexMessage : Set :=
| UnexpectedChar (ch : ascii)     (* Caracter inesperado *)
| InvalidIndent                   (* Indentacion invalida *)
| InvalidNumberAfterDot           (* Numero invalido despues de '.' *)
| InvalidExponent                 (* Exponente invalido en numero *)
| InvalidNumber (num_str : string)(* Numero invalido: num_str *)
| UnterminatedString              (* Cadena sin cerrar *)
| EofInEscape                     (* Fin de archivo en escape de cadena *)
| NewlineInString.                (* Salto de linea dentro de cadena *)

Inductive LexExn : Set :=
| LexerError (message : LexMessage) (line column : nat)
| IndexError.                     (* [indent_stack[-1]] on an empty list *)

(** The lexer object. [rest] is [text[pos:]]: the lexer never reads
    behind [pos], so [text], [pos] and [length] are represented by the
    unread suffix. The top of [indent_stack] (Python's last element) is
    the head of the list. *)
Record Lexer : Set := mkLexer {
  rest : string;
  line : nat;
  col : nat;
  indent_stack : list nat;
  at_line_start : bool
}.

(** [Lexer(text)] *)
Definition init (text : string) : Lexer := mkLexer text 1 1 [0] true.

Definition current_char (lx : Lexer) : option ascii :=
  match rest lx with
  | String ch _ => Some ch
  | EmptyString => None
  end.

(** One round of the loop of [_advance]. *)
Definition advance_one (lx : Lexer) : Lexer :=
  match rest lx with
  | EmptyString => lx
  | String ch r =>
      if Ascii.eqb ch LF
      then mkLexer r (S (line lx)) 1 (indent_stack lx) (at_line_start lx)
      else mkLexer r (line lx) (S (col lx)) (indent_stack lx) (at_line_start lx)
  end.

Definition _advance (lx : Lexer) (n : nat) : Lexer := Nat.iter n advance_one lx.

Definition _peek (lx : Lexer) (k : nat) : option ascii := String.get k (rest lx).

Definition _peek_fragment (lx : Lexer) (n : nat) : string :=
  substring 0 n (rest lx).

Definition set_indent_stack (stack : list nat) (lx : Lexer) : Lexer :=
  mkLexer (rest lx) (line lx) (col lx) stack (at_line_start lx).

Definition set_at_line_start (b : bool) (lx : Lexer) : Lexer :=
  mkLexer (rest lx) (line lx) (col lx) (indent_stack lx) b.

(** [while cond(current_char): acc += current_char; _advance()]:
    the characters read are the longest prefix of the unread text that
    satisfies the condition, and the cursor advances over them. *)
Definition scan_while (p : ascii -> bool) (lx : Lexer) : string * Lexer :=
  let read := span p (rest lx) in
  (read, _advance lx (String.length read)).

(** *** Line start *)

Definition is_blank (ch : ascii) : bool := Ascii.eqb ch " " || Ascii.eqb ch TAB.

(** Width of a run of spaces and tabs: a space counts 1, a tab 4. *)
Fixpoint indent_width (ws : string) : nat :=
  match ws with
  | String ch ws' => (if Ascii.eqb ch " " then 1 else 4) + indent_width ws'
  | EmptyString => 0
  end.

(** [while indent_stack and indent < indent_stack[-1]: pop; DEDENT] *)
Fixpoint dedent_loop (indent : nat) (stack : list nat) (toks : list Token)
         (start_line start_col : nat) : list nat * list Token :=
  match stack with
  | top :: below =>
      if indent <? top
      then dedent_loop indent below
             (toks ++ [mkToken TT_DEDENT VNone start_line start_col])
             start_line start_col
      else (stack, toks)
  | [] => (stack, toks)
  end.

Definition _handle_line_start (lx : Lexer) (toks : list Token)
  : Result LexExn (Lexer * list Token) :=
  let lx := set_at_line_start false lx in
  let start_line := line lx in
  let start_col := col lx in
  let '(ws, lx) := scan_while is_blank lx in
  let indent := indent_width ws in
  match current_char lx with
  | None => Ok (lx, toks)
  | Some ch =>
      if Ascii.eqb ch LF || Ascii.eqb ch "#" then Ok (lx, toks)
      else
        match indent_stack lx with
        | [] => Raise IndexError
        | prev_indent :: _ =>
            if prev_indent <? indent then
              Ok (set_indent_stack (indent :: indent_stack lx) lx,
                  toks ++ [mkToken TT_INDENT VNone start_line start_col])
            else if indent <? prev_indent then
              let '(stack, toks) :=
                dedent_loop indent (indent_stack lx) toks start_line start_col in
              match stack with
              | [] => Raise IndexError
              | top :: _ =>
                  if indent =? top
                  then Ok (set_indent_stack stack lx, toks)
                  else Raise (LexerError InvalidIndent start_line start_col)
              end
            else Ok (lx, toks)
        end
  end.

(** *** Comments *)

Definition _handle_comment (lx : Lexer) (toks : list Token)
  : Lexer * list Token :=
  let start_line := line lx in
  let start_col := col lx in
  let '(comment_text, lx) := scan_while (fun ch => negb (Ascii.eqb ch LF)) lx in
  let stripped :=
    lstrip isspace (lstrip (fun ch => Ascii.eqb ch "#") comment_text) in
  if startswith "type:" stripped
  then (lx, toks ++ [mkToken TT_TYPE_COMMENT (VStr stripped) start_line start_col])
  else (lx, toks).

(** *** Numbers *)

Definition is_digit_opt (o : option ascii) : bool :=
  match o with Some ch => isdigit ch | None => false end.

(** [self.current_char == c] *)
Definition is_char (c : ascii) (o : option ascii) : bool :=
  match o with Some ch => Ascii.eqb ch c | None => false end.

Definition _number (lx : Lexer) : Result LexExn (Token * Lexer) :=
  let start_line := line lx in
  let start_col := col lx in
  let num_str := EmptyString in
  (* leading dot *)
  let lead :=
    if is_char "." (current_char lx) then
      let lx := _advance lx 1 in
      if is_digit_opt (current_char lx)
      then Ok (snoc num_str ".", lx)
      else Raise (LexerError InvalidNumberAfterDot start_line start_col)
    else Ok (num_str, lx) in
  match lead with
  | Raise e => Raise e
  | OutOfFuel => OutOfFuel
  | Ok (num_str, lx) =>
      (* integer part *)
      let '(ds, lx) := scan_while isdigit lx in
      let num_str := num_str +:+ ds in
      (* fractional part *)
      let '(num_str, lx) :=
        if is_char "." (current_char lx) then
          let '(ds, lx) := scan_while isdigit (_advance lx 1) in
          (snoc num_str "." +:+ ds, lx)
        else (num_str, lx) in
      (* exponent *)
      let expo :=
        match current_char lx with
        | Some ch =>
            if Ascii.eqb ch "e" || Ascii.eqb ch "E" then
              let num_str := snoc num_str ch in
              let lx := _advance lx 1 in
              let '(num_str, lx) :=
                match current_char lx with
                | Some sg =>
                    if Ascii.eqb sg "+" || Ascii.eqb sg "-"
                    then (snoc num_str sg, _advance lx 1)
                    else (num_str, lx)
                | None => (num_str, lx)
                end in
              if is_digit_opt (current_char lx) then
                let '(ds, lx) := scan_while isdigit lx in
                Ok (num_str +:+ ds, lx)
              else Raise (LexerError InvalidExponent (line lx) (col lx))
            else Ok (num_str, lx)
        | None => Ok (num_str, lx)
        end in
      match expo with
      | Raise e => Raise e
      | OutOfFuel => OutOfFuel
      | Ok (num_str, lx) =>
          if float_ok num_str
          then Ok (mkToken TT_NUMBER (VFloat num_str) start_line start_col, lx)
          else Raise (LexerError (InvalidNumber num_str) start_line start_col)
      end
  end.

(** *** Identifiers *)

Definition is_ident_char (ch : ascii) : bool := isalnum ch || Ascii.eqb ch "_".

Definition _identifier_or_keyword (lx : Lexer) : Token * Lexer :=
  let start_line := line lx in
  let start_col := col lx in
  let '(ident, lx) := scan_while is_ident_char lx in
  (mkToken TT_NAME (VStr ident) start_line start_col, lx).

(** *** String literals *)

(** The loop of [_string_literal] over the text after the opening
    quote; [n] counts the characters consumed so far. *)
Inductive StringScan : Set :=
| Closed (value_chars : string) (n : nat)
| Unterminated
| EscapeAtEof (n : nat)
| BrokenByNewline (n : nat).

Fixpoint scan_string (quote : ascii) (s : string) (value_chars : string) (n : nat)
  : StringScan :=
  match s with
  | EmptyString => Unterminated
  | String ch s' =>
      if Ascii.eqb ch "\" then
        match s' with
        | EmptyString => EscapeAtEof (S n)
        | String esc s'' =>
            let c :=
              if Ascii.eqb esc "n" then LF
              else if Ascii.eqb esc "t" then TAB
              else if Ascii.eqb esc "r" then CR
              else if Ascii.eqb esc "\" then "\"%char
              else if Ascii.eqb esc quote then quote
              else esc in
            scan_string quote s'' (snoc value_chars c) (S (S n))
        end
      else if Ascii.eqb ch quote then Closed value_chars (S n)
      else if Ascii.eqb ch LF then BrokenByNewline n
      else scan_string quote s' (snoc value_chars ch) (S n)
  end.

Definition _string_literal (lx : Lexer) : Result LexExn (Token * Lexer) :=
  let start_line := line lx in
  let start_col := col lx in
  match current_char lx with
  | None =>
      (* no quote to consume: the loop meets the end of the text at once *)
      Raise (LexerError UnterminatedString start_line start_col)
  | Some quote =>
      let lx := _advance lx 1 in
      match scan_string quote (rest lx) EmptyString 0 with
      | Closed value_chars n =>
          Ok (mkToken TT_STRING (VStr value_chars) start_line start_col,
              _advance lx n)
      | Unterminated =>
          Raise (LexerError UnterminatedString start_line start_col)
      | EscapeAtEof n =>
          let lx := _advance lx n in
          Raise (LexerError EofInEscape (line lx) (col lx))
      | BrokenByNewline n =>
          let lx := _advance lx n in
          Raise (LexerError NewlineInString (line lx) (col lx))
      end
  end.

(** *** Operators and punctuation *)

Definition multi_ops : list (string * TokenType) :=
  [ (">>=", TT_RSHIFTEQUAL); ("<<=", TT_LSHIFTEQUAL);
    ("**=", TT_DOUBLE_STAREQUAL); ("//=", TT_DOUBLE_SLASHEQUAL);
    ("==", TT_EQEQUAL); ("!=", TT_NOTEQUAL);
    ("<=", TT_LESSEQUAL); (">=", TT_GREATEREQUAL);
    ("<<", TT_LSHIFT); (">>", TT_RSHIFT);
    ("**", TT_DOUBLE_STAR); ("//", TT_DOUBLE_SLASH);
    ("+=", TT_PLUSEQUAL); ("-=", TT_MINEQUAL);
    ("*=", TT_STAREQUAL); ("/=", TT_SLASHEQUAL);
    ("%=", TT_PERCENTEQUAL); ("@=", TT_ATEQUAL);
    ("&=", TT_AMPEREQUAL); ("|=", TT_PIPEEQUAL);
    ("^=", TT_CARETEQUAL); ("->", TT_ARROW) ].

Definition single_map : list (ascii * TokenType) :=
  [ ("+"%char, TT_PLUS); ("-"%char, TT_MINUS); ("*"%char, TT_STAR);
    ("/"%char, TT_SLASH); ("%"%char, TT_PERCENT); ("@"%char, TT_AT);
    ("|"%char, TT_PIPE); ("&"%char, TT_AMPERSAND); ("^"%char, TT_CARET);
    ("~"%char, TT_TILDE); ("="%char, TT_EQUAL); ("<"%char, TT_LESS);
    (">"%char, TT_GREATER); ("("%char, TT_LPAREN); (")"%char, TT_RPAREN);
    ("["%char, TT_LBRACKET); ("]"%char, TT_RBRACKET);
    ("{"%char, TT_LBRACE); ("}"%char, TT_RBRACE); (","%char, TT_COMMA);
    (":"%char, TT_COLON); (";"%char, TT_SEMI); ("."%char, TT_DOT) ].

(** [d.get(key)] on a dict written as its list of items. *)
Fixpoint dict_get {K V : Type} (eqb : K -> K -> bool) (d : list (K * V)) (key : K)
  : option V :=
  match d with
  | (k, v) :: d' => if eqb k key then Some v else dict_get eqb d' key
  | [] => None
  end.

Definition _operator_or_punct (lx : Lexer) : option (Token * Lexer) :=
  match current_char lx with
  | None => None
  | Some ch =>
      let start_line := line lx in
      let start_col := col lx in
      let try_size (size : nat) : option (Token * Lexer) :=
        let fragment := _peek_fragment lx size in
        match dict_get String.eqb multi_ops fragment with
        | Some tok_type =>
            Some (mkToken tok_type (VStr fragment) start_line start_col,
                  _advance lx size)
        | None => None
        end in
      match try_size 3 with
      | Some r => Some r
      | None =>
          match try_size 2 with
          | Some r => Some r
          | None =>
              match dict_get Ascii.eqb single_map ch with
              | Some tok_type =>
                  Some (mkToken tok_type (VStr (String ch EmptyString))
                          start_line start_col,
                        _advance lx 1)
              | None => None
              end
          end
      end
  end.

(** *** Main loop *)

(** [ch in ' \t\r'] *)
Definition is_inline_space (ch : ascii) : bool :=
  Ascii.eqb ch " " || Ascii.eqb ch TAB || Ascii.eqb ch CR.

Definition is_quote (ch : ascii) : bool :=
  Ascii.eqb ch DQUOTE || Ascii.eqb ch "'".

(** The [while True] loop of [tokenize]. Every round that does not
    leave the loop consumes at least one character, so a fuel above
    the length of the unread text is never exhausted
    ([tokenize_loop_fuel] below). *)
Fixpoint tokenize_loop (fuel : nat) (lx : Lexer) (toks : list Token)
  : Result LexExn (Lexer * list Token) :=
  match fuel with
  | 0 => OutOfFuel
  | S fuel' =>
      match current_char lx with
      | None => Ok (lx, toks)
      | Some _ =>
          let at_start :=
            if at_line_start lx then _handle_line_start lx toks
            else Ok (lx, toks) in
          match at_start with
          | Raise e => Raise e
          | OutOfFuel => OutOfFuel
          | Ok (lx, toks) =>
              match current_char lx with
              | None => Ok (lx, toks)
              | Some ch =>
                  if is_inline_space ch then
                    tokenize_loop fuel' (_advance lx 1) toks
                  else if Ascii.eqb ch "#" then
                    let '(lx, toks) := _handle_comment lx toks in
                    tokenize_loop fuel' lx toks
                  else if Ascii.eqb ch LF then
                    let tok :=
                      mkToken TT_NEWLINE (VStr (String LF EmptyString))
                        (line lx) (col lx) in
                    tokenize_loop fuel'
                      (set_at_line_start true (_advance lx 1)) (toks ++ [tok])
                  else if isdigit ch
                          || (Ascii.eqb ch "." && is_digit_opt (_peek lx 1)) then
                    match _number lx with
                    | Ok (tok, lx) => tokenize_loop fuel' lx (toks ++ [tok])
                    | Raise e => Raise e
                    | OutOfFuel => OutOfFuel
                    end
                  else if isalpha ch || Ascii.eqb ch "_" then
                    let '(tok, lx) := _identifier_or_keyword lx in
                    tokenize_loop fuel' lx (toks ++ [tok])
                  else if is_quote ch then
                    match _string_literal lx with
                    | Ok (tok, lx) => tokenize_loop fuel' lx (toks ++ [tok])
                    | Raise e => Raise e
                    | OutOfFuel => OutOfFuel
                    end
                  else
                    match _operator_or_punct lx with
                    | Some (tok, lx) => tokenize_loop fuel' lx (toks ++ [tok])
                    | None =>
                        Raise (LexerError (UnexpectedChar ch) (line lx) (col lx))
                    end
              end
          end
      end
  end.

(** [tokens and tokens[-1].type != TT_NEWLINE] *)
Definition needs_final_newline (toks : list Token) : bool :=
  match last toks with
  | Some tok => negb (type_is tok TT_NEWLINE)
  | None => false
  end.

(** [while len(indent_stack) > 1: pop; DEDENT] *)
Fixpoint flush_dedents (stack : list nat) (toks : list Token) (ln cl : nat)
  : list nat * list Token :=
  match stack with
  | _ :: (_ :: _) as below =>
      flush_dedents below (toks ++ [mkToken TT_DEDENT VNone ln cl]) ln cl
  | _ => (stack, toks)
  end.

(** What [tokenize] does once the main loop is left. *)
Definition finish (lx : Lexer) (toks : list Token) : Lexer * list Token :=
  let toks :=
    if needs_final_newline toks
    then toks ++ [mkToken TT_NEWLINE (VStr (String LF EmptyString)) (line lx) (col lx)]
    else toks in
  let '(stack, toks) := flush_dedents (indent_stack lx) toks (line lx) (col lx) in
  (set_indent_stack stack lx,
   toks ++ [mkToken TT_ENDMARKER VNone (line lx) (col lx)]).

(** The method [tokenize]: the lexer after the call, and the tokens. *)
Definition tokenize (lx : Lexer) : Result LexExn (Lexer * list Token) :=
  match tokenize_loop (S (String.length (rest lx))) lx [] with
  | Ok (lx, toks) => Ok (finish lx toks)
  | Raise e => Raise e
  | OutOfFuel => OutOfFuel
  end.

(** [Lexer(text).tokenize()] *)
Definition lex (text : string) : Result LexExn (list Token) :=
  match tokenize (init text) with
  | Ok (_, toks) => Ok toks
  | Raise e => Raise e
  | OutOfFuel => OutOfFuel
  end.

End lexer.

(** ** symtable.py *)

Module symtable.

Record SymbolEntry : Set := mkSymbolEntry {
  name : string;
  kind : string;
  typ : string;
  entry_scope_name : string;
  offset : option Z
}.

(** The [RuntimeError]s of this module. *)
Inductive RuntimeError : Set :=
| Redeclared (scope_name name : string) (* Simbolo redeclarado en scope *)
| PopEmptyStack                         (* pop_scope() con pila vacia *)
| NoCurrentScope.                       (* No hay scope actual *)

(** One scope. Its [parent] is not a field here: [push_scope] links a
    new table to the table that is on top of the stack at that moment,
    and that table stays directly beneath it for as long as the new
    one is on the stack, so the parent of a table is the next table of
    the stack and a table with its ancestors is a suffix of the stack.
    This keeps the sharing of the Python objects: a parent seen from
    its child is the very table stored in the stack. *)
Record SymbolTable : Type := mkSymbolTable {
  scope_name : string;
  entries : gmap string SymbolEntry
}.

(** [SymbolTable.define] *)
Definition table_define (self : SymbolTable) (nm kd ty : string)
  : Result RuntimeError (SymbolEntry * SymbolTable) :=
  match entries self !! nm with
  | Some _ => Raise (Redeclared (scope_name self) nm)
  | None =>
      let entry := mkSymbolEntry nm kd ty (scope_name self) None in
      Ok (entry, mkSymbolTable (scope_name self) (<[nm := entry]> (entries self)))
  end.

(** [SymbolTable.lookup_local] *)
Definition lookup_local (self : SymbolTable) (nm : string) : option SymbolEntry :=
  entries self !! nm.

(** [SymbolTable.lookup], on a table followed by its ancestors. *)
Fixpoint table_lookup (chain : list SymbolTable) (nm : string)
  : option SymbolEntry :=
  match chain with
  | self :: parents =>
      match lookup_local self nm with
      | Some entry => Some entry
      | None => table_lookup parents nm
      end
  | [] => None
  end.

(** [SymbolTableStack]: the head of the list is the top of the stack
    (Python's last element). *)
Definition SymbolTableStack : Type := list SymbolTable.

Definition push_scope (stack : SymbolTableStack) (nm : string)
  : SymbolTable * SymbolTableStack :=
  let table := mkSymbolTable nm ∅ in
  (table, table :: stack).

Definition pop_scope (stack : SymbolTableStack)
  : Result RuntimeError (SymbolTable * SymbolTableStack) :=
  match stack with
  | table :: below => Ok (table, below)
  | [] => Raise PopEmptyStack
  end.

Definition current_scope (stack : SymbolTableStack)
  : Result RuntimeError SymbolTable :=
  match stack with
  | table :: _ => Ok table
  | [] => Raise NoCurrentScope
  end.

(** [SymbolTableStack.define] *)
Definition define (stack : SymbolTableStack) (nm kd ty : string)
  : Result RuntimeError (SymbolEntry * SymbolTableStack) :=
  match stack with
  | table :: below =>
      match table_define table nm kd ty with
      | Ok (entry, table) => Ok (entry, table :: below)
      | Raise e => Raise e
      | OutOfFuel => OutOfFuel
      end
  | [] => Raise NoCurrentScope
  end.

(** [SymbolTableStack.lookup] *)
Definition lookup (stack : SymbolTableStack) (nm : string)
  : Result RuntimeError (option SymbolEntry) :=
  match stack with
  | _ :: _ => Ok (table_lookup stack nm)
  | [] => Raise NoCurrentScope
  end.

End symtable.

(** ** astnodes.py *)

Module astnodes.

(** [KeywordArg] and [Slice], over the type of expressions. *)
Inductive KeywordArgOf (E : Type) : Type :=
| KeywordArg (name : string) (value : E).

Inductive SliceOf (E : Type) : Type :=
| Slice (start stop step : option E).

Arguments KeywordArg {E} name value.
Arguments Slice {E} start stop step.

Inductive Expr : Type :=
| Name (id : string)
| Num (value : string)          (* a float, as its literal *)
| Str (value : string)
| Bool (value : bool)
| NoneLiteral
| BinOp (left : Expr) (op : string) (right : Expr)
| UnaryOp (op : string) (operand : Expr)
| BoolOp (op : string) (values : list Expr)
| Compare (left : Expr) (ops : list string) (comparators : list Expr)
| Call (func : Expr) (args : list Expr) (keywords : list (KeywordArgOf Expr))
| Attribute (value : Expr) (attr : string)
| Subscript (value : Expr) (slice : SliceOf Expr).

Inductive Arg : Type :=
| mkArg (name : string) (annotation default : option Expr).

Definition arg_name (a : Arg) : string :=
  match a with mkArg name _ _ => name end.

(** The class [Arguments]. *)
Inductive ArgumentsNode : Type :=
| mkArguments (args : list Arg).

Definition arguments_args (a : ArgumentsNode) : list Arg :=
  match a with mkArguments args => args end.

Inductive Stmt : Type :=
| ExprStmt (value : Expr)
| Assign (targets : list Expr) (value : Expr)
| AugAssign (target : Expr) (op : string) (value : Expr)
| Return (value : option Expr)
| Pass
| Break
| Continue
| If (test : Expr) (body orelse : list Stmt)
| While (test : Expr) (body orelse : list Stmt)
| For (target iter : Expr) (body orelse : list Stmt)
| FunctionDef (name : string) (args : ArgumentsNode) (body : list Stmt)
              (returns : option Expr) (decorators : list Expr).

Inductive Program : Type :=
| mkProgram (body : list Stmt).

End astnodes.

(** ** parser.py *)

Module parser.
Import pystr tokens symtable astnodes.

(** What a [ParserError] reports (the message of the exception). *)
Inductive ParseMessage : Set :=
| ExpectedToken (expected found : TokenType) (* Se esperaba token .. *)
| ExpectedKeyword (word : string)            (* Se esperaba keyword .. *)
| UnexpectedIndent         (* INDENT/DEDENT inesperado al nivel superior *)
| ExpectedNewline          (* Se esperaba fin de sentencia (NEWLINE) *)
| NotAssignable            (* Expresion no asignable *)
| ExpectedParamName        (* Se esperaba nombre de parametro *)
| ExpectedAtom.            (* Se esperaba NAME, NUMBER, STRING o '(' *)

Inductive ParseExn : Type :=
| ParserError (message : ParseMessage) (token : Token)
| SymbolError (e : RuntimeError)   (* raised by symtable.py *)
| ValueError                       (* empty token list *)
| KeyError.                        (* a dict indexed by an absent key *)

(** The mutable part of the parser object. [self.tokens] never changes
    and is a parameter below; [self.current] is [self.tokens[self.pos]]
    from the constructor on and after every [_advance], so it is read
    from [pos]. *)
Record Parser : Type := mkParser {
  pos : nat;
  symstack : SymbolTableStack
}.

Definition set_symstack (stack : SymbolTableStack) (p : Parser) : Parser :=
  mkParser (pos p) stack.

(** A method of the parser: it reads and updates the parser object and
    returns a value or raises. *)
Definition M (A : Type) : Type := Parser -> Result ParseExn (A * Parser).

Definition ret {A : Type} (a : A) : M A := fun p => Ok (a, p).

Definition bind {A B : Type} (m : M A) (k : A -> M B) : M B :=
  fun p =>
    match m p with
    | Ok (a, p') => k a p'
    | Raise e => Raise e
    | OutOfFuel => OutOfFuel
    end.

Definition raise {A : Type} (e : ParseExn) : M A := fun _ => Raise e.

Definition out_of_fuel {A : Type} : M A := fun _ => OutOfFuel.

Declare Scope method_scope.
Delimit Scope method_scope with method.
Notation "x <- m ;; k" := (bind m (fun x => k))
  (at level 20, m at level 99, k at level 200, only parsing) : method_scope.
Notation "' pat <- m ;; k" := (bind m (fun x => match x with pat => k end))
  (at level 20, pat pattern, m at level 99, k at level 200, only parsing)
  : method_scope.
Notation "m ;; k" := (bind m (fun _ => k))
  (at level 100, k at level 200, only parsing, right associativity)
  : method_scope.
Open Scope method_scope.

Definition augassign_ops : list (TokenType * string) :=
  [ (TT_PLUSEQUAL, "+="); (TT_MINEQUAL, "-="); (TT_STAREQUAL, "*=");
    (TT_SLASHEQUAL, "/="); (TT_DOUBLE_SLASHEQUAL, "//=");
    (TT_PERCENTEQUAL, "%="); (TT_AMPEREQUAL, "&="); (TT_PIPEEQUAL, "|=");
    (TT_CARETEQUAL, "^="); (TT_LSHIFTEQUAL, "<<="); (TT_RSHIFTEQUAL, ">>=");
    (TT_DOUBLE_STAREQUAL, "**=") ].

Definition compare_mapping : list (TokenType * string) :=
  [ (TT_EQEQUAL, "=="); (TT_NOTEQUAL, "!="); (TT_LESS, "<");
    (TT_GREATER, ">"); (TT_LESSEQUAL, "<="); (TT_GREATEREQUAL, ">=") ].

Definition factor_mapping : list (TokenType * string) :=
  [ (TT_PLUS, "+"); (TT_MINUS, "-"); (TT_TILDE, "~") ].

Section WithTokens.

Variable tokens : list Token.

(** Only read when [pos] is out of range, which [_advance] rules out. *)
Definition no_token : Token := mkToken TT_ENDMARKER VNone 0 0.

Definition current_of (p : Parser) : Token := nth (pos p) tokens no_token.

(** [self.current] *)
Definition current : M Token := fun p => Ok (current_of p, p).

Definition _advance : M unit :=
  fun p =>
    if pos p <? length tokens - 1
    then Ok (tt, mkParser (S (pos p)) (symstack p))
    else Ok (tt, p).

Definition _error {A : Type} (message : ParseMessage) : M A :=
  fun p => Raise (ParserError message (current_of p)).

Definition _eat (token_type : TokenType) : M Token :=
  tok <- current ;;
  if type_is tok token_type
  then _advance ;; ret tok
  else raise (ParserError (ExpectedToken token_type (type tok)) tok).

Definition _peek_token (k : nat) : M Token :=
  fun p =>
    let idx := pos p + k in
    if length tokens <=? idx
    then Ok (List.last tokens no_token, p)
    else Ok (nth idx tokens no_token, p).

Definition _is_keyword (word : string) : M bool :=
  tok <- current ;;
  ret (type_is tok TT_NAME && value_is tok word).

Definition _expect_keyword (word : string) : M Token :=
  tok <- current ;;
  if type_is tok TT_NAME && value_is tok word
  then _advance ;; ret tok
  else raise (ParserError (ExpectedKeyword word) tok).

(** [mapping[key]] *)
Definition dict_index (d : list (TokenType * string)) (key : TokenType)
  : M string :=
  match lexer.dict_get TokenType_beq d key with
  | Some v => ret v
  | None => raise KeyError
  end.

(** *** Symbol registration *)

(** [scope = self.symstack.current_scope] followed by
    [if scope.lookup_local(nm) is None: scope.define(nm, kind, typ)],
    as written in [parse_expr_or_assignment] and in
    [parse_function_def]. *)
Definition define_if_absent (nm kd ty : string) : M unit :=
  fun p =>
    match symstack p with
    | [] => Raise (SymbolError NoCurrentScope)
    | scope :: below =>
        match lookup_local scope nm with
        | None =>
            match table_define scope nm kd ty with
            | Ok (_, scope') => Ok (tt, set_symstack (scope' :: below) p)
            | Raise e => Raise (SymbolError e)
            | OutOfFuel => OutOfFuel
            end
        | Some _ => Ok (tt, p)
        end
    end.

(** [self.symstack.push_scope(nm)] *)
Definition push_scope (nm : string) : M unit :=
  fun p => Ok (tt, set_symstack (snd (symtable.push_scope (symstack p) nm)) p).

(** [self.symstack.pop_scope()] *)
Definition pop_scope : M unit :=
  fun p =>
    match symtable.pop_scope (symstack p) with
    | Ok (_, stack) => Ok (tt, set_symstack stack p)
    | Raise e => Raise (SymbolError e)
    | OutOfFuel => OutOfFuel
    end.

(** [self.symstack.define(nm, kind, typ)] *)
Definition define (nm kd ty : string) : M unit :=
  fun p =>
    match symtable.define (symstack p) nm kd ty with
    | Ok (_, stack) => Ok (tt, set_symstack stack p)
    | Raise e => Raise (SymbolError e)
    | OutOfFuel => OutOfFuel
    end.

(** [for arg in params: self.symstack.define(arg.name, "param", "unknown")] *)
Fixpoint define_params (params : list Arg) : M unit :=
  match params with
  | arg :: params' =>
      define (arg_name arg) "param" "unknown" ;; define_params params'
  | [] => ret tt
  end.

(** *** Simple statements without sub-expressions *)

Definition parse_pass_stmt : M Stmt := _expect_keyword "pass" ;; ret Pass.
Definition parse_break_stmt : M Stmt := _expect_keyword "break" ;; ret Break.
Definition parse_continue_stmt : M Stmt :=
  _expect_keyword "continue" ;; ret Continue.

Definition _ensure_assignable (expr : Expr) : M Expr :=
  match expr with
  | Name _ | Attribute _ _ | Subscript _ _ => ret expr
  | _ => _error NotAssignable
  end.

(** *** Parameters *)

(** The [while True] loop of [parse_parameters]. *)
Fixpoint parameters_loop (fuel : nat) (params : list Arg) : M (list Arg) :=
  match fuel with
  | 0 => out_of_fuel
  | S fuel' =>
      tok <- current ;;
      if negb (type_is tok TT_NAME) then _error ExpectedParamName
      else
        name_tok <- _eat TT_NAME ;;
        let params := params ++ [mkArg (str_value name_tok) None None] in
        tok <- current ;;
        if type_is tok TT_COMMA then
          next_tok <- _peek_token 1 ;;
          _eat TT_COMMA ;;
          if type_is next_tok TT_RPAREN then ret params
          else parameters_loop fuel' params
        else ret params
  end.

Definition parse_parameters (fuel : nat) : M (list Arg) :=
  tok <- current ;;
  if type_is tok TT_RPAREN then ret []
  else parameters_loop fuel [].

(** [node.values.append(right)] when [node] is a [BoolOp] of the same
    operator, a new two-operand [BoolOp] otherwise. *)
Definition extend_boolop (op : string) (node right : Expr) : Expr :=
  match node with
  | BoolOp op' values =>
      if String.eqb op' op then BoolOp op' (values ++ [right])
      else BoolOp op [node; right]
  | _ => BoolOp op [node; right]
  end.

(** *** Statements and expressions

    The recursive descent. Every method takes the fuel left and
    hands its predecessor to the methods it calls; a [while] loop of
    a method is a method of its own (named [.._loop]) that calls
    itself for the next round. The fuel is no recursion limit: the
    Python methods call each other on the call stack and raise
    [RecursionError] on parentheses nested too deeply, which is no
    outcome of [ParseExn]. *)

Fixpoint parse_expression (fuel : nat) : M Expr :=
  match fuel with
  | 0 => out_of_fuel
  | S fuel' => parse_or fuel'
  end

with parse_or (fuel : nat) : M Expr :=
  match fuel with
  | 0 => out_of_fuel
  | S fuel' => node <- parse_and fuel' ;; parse_or_loop fuel' node
  end

with parse_or_loop (fuel : nat) (node : Expr) : M Expr :=
  match fuel with
  | 0 => out_of_fuel
  | S fuel' =>
      is_or <- _is_keyword "or" ;;
      if is_or then
        _advance ;;
        right <- parse_and fuel' ;;
        parse_or_loop fuel' (extend_boolop "or" node right)
      else ret node
  end

with parse_and (fuel : nat) : M Expr :=
  match fuel with
  | 0 => out_of_fuel
  | S fuel' => node <- parse_not fuel' ;; parse_and_loop fuel' node
  end

with parse_and_loop (fuel : nat) (node : Expr) : M Expr :=
  match fuel with
  | 0 => out_of_fuel
  | S fuel' =>
      is_and <- _is_keyword "and" ;;
      if is_and then
        _advance ;;
        right <- parse_not fuel' ;;
        parse_and_loop fuel' (extend_boolop "and" node right)
      else ret node
  end

with parse_not (fuel : nat) : M Expr :=
  match fuel with
  | 0 => out_of_fuel
  | S fuel' =>
      is_not <- _is_keyword "not" ;;
      if is_not then
        _advance ;;
        operand <- parse_not fuel' ;;
        ret (UnaryOp "not" operand)
      else parse_comparison fuel'
  end

with parse_comparison (fuel : nat) : M Expr :=
  match fuel with
  | 0 => out_of_fuel
  | S fuel' =>
      node <- parse_arith_expr fuel' ;;
      '(ops, comparators) <- parse_comparison_loop fuel' [] [] ;;
      match ops with
      | _ :: _ => ret (Compare node ops comparators)
      | [] => ret node
      end
  end

with parse_comparison_loop (fuel : nat) (ops : list string)
                           (comparators : list Expr)
  : M (list string * list Expr) :=
  match fuel with
  | 0 => out_of_fuel
  | S fuel' =>
      op_tok <- current ;;
      if type_in op_tok [TT_EQEQUAL; TT_NOTEQUAL; TT_LESS; TT_GREATER;
                         TT_LESSEQUAL; TT_GREATEREQUAL] then
        _advance ;;
        op_str <- dict_index compare_mapping (type op_tok) ;;
        right <- parse_arith_expr fuel' ;;
        parse_comparison_loop fuel' (ops ++ [op_str]) (comparators ++ [right])
      else ret (ops, comparators)
  end

with parse_arith_expr (fuel : nat) : M Expr :=
  match fuel with
  | 0 => out_of_fuel
  | S fuel' => node <- parse_term fuel' ;; parse_arith_loop fuel' node
  end

with parse_arith_loop (fuel : nat) (node : Expr) : M Expr :=
  match fuel with
  | 0 => out_of_fuel
  | S fuel' =>
      op_tok <- current ;;
      if type_in op_tok [TT_PLUS; TT_MINUS] then
        _advance ;;
        let op_str := if type_is op_tok TT_PLUS then "+" else "-" in
        right <- parse_term fuel' ;;
        parse_arith_loop fuel' (BinOp node op_str right)
      else ret node
  end

with parse_term (fuel : nat) : M Expr :=
  match fuel with
  | 0 => out_of_fuel
  | S fuel' => node <- parse_factor fuel' ;; parse_term_loop fuel' node
  end

with parse_term_loop (fuel : nat) (node : Expr) : M Expr :=
  match fuel with
  | 0 => out_of_fuel
  | S fuel' =>
      op_tok <- current ;;
      if type_in op_tok [TT_STAR; TT_SLASH; TT_DOUBLE_SLASH; TT_PERCENT] then
        _advance ;;
        let op_str :=
          if type_is op_tok TT_STAR then "*"
          else if type_is op_tok TT_SLASH then "/"
          else if type_is op_tok TT_DOUBLE_SLASH then "//"
          else "%" in
        right <- parse_factor fuel' ;;
        parse_term_loop fuel' (BinOp node op_str right)
      else ret node
  end

with parse_factor (fuel : nat) : M Expr :=
  match fuel with
  | 0 => out_of_fuel
  | S fuel' =>
      op_tok <- current ;;
      if type_in op_tok [TT_PLUS; TT_MINUS; TT_TILDE] then
        _advance ;;
        op_str <- dict_index factor_mapping (type op_tok) ;;
        operand <- parse_factor fuel' ;;
        ret (UnaryOp op_str operand)
      else parse_power fuel'
  end

with parse_power (fuel : nat) : M Expr :=
  match fuel with
  | 0 => out_of_fuel
  | S fuel' =>
      node <- parse_primary fuel' ;;
      tok <- current ;;
      if type_is tok TT_DOUBLE_STAR then
        _advance ;;
        right <- parse_factor fuel' ;;
        ret (BinOp node "**" right)
      else ret node
  end

with parse_primary (fuel : nat) : M Expr :=
  match fuel with
  | 0 => out_of_fuel
  | S fuel' => node <- parse_atom fuel' ;; parse_primary_loop fuel' node
  end

with parse_primary_loop (fuel : nat) (node : Expr) : M Expr :=
  match fuel with
  | 0 => out_of_fuel
  | S fuel' =>
      tok <- current ;;
      if type_is tok TT_DOT then
        _advance ;;
        name_tok <- _eat TT_NAME ;;
        parse_primary_loop fuel' (Attribute node (str_value name_tok))
      else if type_is tok TT_LPAREN then
        _advance ;;
        '(args, keywords) <- parse_arglist fuel' ;;
        _eat TT_RPAREN ;;
        parse_primary_loop fuel' (Call node args keywords)
      else if type_is tok TT_LBRACKET then
        _advance ;;
        index_expr <- parse_expression fuel' ;;
        _eat TT_RBRACKET ;;
        parse_primary_loop fuel'
          (Subscript node (Slice (Some index_expr) None None))
      else ret node
  end

with parse_arglist (fuel : nat) : M (list Expr * list (KeywordArgOf Expr)) :=
  match fuel with
  | 0 => out_of_fuel
  | S fuel' =>
      tok <- current ;;
      if type_is tok TT_RPAREN then ret ([], [])
      else parse_arglist_loop fuel' [] []
  end

with parse_arglist_loop (fuel : nat) (args : list Expr)
                        (keywords : list (KeywordArgOf Expr))
  : M (list Expr * list (KeywordArgOf Expr)) :=
  match fuel with
  | 0 => out_of_fuel
  | S fuel' =>
      tok <- current ;;
      peeked <- _peek_token 1 ;;
      '(args, keywords) <-
        (if type_is tok TT_NAME && type_is peeked TT_EQUAL then
           name_tok <- _eat TT_NAME ;;
           _eat TT_EQUAL ;;
           value <- parse_expression fuel' ;;
           ret (args, keywords ++ [KeywordArg (str_value name_tok) value])
         else
           expr <- parse_expression fuel' ;;
           ret (args ++ [expr], keywords)) ;;
      tok <- current ;;
      if type_is tok TT_COMMA then
        next_tok <- _peek_token 1 ;;
        _eat TT_COMMA ;;
        if type_is next_tok TT_RPAREN then ret (args, keywords)
        else parse_arglist_loop fuel' args keywords
      else ret (args, keywords)
  end

with parse_atom (fuel : nat) : M Expr :=
  match fuel with
  | 0 => out_of_fuel
  | S fuel' =>
      tok <- current ;;
      if type_is tok TT_NAME then
        _advance ;;
        if value_is tok "True" then ret (Bool true)
        else if value_is tok "False" then ret (Bool false)
        else if value_is tok "None" then ret NoneLiteral
        else ret (Name (str_value tok))
      else if type_is tok TT_NUMBER then
        _advance ;; ret (Num (float_value tok))
      else if type_is tok TT_STRING then
        _advance ;; ret (Str (str_value tok))
      else if type_is tok TT_LPAREN then
        _advance ;;
        expr <- parse_expression fuel' ;;
        _eat TT_RPAREN ;;
        ret expr
      else _error ExpectedAtom
  end.

Definition parse_return_stmt (fuel : nat) : M Stmt :=
  match fuel with
  | 0 => out_of_fuel
  | S fuel' =>
      _expect_keyword "return" ;;
      tok <- current ;;
      if type_in tok [TT_NEWLINE; TT_DEDENT; TT_ENDMARKER]
      then ret (Return None)
      else value <- parse_expression fuel' ;; ret (Return (Some value))
  end.

Definition parse_expr_or_assignment (fuel : nat) : M Stmt :=
  match fuel with
  | 0 => out_of_fuel
  | S fuel' =>
      left_expr <- parse_expression fuel' ;;
      tok <- current ;;
      if type_is tok TT_EQUAL then
        target <- _ensure_assignable left_expr ;;
        _advance ;;
        value <- parse_expression fuel' ;;
        match target with
        | Name id => define_if_absent id "variable" "unknown"
        | _ => ret tt
        end ;;
        ret (Assign [target] value)
      else
        match lexer.dict_get TokenType_beq augassign_ops (type tok) with
        | Some op_str =>
            target <- _ensure_assignable left_expr ;;
            _advance ;;
            value <- parse_expression fuel' ;;
            ret (AugAssign target op_str value)
        | None => ret (ExprStmt left_expr)
        end
  end.

Definition parse_simple_stmt (fuel : nat) : M Stmt :=
  match fuel with
  | 0 => out_of_fuel
  | S fuel' =>
      is_return <- _is_keyword "return" ;;
      is_pass <- _is_keyword "pass" ;;
      is_break <- _is_keyword "break" ;;
      is_continue <- _is_keyword "continue" ;;
      node <- (if is_return then parse_return_stmt fuel'
               else if is_pass then parse_pass_stmt
               else if is_break then parse_break_stmt
               else if is_continue then parse_continue_stmt
               else parse_expr_or_assignment fuel') ;;
      tok <- current ;;
      if type_is tok TT_NEWLINE then _advance ;; ret node
      else if type_in tok [TT_DEDENT; TT_ENDMARKER] then ret node
      else _error ExpectedNewline
  end.

Fixpoint parse_statement (fuel : nat) : M Stmt :=
  match fuel with
  | 0 => out_of_fuel
  | S fuel' =>
      is_if <- _is_keyword "if" ;;
      if is_if then parse_if_stmt fuel' else
      is_while <- _is_keyword "while" ;;
      if is_while then parse_while_stmt fuel' else
      is_for <- _is_keyword "for" ;;
      if is_for then parse_for_stmt fuel' else
      is_def <- _is_keyword "def" ;;
      if is_def then parse_function_def fuel' else
      parse_simple_stmt fuel'
  end

with parse_if_stmt (fuel : nat) : M Stmt :=
  match fuel with
  | 0 => out_of_fuel
  | S fuel' =>
      _expect_keyword "if" ;;
      test <- parse_expression fuel' ;;
      _eat TT_COLON ;;
      body <- parse_block fuel' ;;
      orelse <- parse_if_orelse fuel' ;;
      ret (If test body orelse)
  end

(** The [elif] loop and the final [else] of [parse_if_stmt]. The
    source appends each [elif] node to the [orelse] list of the node
    before it and the [else] body to the innermost list; the lists
    are returned here from the innermost outwards. *)
with parse_if_orelse (fuel : nat) : M (list Stmt) :=
  match fuel with
  | 0 => out_of_fuel
  | S fuel' =>
      is_elif <- _is_keyword "elif" ;;
      if is_elif then
        _advance ;;
        elif_test <- parse_expression fuel' ;;
        _eat TT_COLON ;;
        elif_body <- parse_block fuel' ;;
        inner <- parse_if_orelse fuel' ;;
        ret [If elif_test elif_body inner]
      else
        is_else <- _is_keyword "else" ;;
        if is_else then
          _advance ;;
          _eat TT_COLON ;;
          else_body <- parse_block fuel' ;;
          ret else_body
        else ret []
  end

with parse_while_stmt (fuel : nat) : M Stmt :=
  match fuel with
  | 0 => out_of_fuel
  | S fuel' =>
      _expect_keyword "while" ;;
      test <- parse_expression fuel' ;;
      _eat TT_COLON ;;
      body <- parse_block fuel' ;;
      is_else <- _is_keyword "else" ;;
      orelse <- (if is_else
                 then _advance ;; _eat TT_COLON ;; parse_block fuel'
                 else ret []) ;;
      ret (While test body orelse)
  end

with parse_for_stmt (fuel : nat) : M Stmt :=
  match fuel with
  | 0 => out_of_fuel
  | S fuel' =>
      _expect_keyword "for" ;;
      target_expr <- parse_expression fuel' ;;
      _expect_keyword "in" ;;
      iter_expr <- parse_expression fuel' ;;
      _eat TT_COLON ;;
      body <- parse_block fuel' ;;
      is_else <- _is_keyword "else" ;;
      orelse <- (if is_else
                 then _advance ;; _eat TT_COLON ;; parse_block fuel'
                 else ret []) ;;
      ret (For target_expr iter_expr body orelse)
  end

with parse_function_def (fuel : nat) : M Stmt :=
  match fuel with
  | 0 => out_of_fuel
  | S fuel' =>
      _expect_keyword "def" ;;
      name_tok <- _eat TT_NAME ;;
      let func_name := str_value name_tok in
      define_if_absent func_name "function" "function" ;;
      _eat TT_LPAREN ;;
      params <- parse_parameters fuel' ;;
      _eat TT_RPAREN ;;
      _eat TT_COLON ;;
      push_scope ("func " +:+ func_name) ;;
      define_params params ;;
      body <- parse_block fuel' ;;
      pop_scope ;;
      ret (FunctionDef func_name (mkArguments params) body None [])
  end

with parse_block (fuel : nat) : M (list Stmt) :=
  match fuel with
  | 0 => out_of_fuel
  | S fuel' =>
      tok <- current ;;
      if type_is tok TT_NEWLINE then
        _eat TT_NEWLINE ;;
        _eat TT_INDENT ;;
        stmts <- parse_block_loop fuel' [] ;;
        _eat TT_DEDENT ;;
        ret stmts
      else
        stmt <- parse_simple_stmt fuel' ;;
        ret [stmt]
  end

with parse_block_loop (fuel : nat) (stmts : list Stmt) : M (list Stmt) :=
  match fuel with
  | 0 => out_of_fuel
  | S fuel' =>
      tok <- current ;;
      if type_in tok [TT_DEDENT; TT_ENDMARKER] then ret stmts
      else if type_is tok TT_NEWLINE then
        _advance ;; parse_block_loop fuel' stmts
      else
        stmt <- parse_statement fuel' ;;
        parse_block_loop fuel' (stmts ++ [stmt])
  end.

(** The [while] loop of [parse]. *)
Fixpoint parse_loop (fuel : nat) (body : list Stmt) : M Program :=
  match fuel with
  | 0 => out_of_fuel
  | S fuel' =>
      tok <- current ;;
      if type_is tok TT_ENDMARKER then ret (mkProgram body)
      else if type_is tok TT_NEWLINE then _advance ;; parse_loop fuel' body
      else if type_in tok [TT_INDENT; TT_DEDENT] then _error UnexpectedIndent
      else
        stmt <- parse_statement fuel' ;;
        parse_loop fuel' (body ++ [stmt])
  end.

Definition parse (fuel : nat) : M Program := parse_loop fuel [].

(** [Parser(tokens)] *)
Definition init : Result ParseExn Parser :=
  match tokens with
  | [] => Raise ValueError
  | _ :: _ => Ok (mkParser 0 (snd (symtable.push_scope [] "global")))
  end.

End WithTokens.

(** [Parser(tokens).parse()], with the parser object left by the call. *)
Definition run (fuel : nat) (tokens : list Token)
  : Result ParseExn (Program * Parser) :=
  match init tokens with
  | Ok p => parse tokens fuel p
  | Raise e => Raise e
  | OutOfFuel => OutOfFuel
  end.

(** [parse_tokens(tokens)] *)
Definition parse_tokens (fuel : nat) (tokens : list Token)
  : Result ParseExn Program :=
  match run fuel tokens with
  | Ok (program, _) => Ok program
  | Raise e => Raise e
  | OutOfFuel => OutOfFuel
  end.

End parser.

(** ** codegen3ac.py *)

Module codegen3ac.
Import pystr astnodes.

Record TACInstr : Set := mkTACInstr {
  op : string;
  arg1 : option string;
  arg2 : option string;
  result : option string;
  label : option string;
  comment : option string
}.

(** [if self.label:] and the like: [None] and the empty string are
    false. *)
Definition truthy (o : option string) : bool :=
  match o with
  | Some s => negb (String.eqb s "")
  | None => false
  end.

(** What an f-string prints for an optional string. *)
Definition show (o : option string) : string :=
  match o with
  | Some s => s
  | None => "None"
  end.

(** [sep.join(parts)] *)
Fixpoint join (sep : string) (parts : list string) : string :=
  match parts with
  | [] => ""
  | [part] => part
  | part :: parts' => part +:+ sep +:+ join sep parts'
  end.

(** [TACInstr.__str__] *)
Definition __str__ (self : TACInstr) : string :=
  let parts :=
    if truthy (label self) then [show (label self) +:+ ":"] else [] in
  let body :=
    if String.eqb (op self) "label" then []
    else if String.eqb (op self) "goto" then ["goto " +:+ show (result self)]
    else if String.eqb (op self) "if_false_goto" then
      ["if_false " +:+ show (arg1 self) +:+ " goto " +:+ show (result self)]
    else if String.eqb (op self) "return" then
      match arg1 self with
      | Some a => ["return " +:+ a]
      | None => ["return"]
      end
    else if String.eqb (op self) "param" then ["param " +:+ show (arg1 self)]
    else if String.eqb (op self) "call" then
      if truthy (result self)
      then [show (result self) +:+ " = call " +:+ show (arg1 self) +:+ ", "
              +:+ show (arg2 self)]
      else ["call " +:+ show (arg1 self) +:+ ", " +:+ show (arg2 self)]
    else if String.eqb (op self) "func_begin" then
      ["func_begin " +:+ show (result self)]
    else if String.eqb (op self) "func_end" then
      ["func_end " +:+ show (result self)]
    else
      match result self, arg1 self, arg2 self with
      | Some r, _, Some a2 =>
          [r +:+ " = " +:+ show (arg1 self) +:+ " " +:+ op self +:+ " " +:+ a2]
      | Some r, Some a1, None => [r +:+ " = " +:+ op self +:+ a1]
      | Some r, None, None => [r +:+ " = " +:+ op self]
      | None, Some a1, Some a2 => [a1 +:+ " " +:+ op self +:+ " " +:+ a2]
      | None, Some a1, None => [op self +:+ " " +:+ a1]
      | None, None, _ => [op self]
      end in
  let tail :=
    if truthy (comment self) then ["    # " +:+ show (comment self)] else [] in
  join " " (parts ++ body ++ tail).

(** The generator object. The tops of [break_stack] and
    [continue_stack] (Python's last elements) are the heads of the
    lists. *)
Record CodeGenerator3AC : Set := mkCodeGenerator3AC {
  code : list TACInstr;
  temp_count : nat;
  label_count : nat;
  break_stack : list string;
  continue_stack : list string
}.

(** [CodeGenerator3AC()] *)
Definition init : CodeGenerator3AC := mkCodeGenerator3AC [] 0 0 [] [].

Inductive GenExn : Set :=
| NotImplementedError.   (* Lvalue no soportado para asignacion en 3AC *)

Definition new_temp (g : CodeGenerator3AC) : string * CodeGenerator3AC :=
  let n := S (temp_count g) in
  ("t" +:+ pretty n,
   mkCodeGenerator3AC (code g) n (label_count g) (break_stack g) (continue_stack g)).

Definition new_label (prefix : string) (g : CodeGenerator3AC)
  : string * CodeGenerator3AC :=
  let n := S (label_count g) in
  (prefix +:+ pretty n,
   mkCodeGenerator3AC (code g) (temp_count g) n (break_stack g) (continue_stack g)).

Definition emit (op : string) (arg1 arg2 result label comment : option string)
           (g : CodeGenerator3AC) : CodeGenerator3AC :=
  mkCodeGenerator3AC (code g ++ [mkTACInstr op arg1 arg2 result label comment])
    (temp_count g) (label_count g) (break_stack g) (continue_stack g).

Definition emit_label (lbl : string) (g : CodeGenerator3AC) : CodeGenerator3AC :=
  emit "label" None None None (Some lbl) None g.

(** [continue_stack.append(c); break_stack.append(b)] *)
Definition push_loop (c b : string) (g : CodeGenerator3AC) : CodeGenerator3AC :=
  mkCodeGenerator3AC (code g) (temp_count g) (label_count g)
    (b :: break_stack g) (c :: continue_stack g).

(** [continue_stack.pop(); break_stack.pop()] *)
Definition pop_loop (g : CodeGenerator3AC) : CodeGenerator3AC :=
  mkCodeGenerator3AC (code g) (temp_count g) (label_count g)
    (tail (break_stack g)) (tail (continue_stack g)).

(** [for x in xs: visit(x)], stopping at the first exception. *)
Section ForEach.
Context {A E S : Type}.
Variable visit : A -> S -> Result E S.

Fixpoint for_each (xs : list A) (g : S) : Result E S :=
  match xs with
  | [] => Ok g
  | x :: xs' =>
      match visit x g with
      | Ok g' => for_each xs' g'
      | Raise e => Raise e
      | OutOfFuel => OutOfFuel
      end
  end.
End ForEach.

Section WithRepr.

(** [repr] of a float (given as its literal) and of a string. *)
Variable repr_float : string -> string.
Variable repr_str : string -> string.

(** *** Expressions

    The visitors of the composite nodes take the visitor of their
    operands, which [visit_expr] below instantiates with itself. *)

Section ExprVisitors.
Variable visit : Expr -> CodeGenerator3AC -> string * CodeGenerator3AC.

Definition visit_binop (left_expr : Expr) (op : string) (right_expr : Expr)
           (g : CodeGenerator3AC) : string * CodeGenerator3AC :=
  let '(left_place, g) := visit left_expr g in
  let '(right_place, g) := visit right_expr g in
  let '(result, g) := new_temp g in
  (result, emit op (Some left_place) (Some right_place) (Some result)
             None None g).

Definition visit_unaryop (op : string) (operand : Expr)
           (g : CodeGenerator3AC) : string * CodeGenerator3AC :=
  let '(operand_place, g) := visit operand g in
  let '(result, g) := new_temp g in
  (result, emit op (Some operand_place) None (Some result) None None g).

(** [for expr in node.values[1:]: ...] *)
Fixpoint boolop_loop (op : string) (values : list Expr) (temp : string)
         (g : CodeGenerator3AC) : string * CodeGenerator3AC :=
  match values with
  | [] => (temp, g)
  | expr :: values' =>
      let '(right_place, g) := visit expr g in
      let '(t, g) := new_temp g in
      let g := emit op (Some temp) (Some right_place) (Some t) None None g in
      boolop_loop op values' t g
  end.

Definition visit_boolop (op : string) (values : list Expr)
           (g : CodeGenerator3AC) : string * CodeGenerator3AC :=
  match values with
  | [] => ("False", g)
  | first :: others =>
      let '(temp, g) := visit first g in
      boolop_loop op others temp g
  end.

(** [for op_str, right_expr in zip(node.ops, node.comparators): ...] *)
Fixpoint compare_loop (ops : list string) (comparators : list Expr)
         (current_left : string) (g : CodeGenerator3AC) {struct comparators}
  : string * CodeGenerator3AC :=
  match comparators, ops with
  | right_expr :: comparators', op_str :: ops' =>
      let '(right_place, g) := visit right_expr g in
      let '(t, g) := new_temp g in
      let g := emit op_str (Some current_left) (Some right_place) (Some t)
                 None None g in
      compare_loop ops' comparators' t g
  | _, _ => (current_left, g)
  end.

Definition visit_compare (left_expr : Expr) (ops : list string)
           (comparators : list Expr) (g : CodeGenerator3AC)
  : string * CodeGenerator3AC :=
  let '(left_place, g) := visit left_expr g in
  match ops, comparators with
  | [], _ | _, [] => (left_place, g)
  | _, _ => compare_loop ops comparators left_place g
  end.

(** [for arg in node.args: arg_places.append(self.visit_expr(arg))] *)
Fixpoint args_loop (args : list Expr) (arg_places : list string)
         (g : CodeGenerator3AC) : list string * CodeGenerator3AC :=
  match args with
  | [] => (arg_places, g)
  | arg :: args' =>
      let '(place, g) := visit arg g in
      args_loop args' (arg_places ++ [place]) g
  end.

(** [for place in arg_places: self.emit("param", arg1=place)] *)
Fixpoint emit_params (arg_places : list string) (g : CodeGenerator3AC)
  : CodeGenerator3AC :=
  match arg_places with
  | [] => g
  | place :: rest =>
      emit_params rest (emit "param" (Some place) None None None None g)
  end.

Definition visit_call (func : Expr) (args : list Expr)
           (g : CodeGenerator3AC) : string * CodeGenerator3AC :=
  let '(arg_places, g) := args_loop args [] g in
  let g := emit_params arg_places g in
  let '(func_place, g) := visit func g in
  let n_args := length arg_places in
  let '(result, g) := new_temp g in
  (result, emit "call" (Some func_place) (Some (pretty n_args))
             (Some result) None None g).

Definition visit_attribute (value : Expr) (attr : string)
           (g : CodeGenerator3AC) : string * CodeGenerator3AC :=
  let '(value_place, g) := visit value g in
  let '(result, g) := new_temp g in
  (result, emit "getattr" (Some value_place) (Some attr) (Some result)
             None None g).

(** [self.visit_expr(e) if e is not None else "None"] *)
Definition visit_or_none (e : option Expr) (g : CodeGenerator3AC)
  : string * CodeGenerator3AC :=
  match e with
  | Some e => visit e g
  | None => ("None", g)
  end.

Definition visit_subscript (value : Expr) (s : SliceOf Expr)
           (g : CodeGenerator3AC) : string * CodeGenerator3AC :=
  let '(value_place, g) := visit value g in
  match s with
  | Slice (Some index) None None =>
      let '(index_place, g) := visit index g in
      let '(result, g) := new_temp g in
      (result, emit "load_index" (Some value_place) (Some index_place)
                 (Some result) None None g)
  | Slice start stop step =>
      let '(start, g) := visit_or_none start g in
      let '(stop, g) := visit_or_none stop g in
      let '(step, g) := visit_or_none step g in
      let '(result, g) := new_temp g in
      let slice_descr :=
        "(" +:+ start +:+ "," +:+ stop +:+ "," +:+ step +:+ ")" in
      (result, emit "slice" (Some value_place) (Some slice_descr)
                 (Some result) None None g)
  end.
End ExprVisitors.

(** [visit_expr] and [visit_stmt] recurse on the tree. The Python
    methods do so on the call stack and raise [RecursionError] on a
    tree nested too deeply, which is no outcome of [GenExn]. *)
Fixpoint visit_expr (node : Expr) (g : CodeGenerator3AC) {struct node}
  : string * CodeGenerator3AC :=
  match node with
  | Name id => (id, g)
  | Num value => (repr_float value, g)
  | Str value => (repr_str value, g)
  | Bool value => (if value then "True" else "False", g)
  | NoneLiteral => ("None", g)
  | BinOp left_expr op right_expr =>
      visit_binop visit_expr left_expr op right_expr g
  | UnaryOp op operand => visit_unaryop visit_expr op operand g
  | BoolOp op values => visit_boolop visit_expr op values g
  | Compare left_expr ops comparators =>
      visit_compare visit_expr left_expr ops comparators g
  | Call func args keywords => visit_call visit_expr func args g
  | Attribute value attr => visit_attribute visit_expr value attr g
  | Subscript value s => visit_subscript visit_expr value s g
  end.

Definition get_lvalue_place (expr : Expr) (g : CodeGenerator3AC)
  : Result GenExn (string * CodeGenerator3AC) :=
  match expr with
  | Name id => Ok (id, g)
  | Attribute value attr =>
      let '(base, g) := visit_expr value g in
      Ok (base +:+ "." +:+ attr, g)
  | Subscript value s =>
      let '(base, g) := visit_expr value g in
      match s with
      | Slice (Some index) None None =>
          let '(index_place, g) := visit_expr index g in
          Ok (base +:+ "[" +:+ index_place +:+ "]", g)
      | Slice start stop step =>
          let '(start, g) := visit_or_none visit_expr start g in
          let '(stop, g) := visit_or_none visit_expr stop g in
          let '(step, g) := visit_or_none visit_expr step g in
          Ok (base +:+ "[" +:+ start +:+ ":" +:+ stop +:+ ":" +:+ step +:+ "]", g)
      end
  | _ => Raise NotImplementedError
  end.

(** *** Statements *)

(** A step of a method that may raise, followed by the rest of it. *)
Definition and_then {A : Type} (r : Result GenExn A)
           (k : A -> Result GenExn CodeGenerator3AC)
  : Result GenExn CodeGenerator3AC :=
  match r with
  | Ok a => k a
  | Raise e => Raise e
  | OutOfFuel => OutOfFuel
  end.

Definition visit_exprstmt (value : Expr) (g : CodeGenerator3AC)
  : Result GenExn CodeGenerator3AC :=
  Ok (snd (visit_expr value g)).

Definition visit_assign (targets : list Expr) (value : Expr)
           (g : CodeGenerator3AC) : Result GenExn CodeGenerator3AC :=
  let '(value_place, g) := visit_expr value g in
  match targets with
  | [] => Ok g
  | target :: _ =>
      and_then (get_lvalue_place target g) (fun '(target_place, g) =>
      Ok (emit "=" (Some value_place) None (Some target_place) None None g))
  end.

Definition visit_augassign (target : Expr) (op : string) (value : Expr)
           (g : CodeGenerator3AC) : Result GenExn CodeGenerator3AC :=
  and_then (get_lvalue_place target g) (fun '(target_place, g) =>
  let '(right_place, g) := visit_expr value g in
  let op_base := remove_char "=" op in
  let '(t, g) := new_temp g in
  let g := emit op_base (Some target_place) (Some right_place) (Some t)
             None None g in
  Ok (emit "=" (Some t) None (Some target_place) None None g)).

Definition visit_return (value : option Expr) (g : CodeGenerator3AC)
  : Result GenExn CodeGenerator3AC :=
  match value with
  | Some value =>
      let '(value_place, g) := visit_expr value g in
      Ok (emit "return" (Some value_place) None None None None g)
  | None => Ok (emit "return" None None None None None g)
  end.

Definition visit_break (g : CodeGenerator3AC) : Result GenExn CodeGenerator3AC :=
  match break_stack g with
  | [] => Ok (emit "goto" None None (Some "__INVALID_BREAK__") None None g)
  | end_label :: _ => Ok (emit "goto" None None (Some end_label) None None g)
  end.

Definition visit_continue (g : CodeGenerator3AC)
  : Result GenExn CodeGenerator3AC :=
  match continue_stack g with
  | [] => Ok (emit "goto" None None (Some "__INVALID_CONTINUE__") None None g)
  | cont_label :: _ => Ok (emit "goto" None None (Some cont_label) None None g)
  end.

(** [for arg in node.args.args: self.emit("param", arg1=arg.name, ...)] *)
Fixpoint emit_formals (args : list Arg) (g : CodeGenerator3AC)
  : CodeGenerator3AC :=
  match args with
  | [] => g
  | arg :: rest =>
      emit_formals rest
        (emit "param" (Some (arg_name arg)) None None None (Some "func param") g)
  end.

(** The visitors of the compound statements take the visitor of the
    statements of their bodies, which [visit_stmt] below
    instantiates with itself. *)
Section StmtVisitors.
Variable visit : Stmt -> CodeGenerator3AC -> Result GenExn CodeGenerator3AC.

Definition visit_if (test : Expr) (body orelse : list Stmt)
           (g : CodeGenerator3AC) : Result GenExn CodeGenerator3AC :=
  let '(cond_place, g) := visit_expr test g in
  let '(label_else, g) := new_label "L_else_" g in
  let '(label_end, g) := new_label "L_end_if_" g in
  let g := emit "if_false_goto" (Some cond_place) None (Some label_else)
             None None g in
  and_then (for_each visit body g) (fun g =>
  let g := match orelse with
           | [] => g
           | _ :: _ => emit "goto" None None (Some label_end) None None g
           end in
  let g := emit_label label_else g in
  and_then (for_each visit orelse g) (fun g =>
  match orelse with
  | [] => Ok g
  | _ :: _ => Ok (emit_label label_end g)
  end)).

Definition visit_while (test : Expr) (body : list Stmt)
           (g : CodeGenerator3AC) : Result GenExn CodeGenerator3AC :=
  let '(label_start, g) := new_label "L_while_start_" g in
  let '(label_end, g) := new_label "L_while_end_" g in
  let g := push_loop label_start label_end g in
  let g := emit_label label_start g in
  let '(cond_place, g) := visit_expr test g in
  let g := emit "if_false_goto" (Some cond_place) None (Some label_end)
             None None g in
  and_then (for_each visit body g) (fun g =>
  let g := emit "goto" None None (Some label_start) None None g in
  let g := emit_label label_end g in
  Ok (pop_loop g)).

Definition visit_for (target iter : Expr) (body : list Stmt)
           (g : CodeGenerator3AC) : Result GenExn CodeGenerator3AC :=
  let '(iter_place, g) := visit_expr iter g in
  let '(idx, g) := new_temp g in
  let '(length, g) := new_temp g in
  let g := emit "=" (Some "0") None (Some idx) None (Some "for index") g in
  let g := emit "len" (Some iter_place) None (Some length) None
             (Some "len(iter)") g in
  let '(label_start, g) := new_label "L_for_start_" g in
  let '(label_end, g) := new_label "L_for_end_" g in
  let g := push_loop label_start label_end g in
  let g := emit_label label_start g in
  let '(cond, g) := new_temp g in
  let g := emit "<" (Some idx) (Some length) (Some cond) None None g in
  let g := emit "if_false_goto" (Some cond) None (Some label_end)
             None None g in
  let '(value_temp, g) := new_temp g in
  let g := emit "load_index" (Some iter_place) (Some idx) (Some value_temp)
             None None g in
  and_then (get_lvalue_place target g) (fun '(target_place, g) =>
  let g := emit "=" (Some value_temp) None (Some target_place) None None g in
  and_then (for_each visit body g) (fun g =>
  let '(t, g) := new_temp g in
  let g := emit "+" (Some idx) (Some "1") (Some t) None None g in
  let g := emit "=" (Some t) None (Some idx) None None g in
  let g := emit "goto" None None (Some label_start) None None g in
  let g := emit_label label_end g in
  Ok (pop_loop g))).

Definition visit_functiondef (func_name : string) (args : ArgumentsNode)
           (body : list Stmt) (g : CodeGenerator3AC)
  : Result GenExn CodeGenerator3AC :=
  let g := emit "func_begin" None None (Some func_name) None None g in
  let g := emit_formals (arguments_args args) g in
  and_then (for_each visit body g) (fun g =>
  let g := emit "return" None None None None (Some "implicit return") g in
  Ok (emit "func_end" None None (Some func_name) None None g)).
End StmtVisitors.

Fixpoint visit_stmt (node : Stmt) (g : CodeGenerator3AC) {struct node}
  : Result GenExn CodeGenerator3AC :=
  match node with
  | ExprStmt value => visit_exprstmt value g
  | Assign targets value => visit_assign targets value g
  | AugAssign target op value => visit_augassign target op value g
  | Return value => visit_return value g
  | Pass => Ok g
  | Break => visit_break g
  | Continue => visit_continue g
  | If test body orelse => visit_if visit_stmt test body orelse g
  | While test body orelse => visit_while visit_stmt test body g
  | For target iter body orelse => visit_for visit_stmt target iter body g
  | FunctionDef func_name args body returns decorators =>
      visit_functiondef visit_stmt func_name args body g
  end.

Definition visit_program (node : Program) (g : CodeGenerator3AC)
  : Result GenExn CodeGenerator3AC :=
  match node with
  | mkProgram body => for_each visit_stmt body g
  end.

(** The method [generate]. *)
Definition generate (program : Program) (g : CodeGenerator3AC)
  : Result GenExn (list TACInstr * CodeGenerator3AC) :=
  match visit_program program g with
  | Ok g => Ok (code g, g)
  | Raise e => Raise e
  | OutOfFuel => OutOfFuel
  end.

(** [generate_3ac(program)] *)
Definition generate_3ac (program : Program) : Result GenExn (list TACInstr) :=
  match generate program init with
  | Ok (tac, _) => Ok tac
  | Raise e => Raise e
  | OutOfFuel => OutOfFuel
  end.

End WithRepr.

End codegen3ac.


(** ** main.py *)

Module main.
Import astnodes.

(** The stage that raised. *)
Inductive Failure : Type :=
| LexFailure (e : lexer.LexExn)
| ParseFailure (e : parser.ParseExn)
| GenFailure (e : codegen3ac.GenExn).

(** Steps 1 and 2 of [run_pipeline]: the lexer, then the parser on its
    tokens. [fuel] bounds the depth of the recursive descent; an answer
    other than [OutOfFuel] is the same for every larger fuel
    ([front_end_mono] below). *)
Definition front_end (fuel : nat) (source : string) : Result Failure Program :=
  match lexer.lex source with
  | Ok tokens =>
      match parser.parse_tokens fuel tokens with
      | Ok program => Ok program
      | Raise e => Raise (ParseFailure e)
      | OutOfFuel => OutOfFuel
      end
  | Raise e => Raise (LexFailure e)
  | OutOfFuel => OutOfFuel
  end.

(** [run_pipeline]: all three steps; the answer is the 3AC that the
    driver prints. *)
Definition run_pipeline (repr_float repr_str : string -> string)
           (fuel : nat) (source : string)
  : Result Failure (list codegen3ac.TACInstr) :=
  match front_end fuel source with
  | Ok program =>
      match codegen3ac.generate_3ac repr_float repr_str program with
      | Ok tac => Ok tac
      | Raise e => Raise (GenFailure e)
      | OutOfFuel => OutOfFuel
      end
  | Raise e => Raise e
  | OutOfFuel => OutOfFuel
  end.

End main.

(** * Vocabulary of the properties *)

Section LexerVocabulary.
Import pystr tokens lexer.

(** Number of tokens of a given type in a token sequence. *)
Fixpoint count_type (t : TokenType) (toks : list Token) : nat :=
  match toks with
  | [] => 0
  | tok :: toks' => (if type_is tok t then 1 else 0) + count_type t toks'
  end.

(** A token that is neither INDENT nor DEDENT. *)
Definition plain (tok : Token) : Prop :=
  type_is tok TT_INDENT = false /\ type_is tok TT_DEDENT = false.

(** The unread text of [lx'] is no longer than that of [lx]. *)
Definition no_longer (lx' lx : Lexer) : Prop :=
  String.length (rest lx') <= String.length (rest lx).

(** The unread text of [lx'] is shorter than that of [lx]. *)
Definition shorter (lx' lx : Lexer) : Prop :=
  String.length (rest lx') < String.length (rest lx).

(** [moved lx' lx]: [lx'] is [lx] with the cursor further on. *)
Definition moved (lx' lx : Lexer) : Prop :=
  indent_stack lx' = indent_stack lx /\ no_longer lx' lx.

(** The stack is some levels above the base level 0, and there are as
    many more INDENTs than DEDENTs as there are levels above the base. *)
Definition balanced (stack : list nat) (toks : list Token) : Prop :=
  exists above : list nat,
    stack = above ++ [0] /\
    count_type TT_INDENT toks = count_type TT_DEDENT toks + length above.

(** A short indented program and what the lexer makes of it. *)
Definition indented_sample : string :=
  "if x:" +:+ String LF "    y" +:+ String LF "".

Definition indented_sample_lexer : Lexer :=
  Eval vm_compute in
    match tokenize (init indented_sample) with
    | Ok (lx, _) => lx
    | _ => init ""
    end.

Definition indented_sample_tokens : list Token :=
  Eval vm_compute in
    match tokenize (init indented_sample) with
    | Ok (_, toks) => toks
    | _ => []
    end.

(** What follows the exponent mark: an optional sign, skipped. *)
Definition sign_width (s : string) : nat :=
  match s with
  | String sg _ => if Ascii.eqb sg "+" || Ascii.eqb sg "-" then 1 else 0
  | EmptyString => 0
  end.

Definition first_after_sign (s : string) : option ascii :=
  String.get (sign_width s) s.

(** What follows the optional sign of an exponent. *)
Definition after_sign (s : string) : string :=
  match s with
  | String sg s' => if Ascii.eqb sg "+" || Ascii.eqb sg "-" then s' else s
  | EmptyString => s
  end.

(** The exponent read after the mark: the optional sign and the digits
    that follow it. *)
Definition exponent_text (s : string) : string :=
  substring 0 (sign_width s) s +:+ span isdigit (after_sign s).

End LexerVocabulary.

Section ParserVocabulary.
Import pystr tokens symtable astnodes parser.

Variable toks : list Token.

(** [m'] answers as [m] does from every state in which [m] answers
    without exhausting its fuel. *)
Definition refines {A : Type} (m m' : M A) : Prop :=
  forall p r, m p = r -> r <> OutOfFuel -> m' p = r.

(** [n] occurs at least twice in [names]. *)
Definition duplicated (n : string) (names : list string) : Prop :=
  exists l1 l2 l3, names = l1 ++ n :: l2 ++ n :: l3.

(** [m] returns [a] from some state of the parser. *)
Definition produced {A : Type} (m : M A) (a : A) : Prop :=
  exists p p', m p = Ok (a, p').

(** The fault names the scope of a function whose name is a NAME token
    of the input, and a name that occurs twice in a parameter list
    read from the input by [parse_parameters]. *)
Definition from_duplicate_parameter (scope nm : string) : Prop :=
  exists (name_tok : Token) (params : list Arg),
    In name_tok toks /\
    type name_tok = TT_NAME /\
    scope = "func " +:+ str_value name_tok /\
    (exists fuel, produced (parse_parameters toks fuel) params) /\
    duplicated nm (map arg_name params).

(** Every redeclaration fault raised by [m] comes from a duplicate
    parameter. *)
Definition safe {A : Type} (m : M A) : Prop :=
  forall p scope nm,
    m p = Raise (SymbolError (Redeclared scope nm)) ->
    from_duplicate_parameter scope nm.

End ParserVocabulary.

Section GeneratorVocabulary.
Import pystr astnodes codegen3ac.

(** The name of the [k]-th temporary. *)
Definition temp_name (k : nat) : string := "t" +:+ pretty k.


Definition chained_comparison_source : string := "a < b < c".

Definition chained_comparison_node : Expr :=
  Compare (Name "a") ["<"; "<"] [Name "b"; Name "c"].



Definition function_source : string :=
  "def f(a, b):" +:+ String LF "    return a + b" +:+ String LF "".

Definition function_node : Stmt :=
  FunctionDef "f" (mkArguments [mkArg "a" None None; mkArg "b" None None])
    [Return (Some (BinOp (Name "a") "+" (Name "b")))] None [].

End GeneratorVocabulary.

Section ScopeVocabulary.
Import pystr tokens.

Definition duplicate_parameter_source : string :=
  "def f(a, a):" +:+ String LF "    pass" +:+ String LF "".

Definition duplicate_parameter_tokens : list Token :=
  Eval vm_compute in
    match lexer.lex duplicate_parameter_source with
    | Ok toks => toks
    | _ => []
    end.

Definition shadowing_source : string :=
  "a = 1" +:+ String LF "def f(a):" +:+ String LF "    return a" +:+ String LF "".

Definition reassignment_source : string :=
  "x = 1" +:+ String LF "x = 2" +:+ String LF "".

Definition redefinition_source : string :=
  "def f():" +:+ String LF "    pass" +:+ String LF
  "def f():" +:+ String LF "    pass" +:+ String LF "".

(** A scope that already holds the name [a]. *)
Definition scope_with_a : symtable.SymbolTable :=
  symtable.mkSymbolTable "global"
    (<["a" := symtable.mkSymbolEntry "a" "variable" "unknown" "global" None]> ∅).

End ScopeVocabulary.
Section LexerVocabulary2.
Import pystr tokens lexer.

(** The cursor of the lexer is at a 1-based position. *)
Definition placed (lx : Lexer) : Prop := 1 <= lexer.line lx /\ 1 <= col lx.

(** Every character of [s] satisfies [p]. *)
Fixpoint all_chars (p : ascii -> bool) (s : string) : bool :=
  match s with
  | String c s' => p c && all_chars p s'
  | EmptyString => true
  end.

(** An identifier: a letter or an underscore, then letters, digits and
    underscores. *)
Definition is_identifier (w : string) : bool :=
  match w with
  | String c _ => (isalpha c || Ascii.eqb c "_") && all_chars is_ident_char w
  | EmptyString => false
  end.

(** The lexeme of an operator or punctuation token of type [t] is [s],
    by one of the two tables of [_operator_or_punct]. *)
Definition operator_lexeme (s : string) (t : TokenType) : Prop :=
  In (s, t) multi_ops \/
  exists ch, s = String ch EmptyString /\ In (ch, t) single_map.

(** What the lexer puts in a token of each type. *)
Definition token_shape (tok : Token) : Prop :=
  match type tok with
  | TT_NAME => exists ident, value tok = VStr ident /\ is_identifier ident = true
  | TT_NUMBER => exists literal, value tok = VFloat literal /\ float_ok literal = true
  | TT_STRING => exists s, value tok = VStr s
  | TT_TYPE_COMMENT => exists s, value tok = VStr s /\ startswith "type:" s = true
  | TT_NEWLINE => value tok = VStr (String LF EmptyString)
  | TT_INDENT | TT_DEDENT | TT_ENDMARKER => value tok = VNone
  | TT_FSTRING_START | TT_FSTRING_MIDDLE | TT_FSTRING_END
  | TT_TSTRING_START | TT_TSTRING_MIDDLE | TT_TSTRING_END
  | TT_ELLIPSIS => False
  | t => exists s, value tok = VStr s /\ operator_lexeme s t
  end.

(** A token as the lexer builds it: of the shape of its type, at a
    1-based position. *)
Definition token_ok (tok : Token) : Prop :=
  token_shape tok /\ 1 <= tokens.line tok /\ 1 <= column tok.

(** A fault of the lexer proper: a [LexerError] at a 1-based position. *)
Definition lexer_fault (e : LexExn) : Prop :=
  exists message ln cl, e = LexerError message ln cl /\ 1 <= ln /\ 1 <= cl.

(** A token of the main loop: as the lexer builds it, and not the
    end-of-stream sentinel. *)
Definition loop_token (tok : Token) : Prop :=
  token_ok tok /\ type tok <> TT_ENDMARKER.

(** The invariant of the main loop. *)
Definition loop_invariant (lx : Lexer) (toks : list Token) : Prop :=
  balanced (indent_stack lx) toks /\ placed lx /\ Forall loop_token toks.

(** A character of the body of a string literal that the loop of
    [_string_literal] copies as it is. *)
Definition plain_char (quote ch : ascii) : bool :=
  negb (Ascii.eqb ch "\") && negb (Ascii.eqb ch quote) && negb (Ascii.eqb ch LF).

End LexerVocabulary2.

Section ScopeVocabulary2.
Import symtable.

(** A declaration: name, kind and type, as the arguments of [define]. *)
Definition Declaration : Type := string * string * string.

Definition declared_name (d : Declaration) : string := fst (fst d).

(** [for (name, kind, typ) in decls: stack.define(name, kind, typ)] *)
Fixpoint define_all (stack : SymbolTableStack) (decls : list Declaration)
  : Result RuntimeError SymbolTableStack :=
  match decls with
  | [] => Ok stack
  | (nm, kd, ty) :: decls' =>
      match define stack nm kd ty with
      | Ok (_, stack) => define_all stack decls'
      | Raise e => Raise e
      | OutOfFuel => OutOfFuel
      end
  end.

(** The entries of a table are filed under their own names and carry
    the name of the table. *)
Definition table_filed (table : SymbolTable) : Prop :=
  forall nm entry,
    entries table !! nm = Some entry ->
    name entry = nm /\ entry_scope_name entry = scope_name table /\
    offset entry = None.

End ScopeVocabulary2.

Section ParserVocabulary2.
Import pystr tokens symtable astnodes parser.

Variable toks : list Token.

(** The last token of the stream is the end-of-stream sentinel, as in
    every stream that the lexer returns. *)
Definition ends_with_endmarker : Prop :=
  type (List.last toks no_token) = TT_ENDMARKER.

(** The tokens between the cursor and the last token. *)
Definition remaining (p : Parser) : nat := length toks - 1 - pos p.

(** The parser object between two calls: the cursor is on a token and
    a scope is open. *)
Definition ready (p : Parser) : Prop :=
  pos p < length toks /\ symstack p <> [].

(** [stack'] is [stack] with more entries in its current scope, and
    nothing else changed. *)
Definition grown (stack stack' : SymbolTableStack) : Prop :=
  match stack, stack' with
  | table :: below, table' :: below' =>
      below' = below /\ scope_name table' = scope_name table /\
      entries table ⊆ entries table'
  | _, _ => False
  end.

(** The faults of a parse: a syntax error at a token of the stream, or
    a redeclaration. *)
Definition parse_fault (e : ParseExn) : Prop :=
  match e with
  | ParserError _ tok => In tok toks
  | SymbolError (Redeclared _ _) => True
  | _ => False
  end.

(** From [p] the method [m] answers within its fuel: it returns a
    value and a parser object that satisfy [Q], or raises a fault of a
    parse. *)
Definition runs {A : Type} (p : Parser) (m : M A) (Q : A -> Parser -> Prop)
  : Prop :=
  match m p with
  | Ok (a, p') => Q a p'
  | Raise e => parse_fault e
  | OutOfFuel => False
  end.

(** A fuel that lets a method of call depth [rank] answer from [p]. *)
Definition fuel_for (rank : nat) (p : Parser) : nat := 16 * remaining p + rank.

(** The parser object after a method that reads expressions: the
    cursor has moved on and the scopes are untouched. *)
Definition read_on {A : Type} (p : Parser) (_ : A) (p' : Parser) : Prop :=
  ready p' /\ pos p < pos p' /\ symstack p' = symstack p.

(** The same after a loop, which may read nothing. *)
Definition read_some {A : Type} (p : Parser) (_ : A) (p' : Parser) : Prop :=
  ready p' /\ pos p <= pos p' /\ symstack p' = symstack p.

(** The parser object after a method that reads statements: the cursor
    has moved on and the current scope may have new entries. *)
Definition stated {A : Type} (p : Parser) (_ : A) (p' : Parser) : Prop :=
  ready p' /\ pos p < pos p' /\ grown (symstack p) (symstack p').

(** The same after a loop, which may read nothing. *)
Definition stated_some {A : Type} (p : Parser) (_ : A) (p' : Parser) : Prop :=
  ready p' /\ pos p <= pos p' /\ grown (symstack p) (symstack p').

End ParserVocabulary2.

Section TreeVocabulary.
Import pystr tokens symtable astnodes parser.

(** [m] returns values that satisfy [Q] only. *)
Definition gives {A : Type} (m : M A) (Q : A -> Prop) : Prop :=
  forall p a p', m p = Ok (a, p') -> Q a.

(** The operators that the parser writes in a [BinOp], in a [UnaryOp]
    and in a [BoolOp]. *)
Definition binary_operators : list string := ["+"; "-"; "*"; "/"; "//"; "%"; "**"].
Definition unary_operators : list string := ["not"; "+"; "-"; "~"].
Definition boolean_operators : list string := ["and"; "or"].

Definition one_of (names : list string) (nm : string) : bool :=
  existsb (String.eqb nm) names.

(** The targets that [_ensure_assignable] lets through. *)
Definition assignable (e : Expr) : bool :=
  match e with
  | Name _ | Attribute _ _ | Subscript _ _ => true
  | _ => false
  end.

(** The expressions that the parser builds: operators of its tables, a
    [BoolOp] of two operands at least, a [Compare] with as many
    operators as comparators and one at least, and a [Subscript] by one
    index. *)
Fixpoint expr_built (e : Expr) : bool :=
  match e with
  | Name _ | Num _ | Str _ | Bool _ | NoneLiteral => true
  | BinOp left_expr op right_expr =>
      one_of binary_operators op && expr_built left_expr && expr_built right_expr
  | UnaryOp op operand => one_of unary_operators op && expr_built operand
  | BoolOp op values =>
      one_of boolean_operators op && (2 <=? length values)
      && forallb expr_built values
  | Compare left_expr ops comparators =>
      expr_built left_expr && (1 <=? length ops)
      && (length ops =? length comparators)
      && forallb (one_of (map snd compare_mapping)) ops
      && forallb expr_built comparators
  | Call func args keywords =>
      expr_built func && forallb expr_built args
      && forallb (fun kw => match kw with KeywordArg _ value => expr_built value end)
           keywords
  | Attribute value _ => expr_built value
  | Subscript value (Slice (Some index) None None) =>
      expr_built value && expr_built index
  | Subscript _ _ => false
  end.

Definition keyword_built (kw : KeywordArgOf Expr) : bool :=
  match kw with KeywordArg _ value => expr_built value end.

(** A parameter as [parse_parameters] builds it: a bare name. *)
Definition arg_built (a : Arg) : bool :=
  match a with
  | mkArg _ None None => true
  | _ => false
  end.

(** The statements that the parser builds: one assignable target in an
    assignment, an operator of [augassign_ops] in an augmented
    assignment, and a function definition without return annotation
    and decorators, with bare parameters. *)
Fixpoint stmt_built (s : Stmt) : bool :=
  match s with
  | ExprStmt value => expr_built value
  | Assign [target] value =>
      assignable target && expr_built target && expr_built value
  | Assign _ _ => false
  | AugAssign target op value =>
      assignable target && expr_built target
      && one_of (map snd augassign_ops) op && expr_built value
  | Return (Some value) => expr_built value
  | Return None | Pass | Break | Continue => true
  | If test body orelse =>
      expr_built test && forallb stmt_built body && forallb stmt_built orelse
  | While test body orelse =>
      expr_built test && forallb stmt_built body && forallb stmt_built orelse
  | For target iter body orelse =>
      expr_built target && expr_built iter
      && forallb stmt_built body && forallb stmt_built orelse
  | FunctionDef _ (mkArguments args) body None [] =>
      forallb arg_built args && forallb stmt_built body
  | FunctionDef _ _ _ _ _ => false
  end.

Definition program_built (program : Program) : bool :=
  match program with mkProgram body => forallb stmt_built body end.

(** The operators and the comparators that the loop of
    [parse_comparison] has read so far. *)
Definition comparison_built (read : list string * list Expr) : Prop :=
  length (fst read) = length (snd read) /\
  forallb (one_of (map snd compare_mapping)) (fst read) = true /\
  forallb expr_built (snd read) = true.

Definition arglist_built (read : list Expr * list (KeywordArgOf Expr)) : Prop :=
  forallb expr_built (fst read) = true /\
  forallb keyword_built (snd read) = true.

Definition built (e : Expr) : Prop := expr_built e = true.

Definition stmt_ok (s : Stmt) : Prop := stmt_built s = true.

Definition block_built (stmts : list Stmt) : Prop :=
  forallb stmt_built stmts = true.

Definition params_built (params : list Arg) : Prop :=
  forallb arg_built params = true.

End TreeVocabulary.

Section GeneratorVocabulary2.
Import pystr astnodes codegen3ac.

(** The places that a run of instructions assigns, in order. *)
Definition assigned (instrs : list TACInstr) : list string :=
  omap result instrs.

(** [g'] is [g] after straight-line code: instructions were appended,
    none of them carries a label, the temporaries that they assign are
    the next ones in order, each assigned once, and the label counter
    and the loop stacks are as before. *)
Definition straight_line (g g' : CodeGenerator3AC) : Prop :=
  exists new,
    code g' = code g ++ new /\
    label_count g' = label_count g /\
    break_stack g' = break_stack g /\
    continue_stack g' = continue_stack g /\
    Forall (fun instr => label instr = None) new /\
    temp_count g <= temp_count g' /\
    assigned new
      = map temp_name (seq (S (temp_count g)) (temp_count g' - temp_count g)).

(** The lowering of [e] is straight-line code, from every state of
    the generator. *)
Definition lowers (repr_float repr_str : string -> string) (e : Expr) : Prop :=
  forall g, straight_line g (snd (visit_expr repr_float repr_str e g)).

(** [g'] is [g] after a statement: instructions were appended, no
    counter went back, and the loop stacks are as before. *)
Definition extended (g g' : CodeGenerator3AC) : Prop :=
  (exists new, code g' = code g ++ new) /\
  temp_count g <= temp_count g' /\
  label_count g <= label_count g' /\
  break_stack g' = break_stack g /\
  continue_stack g' = continue_stack g.

(** The targets that the generator hands to [get_lvalue_place] are
    names, attributes or subscripts. These targets are the first
    target of an [Assign] (the others are not read, and an [Assign]
    without target has none), the target of an [AugAssign] and the
    target of a [For], in the statement itself and in the statements
    that the generator visits below it: both branches of an [If], the
    body of a [While], of a [For] and of a [FunctionDef]. The [else]
    part of a [While] or [For] is not visited, so nothing in it
    counts. *)
Fixpoint stmt_supported (s : Stmt) : bool :=
  match s with
  | Assign (target :: _) _ => assignable target
  | AugAssign target _ _ => assignable target
  | If _ body orelse =>
      forallb stmt_supported body && forallb stmt_supported orelse
  | While _ body _ => forallb stmt_supported body
  | For target _ body _ => assignable target && forallb stmt_supported body
  | FunctionDef _ _ body _ _ => forallb stmt_supported body
  | _ => true
  end.

(** The answer of [visit_stmt] on a statement, from every state: it
    returns on the supported ones and raises on the others. *)
Definition answers (repr_float repr_str : string -> string) (s : Stmt) : Prop :=
  forall g,
    match visit_stmt repr_float repr_str s g with
    | Ok _ => stmt_supported s = true
    | Raise NotImplementedError => stmt_supported s = false
    | OutOfFuel => False
    end.

(** The targets of the [For] loops that the generator visits are
    names, attributes or subscripts: the loops of the statement
    itself, of both branches of an [If] and of the body of a [While],
    [For] or [FunctionDef], not those of the [else] part of a loop. *)
Fixpoint for_targets_assignable (s : Stmt) : bool :=
  match s with
  | If _ body orelse =>
      forallb for_targets_assignable body && forallb for_targets_assignable orelse
  | While _ body _ => forallb for_targets_assignable body
  | For target _ body _ =>
      assignable target && forallb for_targets_assignable body
  | FunctionDef _ _ body _ _ => forallb for_targets_assignable body
  | _ => true
  end.

Definition program_supported (program : Program) : bool :=
  match program with mkProgram body => forallb stmt_supported body end.

(** An operator that is no jump. *)
Definition no_jump (o : string) : bool :=
  negb (String.eqb o "goto" || String.eqb o "if_false_goto").

(** The label that an instruction jumps to. *)
Definition jump_target (instr : TACInstr) : option string :=
  if String.eqb (op instr) "goto" || String.eqb (op instr) "if_false_goto"
  then result instr
  else None.

Definition jump_targets (instrs : list TACInstr) : list string :=
  omap jump_target instrs.

(** The labels that a run of instructions defines. *)
Definition defined_labels (instrs : list TACInstr) : list string :=
  omap label instrs.

(** The placeholders of [visit_break] and [visit_continue]. *)
Definition sentinel (l : string) : Prop :=
  l = "__INVALID_BREAK__" \/ l = "__INVALID_CONTINUE__".

(** [g'] is [g] after code that jumps nowhere. *)
Definition calm (g g' : CodeGenerator3AC) : Prop :=
  exists new, code g' = code g ++ new /\ jump_targets new = [].

(** Every jump of [new] lands on a label that [new] defines, on a
    label of the enclosing loops, or on a placeholder. *)
Definition lands (new : list TACInstr) (enclosing : list string) : Prop :=
  forall l,
    In l (jump_targets new) ->
    In l (defined_labels new) \/ In l enclosing \/ sentinel l.

(** The lowering of a tree of the parser jumps nowhere. *)
Definition lowers_calmly (repr_float repr_str : string -> string) (e : Expr)
  : Prop :=
  expr_built e = true ->
  forall g, calm g (snd (visit_expr repr_float repr_str e g)).

(** The jumps of the code of a statement of the parser land. *)
Definition lowers_landing (repr_float repr_str : string -> string) (s : Stmt)
  : Prop :=
  stmt_built s = true ->
  forall g g',
    visit_stmt repr_float repr_str s g = Ok g' ->
    exists new,
      code g' = code g ++ new /\
      lands new (break_stack g ++ continue_stack g).

(** The operators that [TACInstr.__str__] prints in a form of their
    own. *)
Definition special_operators : list string :=
  ["label"; "goto"; "if_false_goto"; "return"; "param"; "call";
   "func_begin"; "func_end"].

End GeneratorVocabulary2.

Section Samples.
Import pystr tokens lexer symtable astnodes parser codegen3ac main.

(** Texts, token streams and trees on which the theorems below are
    run. *)
Definition identifier_sample : string := "total_1".

Definition unterminated_sample : string := "'abc".

Definition function_tokens : list Token :=
  Eval vm_compute in
    match lex function_source with
    | Ok toks => toks
    | _ => []
    end.

Definition syntax_error_source : string := "x = )".

Definition syntax_error_tokens : list Token :=
  Eval vm_compute in
    match lex syntax_error_source with
    | Ok toks => toks
    | _ => []
    end.

Definition syntax_error_fault : ParseExn :=
  Eval vm_compute in
    match parse_tokens 64 syntax_error_tokens with
    | Raise e => e
    | _ => KeyError
    end.

Definition newline_token : Token :=
  mkToken TT_NEWLINE (VStr (String LF EmptyString)) 1 1.

Definition loop_node : Stmt := While (Name "x") [Break] [].

Definition loop_generator : CodeGenerator3AC :=
  Eval vm_compute in
    match visit_stmt (fun s => s) (fun s => s) loop_node codegen3ac.init with
    | Ok g => g
    | _ => codegen3ac.init
    end.

Definition loop_source : string :=
  "while x:" +:+ String LF "    break" +:+ String LF "".

Definition loop_code : list TACInstr :=
  Eval vm_compute in
    match run_pipeline (fun s => s) (fun s => s) 64 loop_source with
    | Ok tac => tac
    | _ => []
    end.

Definition literal_target_source : string :=
  "for 1 in x:" +:+ String LF "    pass" +:+ String LF "".

Definition literal_target_body : list Stmt :=
  [For (Num "1") (Name "x") [Pass] []].

Definition literal_target_node : Stmt := For (Num "1") (Name "x") [Pass] [].

(** A loop whose [else] part holds the loop above. *)
Definition loop_else_node : Stmt :=
  While (Name "c") [Pass] [literal_target_node].

Definition loop_else_generator : CodeGenerator3AC :=
  Eval vm_compute in
    match visit_stmt (fun s => s) (fun s => s) loop_else_node codegen3ac.init with
    | Ok g => g
    | _ => codegen3ac.init
    end.

End Samples.

(** * Properties of the lexer *)

Section LexerFacts.
Import pystr tokens lexer.

Lemma count_type_app t (xs ys : list Token) :
  count_type t (xs ++ ys) = count_type t xs + count_type t ys.
Proof. induction xs as [|x xs IH]; simpl; [reflexivity | rewrite IH; lia]. Qed.

Lemma count_type_snoc_plain t (toks : list Token) tok :
  plain tok -> t = TT_INDENT \/ t = TT_DEDENT ->
  count_type t (toks ++ [tok]) = count_type t toks.
Proof.
  intros [Hi Hd] [-> | ->]; rewrite count_type_app; simpl;
    rewrite ?Hi, ?Hd; lia.
Qed.

(** ** The cursor moves, the indentation stack stays *)

Lemma advance_one_stack lx : indent_stack (advance_one lx) = indent_stack lx.
Proof.
  unfold advance_one. destruct (rest lx) as [|ch r]; [reflexivity|].
  destruct (Ascii.eqb ch LF); reflexivity.
Qed.

Lemma advance_stack lx n : indent_stack (_advance lx n) = indent_stack lx.
Proof.
  unfold _advance. induction n as [|n IH]; simpl; [reflexivity|].
  rewrite advance_one_stack. exact IH.
Qed.

Lemma advance_one_rest lx :
  String.length (rest (advance_one lx)) = String.length (rest lx) - 1.
Proof.
  unfold advance_one. destruct (rest lx) as [|ch r] eqn:E; simpl.
  - rewrite E. reflexivity.
  - destruct (Ascii.eqb ch LF); simpl; lia.
Qed.

Lemma advance_rest lx n :
  String.length (rest (_advance lx n)) = String.length (rest lx) - n.
Proof.
  unfold _advance. induction n as [|n IH]; simpl; [lia|].
  rewrite advance_one_rest, IH. lia.
Qed.

Lemma span_head p ch s : p ch = true -> 1 <= String.length (span p (String ch s)).
Proof. intros H. simpl. rewrite H. simpl. lia. Qed.

Lemma advance_no_longer lx n : no_longer (_advance lx n) lx.
Proof. unfold no_longer. rewrite advance_rest. lia. Qed.

Lemma advance_shorter lx n ch :
  current_char lx = Some ch -> 1 <= n -> shorter (_advance lx n) lx.
Proof.
  unfold shorter, current_char. rewrite advance_rest.
  destruct (rest lx); [discriminate|]. simpl. lia.
Qed.

Lemma scan_while_shorter p lx ch :
  current_char lx = Some ch -> p ch = true -> shorter (snd (scan_while p lx)) lx.
Proof.
  intros Hc Hp. unfold scan_while. simpl.
  apply advance_shorter with ch; [exact Hc|].
  unfold current_char in Hc. destruct (rest lx) as [|c r]; [discriminate|].
  injection Hc as ->. apply span_head. exact Hp.
Qed.

Lemma moved_refl lx : moved lx lx.
Proof. split; [reflexivity | unfold no_longer; lia]. Qed.

Lemma moved_trans lx2 lx1 lx : moved lx2 lx1 -> moved lx1 lx -> moved lx2 lx.
Proof. unfold moved, no_longer. intros [-> ?] [-> ?]. split; [reflexivity | lia]. Qed.

Lemma moved_advance lx1 lx n : moved lx1 lx -> moved (_advance lx1 n) lx.
Proof.
  intros H. apply moved_trans with lx1; [|exact H].
  split; [apply advance_stack | apply advance_no_longer].
Qed.

Lemma moved_scan p lx1 lx read lx' :
  scan_while p lx1 = (read, lx') -> moved lx1 lx -> moved lx' lx.
Proof.
  unfold scan_while. intros [= _ <-]. apply moved_advance.
Qed.

Lemma moved_advance_one lx1 lx : moved lx1 lx -> moved (advance_one lx1) lx.
Proof. apply (moved_advance lx1 lx 1). Qed.

Ltac moved_step :=
  first [ apply moved_refl
        | assumption
        | first [apply moved_advance | apply moved_advance_one]; moved_step ].

Ltac moved_tac :=
  lazymatch goal with
  | |- moved _ ?base =>
      repeat match goal with
             | H : scan_while _ ?l = (_, _) |- _ =>
                 apply (moved_scan _ l base) in H; [|solve [moved_step]]
             end;
      moved_step
  end.

(** ** The sub-scanners *)

Lemma number_ok lx tok lx' :
  _number lx = Ok (tok, lx') -> type tok = TT_NUMBER /\ moved lx' lx.
Proof.
  unfold _number. intros H.
  repeat (case_match; simplify_eq); (split; [reflexivity | moved_tac]).
Qed.

Lemma identifier_ok lx tok lx' :
  _identifier_or_keyword lx = (tok, lx') -> type tok = TT_NAME /\ moved lx' lx.
Proof.
  unfold _identifier_or_keyword. intros H.
  repeat (case_match; simplify_eq); (split; [reflexivity | moved_tac]).
Qed.

Lemma string_literal_ok lx tok lx' :
  _string_literal lx = Ok (tok, lx') -> type tok = TT_STRING /\ moved lx' lx.
Proof.
  unfold _string_literal. intros H.
  repeat (case_match; simplify_eq); (split; [reflexivity | moved_tac]).
Qed.

Lemma dict_get_in {K V : Type} (eqb : K -> K -> bool) (d : list (K * V)) k v :
  dict_get eqb d k = Some v -> In v (map snd d).
Proof.
  induction d as [|[k' v'] d IH]; simpl; [discriminate|].
  destruct (eqb k' k); [intros [= ->]; left; reflexivity | right; auto].
Qed.

Lemma multi_ops_plain t :
  In t (map snd multi_ops) ->
  TokenType_beq t TT_INDENT = false /\ TokenType_beq t TT_DEDENT = false.
Proof.
  revert t. apply List.Forall_forall. repeat constructor.
Qed.

Lemma single_map_plain t :
  In t (map snd single_map) ->
  TokenType_beq t TT_INDENT = false /\ TokenType_beq t TT_DEDENT = false.
Proof.
  revert t. apply List.Forall_forall. repeat constructor.
Qed.

Lemma operator_ok lx tok lx' :
  _operator_or_punct lx = Some (tok, lx') -> plain tok /\ moved lx' lx.
Proof.
  unfold _operator_or_punct, plain, type_is. intros H.
  destruct (current_char lx) as [ch|]; [|discriminate].
  cbv zeta in H.
  destruct (dict_get String.eqb multi_ops (_peek_fragment lx 3)) as [t3|] eqn:E3.
  { injection H as <- <-. split; [|moved_tac].
    apply multi_ops_plain. eapply dict_get_in. exact E3. }
  destruct (dict_get String.eqb multi_ops (_peek_fragment lx 2)) as [t2|] eqn:E2.
  { injection H as <- <-. split; [|moved_tac].
    apply multi_ops_plain. eapply dict_get_in. exact E2. }
  destruct (dict_get Ascii.eqb single_map ch) as [t1|] eqn:E1; [|discriminate].
  injection H as <- <-. split; [|moved_tac].
  apply single_map_plain. eapply dict_get_in. exact E1.
Qed.

Lemma handle_comment_ok lx toks lx' toks' :
  _handle_comment lx toks = (lx', toks') ->
  moved lx' lx /\
  count_type TT_INDENT toks' = count_type TT_INDENT toks /\
  count_type TT_DEDENT toks' = count_type TT_DEDENT toks.
Proof.
  unfold _handle_comment. intros H.
  repeat (case_match; simplify_eq);
    (split; [moved_tac | rewrite ?count_type_app; simpl; lia]).
Qed.

(** ** Progress: a round of the main loop consumes text *)

Lemma shorter_moved lx' lx1 lx : shorter lx1 lx -> moved lx' lx1 -> shorter lx' lx.
Proof. unfold shorter, moved, no_longer. intros ? [_ ?]. lia. Qed.

Lemma number_shorter lx tok lx' ch :
  current_char lx = Some ch ->
  isdigit ch || (Ascii.eqb ch "." && is_digit_opt (_peek lx 1)) = true ->
  _number lx = Ok (tok, lx') -> shorter lx' lx.
Proof.
  intros Hc Hd. unfold _number.
  destruct (is_char "." (current_char lx)) eqn:Hdot.
  - intros H. apply shorter_moved with (_advance lx 1).
    { apply advance_shorter with ch; [exact Hc | lia]. }
    repeat (case_match; simplify_eq); moved_tac.
  - assert (Hdig : isdigit ch = true).
    { unfold is_char in Hdot. rewrite Hc in Hdot. rewrite Hdot in Hd.
      simpl in Hd. rewrite orb_false_r in Hd. exact Hd. }
    destruct (scan_while isdigit lx) as [ds lx1] eqn:Hscan.
    assert (Hs : shorter lx1 lx).
    { pose proof (scan_while_shorter isdigit lx ch Hc Hdig) as Hs.
      rewrite Hscan in Hs. exact Hs. }
    intros H. apply shorter_moved with lx1; [exact Hs|].
    repeat (case_match; simplify_eq); moved_tac.
Qed.

Lemma identifier_shorter lx ch :
  current_char lx = Some ch -> isalpha ch || Ascii.eqb ch "_" = true ->
  shorter (snd (_identifier_or_keyword lx)) lx.
Proof.
  intros Hc Hp. unfold _identifier_or_keyword.
  pose proof (scan_while_shorter is_ident_char lx ch Hc) as Hs.
  destruct (scan_while is_ident_char lx) as [ident lx1]. simpl in *.
  apply Hs. unfold is_ident_char, isalnum.
  destruct (isalpha ch); [reflexivity|]. simpl in *. rewrite Hp.
  apply orb_true_r.
Qed.

Lemma string_literal_shorter lx tok lx' ch :
  current_char lx = Some ch -> _string_literal lx = Ok (tok, lx') -> shorter lx' lx.
Proof.
  intros Hc. unfold _string_literal. rewrite Hc. intros H.
  apply shorter_moved with (_advance lx 1).
  { apply advance_shorter with ch; [exact Hc | lia]. }
  repeat (case_match; simplify_eq); moved_tac.
Qed.

Lemma operator_shorter lx tok lx' :
  _operator_or_punct lx = Some (tok, lx') -> shorter lx' lx.
Proof.
  unfold _operator_or_punct. intros H.
  destruct (current_char lx) as [ch|] eqn:Hc; [|discriminate].
  cbv zeta in H.
  destruct (dict_get String.eqb multi_ops (_peek_fragment lx 3));
    [injection H as <- <-; exact (advance_shorter lx 3 ch Hc ltac:(lia))|].
  destruct (dict_get String.eqb multi_ops (_peek_fragment lx 2));
    [injection H as <- <-; exact (advance_shorter lx 2 ch Hc ltac:(lia))|].
  destruct (dict_get Ascii.eqb single_map ch); [|discriminate].
  injection H as <- <-. exact (advance_shorter lx 1 ch Hc ltac:(lia)).
Qed.

Lemma handle_comment_shorter lx toks ch :
  current_char lx = Some ch -> Ascii.eqb ch "#" = true ->
  shorter (fst (_handle_comment lx toks)) lx.
Proof.
  intros Hc Hh. unfold _handle_comment.
  pose proof (scan_while_shorter (fun ch => negb (Ascii.eqb ch LF)) lx ch Hc) as Hs.
  destruct (scan_while _ lx) as [text lx1]. simpl in Hs.
  assert (Hlt : shorter lx1 lx).
  { apply Hs. apply Ascii.eqb_eq in Hh. subst ch. reflexivity. }
  destruct (startswith _ _); exact Hlt.
Qed.

(** ** The indentation stack and the INDENT/DEDENT counts *)

Lemma dedent_loop_balanced indent stack toks ln cl stack' toks' :
  balanced stack toks ->
  dedent_loop indent stack toks ln cl = (stack', toks') ->
  balanced stack' toks'.
Proof.
  intros (above & -> & Hc). revert toks Hc.
  induction above as [|a above IH]; intros toks Hc; simpl.
  - intros [= <- <-]. exists []. auto.
  - destruct (indent <? a).
    + apply IH. rewrite !count_type_app. simpl in *. lia.
    + intros [= <- <-]. exists (a :: above). auto.
Qed.

Lemma handle_line_start_ok lx toks lx' toks' :
  _handle_line_start lx toks = Ok (lx', toks') ->
  balanced (indent_stack lx) toks ->
  balanced (indent_stack lx') toks' /\ no_longer lx' lx.
Proof.
  unfold _handle_line_start. intros H Hb.
  destruct (scan_while is_blank (set_at_line_start false lx)) as [ws lx1] eqn:Hscan.
  assert (Hm : moved lx1 lx).
  { apply (moved_scan _ _ lx) in Hscan; [exact Hscan|].
    split; [reflexivity | unfold no_longer; simpl; lia]. }
  destruct Hm as [Hst Hnl]. rewrite <- Hst in Hb.
  destruct (current_char lx1) as [ch|]; [|injection H as <- <-; auto].
  destruct (Ascii.eqb ch LF || Ascii.eqb ch "#"); [injection H as <- <-; auto|].
  destruct (indent_stack lx1) as [|prev below] eqn:Hstack; [discriminate|].
  destruct (prev <? indent_width ws).
  { injection H as <- <-. split; [|exact Hnl]. simpl.
    destruct Hb as (above & Ha & Hc). exists (indent_width ws :: above).
    split; [simpl; congruence|]. rewrite !count_type_app. simpl. lia. }
  destruct (indent_width ws <? prev); [|injection H as <- <-; rewrite Hstack; auto].
  destruct (dedent_loop _ _ _ _ _) as [stack2 toks2] eqn:Hloop.
  apply dedent_loop_balanced in Hloop; [|exact Hb].
  destruct stack2 as [|top rest2]; [discriminate|].
  destruct (indent_width ws =? top); [|discriminate].
  injection H as <- <-. split; [exact Hloop | exact Hnl].
Qed.

Lemma tokenize_loop_balanced fuel : forall lx toks lx' toks',
  tokenize_loop fuel lx toks = Ok (lx', toks') ->
  balanced (indent_stack lx) toks ->
  balanced (indent_stack lx') toks'.
Proof.
  induction fuel as [|fuel IH]; intros lx toks lx' toks' H Hb; [discriminate|].
  cbn [tokenize_loop] in H. cbv zeta in H.
  destruct (current_char lx); [|injection H as <- <-; exact Hb].
  assert (Hstart : exists lx1 toks1,
             (if at_line_start lx then _handle_line_start lx toks
              else Ok (lx, toks)) = Ok (lx1, toks1) /\
             balanced (indent_stack lx1) toks1).
  { destruct (at_line_start lx).
    - destruct (_handle_line_start lx toks) as [[lx1 toks1]| |] eqn:Hh;
        try discriminate.
      exists lx1, toks1. split; [reflexivity|].
      apply (handle_line_start_ok _ _ _ _ Hh Hb).
    - exists lx, toks. auto. }
  destruct Hstart as (lx1 & toks1 & Hs & Hb1). rewrite Hs in H. clear Hs.
  destruct (current_char lx1) as [ch|]; [|injection H as <- <-; exact Hb1].
  destruct (is_inline_space ch).
  { apply IH in H; [exact H|]. rewrite advance_stack. exact Hb1. }
  destruct (Ascii.eqb ch "#").
  { destruct (_handle_comment lx1 toks1) as [lx2 toks2] eqn:Hc.
    apply IH in H; [exact H|].
    apply handle_comment_ok in Hc. destruct Hc as ([Hst _] & Hi & Hd).
    destruct Hb1 as (above & Ha & Hcnt). exists above.
    split; [congruence | lia]. }
  destruct (Ascii.eqb ch LF).
  { apply IH in H; [exact H|].
    change (indent_stack (set_at_line_start true (_advance lx1 1)))
      with (indent_stack (_advance lx1 1)).
    rewrite advance_stack.
    destruct Hb1 as (above & Ha & Hcnt). exists above.
    split; [exact Ha|]. rewrite !count_type_app. simpl. lia. }
  assert (Hplain : forall tok lx2,
             plain tok -> indent_stack lx2 = indent_stack lx1 ->
             balanced (indent_stack lx2) (toks1 ++ [tok])).
  { intros tok lx2 Hp Hst. destruct Hb1 as (above & Ha & Hcnt). exists above.
    split; [congruence|].
    rewrite !count_type_snoc_plain by auto. exact Hcnt. }
  destruct (isdigit ch || _).
  { destruct (_number lx1) as [[tok lx2]| |] eqn:Hn; try discriminate.
    apply number_ok in Hn. destruct Hn as (Ht & Hst & _).
    apply IH in H; [exact H|]. apply Hplain; [|exact Hst].
    unfold plain, type_is. rewrite Ht. split; reflexivity. }
  destruct (isalpha ch || _).
  { destruct (_identifier_or_keyword lx1) as [tok lx2] eqn:Hn.
    apply identifier_ok in Hn. destruct Hn as (Ht & Hst & _).
    apply IH in H; [exact H|]. apply Hplain; [|exact Hst].
    unfold plain, type_is. rewrite Ht. split; reflexivity. }
  destruct (is_quote ch).
  { destruct (_string_literal lx1) as [[tok lx2]| |] eqn:Hn; try discriminate.
    apply string_literal_ok in Hn. destruct Hn as (Ht & Hst & _).
    apply IH in H; [exact H|]. apply Hplain; [|exact Hst].
    unfold plain, type_is. rewrite Ht. split; reflexivity. }
  destruct (_operator_or_punct lx1) as [[tok lx2]|] eqn:Hn; [|discriminate].
  apply operator_ok in Hn. destruct Hn as (Hp & Hst & _).
  apply IH in H; [exact H|]. apply Hplain; [exact Hp | exact Hst].
Qed.

Lemma flush_dedents_balanced above : forall toks ln cl,
  exists toks',
    flush_dedents (above ++ [0]) toks ln cl = ([0], toks') /\
    count_type TT_INDENT toks' = count_type TT_INDENT toks /\
    count_type TT_DEDENT toks' = count_type TT_DEDENT toks + length above.
Proof.
  induction above as [|a above IH]; intros toks ln cl.
  - exists toks. simpl. auto.
  - simpl. destruct (above ++ [0]) as [|b rest] eqn:E.
    { destruct above; discriminate. }
    destruct (IH (toks ++ [mkToken TT_DEDENT VNone ln cl]) ln cl)
      as (toks' & Hf & Hi & Hd).
    exists toks'. split; [exact Hf|].
    rewrite count_type_app in Hi, Hd. simpl in *. lia.
Qed.

Lemma finish_balanced lx toks lx' toks' :
  balanced (indent_stack lx) toks ->
  finish lx toks = (lx', toks') ->
  indent_stack lx' = [0] /\
  count_type TT_INDENT toks' = count_type TT_DEDENT toks'.
Proof.
  intros (above & Ha & Hc). unfold finish. rewrite Ha.
  set (toks1 := if needs_final_newline toks then _ else toks).
  assert (H1 : count_type TT_INDENT toks1 = count_type TT_INDENT toks /\
               count_type TT_DEDENT toks1 = count_type TT_DEDENT toks).
  { subst toks1. destruct (needs_final_newline toks); [|auto].
    rewrite !count_type_app. simpl. lia. }
  destruct (flush_dedents_balanced above toks1 (line lx) (col lx))
    as (toks2 & -> & Hi & Hd).
  intros [= <- <-]. split; [reflexivity|].
  rewrite !count_type_app. simpl. lia.
Qed.

(** Fuel above the length of the unread text is never exhausted. *)
Lemma tokenize_loop_fuel fuel : forall lx toks,
  String.length (rest lx) < fuel -> tokenize_loop fuel lx toks <> OutOfFuel.
Proof.
  induction fuel as [|fuel IH]; intros lx toks Hlen; [lia|].
  cbn [tokenize_loop]. cbv zeta.
  destruct (current_char lx) as [ch0|] eqn:Hc0; [|discriminate].
  assert (Hstart : (exists e, (if at_line_start lx then _handle_line_start lx toks
                               else Ok (lx, toks)) = Raise e) \/
                   exists lx1 toks1,
                     (if at_line_start lx then _handle_line_start lx toks
                      else Ok (lx, toks)) = Ok (lx1, toks1) /\ no_longer lx1 lx).
  { destruct (at_line_start lx).
    - destruct (_handle_line_start lx toks) as [[lx1 toks1]|e|] eqn:Hh.
      + right. exists lx1, toks1. split; [reflexivity|].
        unfold _handle_line_start in Hh.
        destruct (scan_while is_blank (set_at_line_start false lx))
          as [ws lx2] eqn:Hscan.
        assert (Hm : moved lx2 lx).
        { apply (moved_scan _ _ lx) in Hscan; [exact Hscan|].
          split; [reflexivity | unfold no_longer; simpl; lia]. }
        destruct Hm as [_ Hnl].
        repeat (case_match; simplify_eq); exact Hnl.
      + left. eauto.
      + exfalso. unfold _handle_line_start in Hh.
        repeat (case_match; simplify_eq).
    - right. exists lx, toks. split; [reflexivity | unfold no_longer; lia]. }
  destruct Hstart as [[e ->] | (lx1 & toks1 & -> & Hnl)]; [discriminate|].
  assert (Hgo : forall lx2 toks2, shorter lx2 lx1 ->
                                  tokenize_loop fuel lx2 toks2 <> OutOfFuel).
  { intros lx2 toks2 Hs. apply IH. unfold shorter, no_longer in *. lia. }
  destruct (current_char lx1) as [ch|] eqn:Hc; [|discriminate].
  destruct (is_inline_space ch).
  { apply Hgo. apply advance_shorter with ch; [exact Hc | lia]. }
  destruct (Ascii.eqb ch "#") eqn:Hhash.
  { pose proof (handle_comment_shorter lx1 toks1 ch Hc Hhash) as Hs.
    destruct (_handle_comment lx1 toks1) as [lx2 toks2]. apply Hgo. exact Hs. }
  destruct (Ascii.eqb ch LF).
  { apply Hgo. unfold shorter. simpl.
    apply (advance_shorter lx1 1 ch Hc). lia. }
  destruct (isdigit ch || _) eqn:Hd.
  { destruct (_number lx1) as [[tok lx2]|e|] eqn:Hn; [|discriminate|].
    - apply Hgo. eapply number_shorter; eassumption.
    - exfalso. unfold _number in Hn. repeat (case_match; simplify_eq). }
  destruct (isalpha ch || _) eqn:Hal.
  { pose proof (identifier_shorter lx1 ch Hc Hal) as Hs.
    destruct (_identifier_or_keyword lx1) as [tok lx2]. apply Hgo. exact Hs. }
  destruct (is_quote ch).
  { destruct (_string_literal lx1) as [[tok lx2]|e|] eqn:Hn; [|discriminate|].
    - apply Hgo. eapply string_literal_shorter; eassumption.
    - exfalso. unfold _string_literal in Hn. repeat (case_match; simplify_eq). }
  destruct (_operator_or_punct lx1) as [[tok lx2]|] eqn:Hn; [|discriminate].
  apply Hgo. eapply operator_shorter; eassumption.
Qed.

(** [tokenize] always answers: with the tokens or with an exception. *)
Lemma tokenize_total lx : tokenize lx <> OutOfFuel.
Proof.
  unfold tokenize.
  pose proof (tokenize_loop_fuel (S (String.length (rest lx))) lx []) as H.
  destruct (tokenize_loop _ lx []) as [[lx' toks]| |]; try discriminate.
  exfalso. apply H; [lia | reflexivity].
Qed.

Lemma lex_total text : lex text <> OutOfFuel.
Proof.
  unfold lex. pose proof (tokenize_total (init text)) as H.
  destruct (tokenize (init text)) as [[lx toks]| |]; congruence.
Qed.

End LexerFacts.

(** * The lexer: claims *)

Section LexerClaims.
Import pystr tokens lexer.

(** C8. Whenever the lexer succeeds on a text, the token sequence it
    returns holds as many INDENT tokens as DEDENT tokens, and the
    indentation stack it is left with is the base stack [[0]]. *)
Theorem C8_indent_dedent_balanced (text : string) (lx : Lexer) (toks : list Token) :
  tokenize (init text) = Ok (lx, toks) ->
  count_type TT_INDENT toks = count_type TT_DEDENT toks /\
  indent_stack lx = [0].
Proof.
  unfold tokenize. intros H.
  destruct (tokenize_loop _ (init text) []) as [[lx1 toks1]| |] eqn:Hloop;
    try discriminate.
  injection H as H.
  apply tokenize_loop_balanced in Hloop; [|exists []; split; reflexivity].
  destruct (finish_balanced _ _ _ _ Hloop H) as [Hs Hc]. auto.
Qed.

Lemma C8_indent_dedent_balanced_witness :
  tokenize (init indented_sample)
    = Ok (indented_sample_lexer, indented_sample_tokens) /\
  (count_type TT_INDENT indented_sample_tokens
     = count_type TT_DEDENT indented_sample_tokens /\
   indent_stack indented_sample_lexer = [0]).
Proof.
  split; [vm_compute; reflexivity|].
  apply (C8_indent_dedent_balanced indented_sample).
  vm_compute; reflexivity.
Defined.

Lemma flush_dedents_other t stack : forall toks ln cl,
  TokenType_beq TT_DEDENT t = false ->
  count_type t (snd (flush_dedents stack toks ln cl)) = count_type t toks.
Proof.
  induction stack as [|a stack IH]; intros toks ln cl Ht; [reflexivity|].
  simpl. destruct stack as [|b stack]; [reflexivity|].
  rewrite IH by exact Ht. rewrite count_type_app.
  change (count_type t [mkToken TT_DEDENT VNone ln cl])
    with ((if TokenType_beq TT_DEDENT t then 1 else 0) + 0).
  rewrite Ht. lia.
Qed.

(** C10. Lexing the empty text succeeds with exactly one token, the
    end-of-stream sentinel at line 1, column 1. The closing line-end
    token is not synthesized for an empty token sequence, whatever
    state the lexer is in: finishing with no token produced yields no
    NEWLINE and no INDENT. *)
Theorem C10_empty_text :
  lex "" = Ok [mkToken TT_ENDMARKER VNone 1 1] /\
  needs_final_newline [] = false /\
  (forall lx : Lexer,
      count_type TT_NEWLINE (snd (finish lx [])) = 0 /\
      count_type TT_INDENT (snd (finish lx [])) = 0).
Proof.
  split; [reflexivity|]. split; [reflexivity|].
  intros lx. unfold finish. simpl.
  pose proof (flush_dedents_other TT_NEWLINE (indent_stack lx) []
                (lexer.line lx) (col lx) eq_refl) as Hn.
  pose proof (flush_dedents_other TT_INDENT (indent_stack lx) []
                (lexer.line lx) (col lx) eq_refl) as Hi.
  destruct (flush_dedents _ _ _ _) as [stack toks]. simpl in *.
  rewrite !count_type_app, Hn, Hi. split; reflexivity.
Qed.

(** ** Numbers with a trailing dot *)

Lemma alpha_not_digit c : isalpha c = true -> isdigit c = false.
Proof.
  unfold isalpha, isdigit, between. intros H.
  apply orb_true_iff in H. rewrite !andb_true_iff, !Nat.leb_le in H.
  apply andb_false_iff. rewrite !Nat.leb_gt. lia.
Qed.

Lemma alpha_not_newline c : isalpha c = true -> Ascii.eqb c LF = false.
Proof.
  intros H. apply Ascii.eqb_neq. intros ->. discriminate H.
Qed.

Lemma digit_not_newline c : isdigit c = true -> Ascii.eqb c LF = false.
Proof.
  intros H. apply Ascii.eqb_neq. intros ->. discriminate H.
Qed.

(** The cursor over a run of digits stays on its line. *)
Lemma advance_digits s : forall ln cl stack flag,
  _advance (mkLexer s ln cl stack flag) (String.length (span isdigit s))
    = mkLexer (drop_span isdigit s) ln (cl + String.length (span isdigit s)) stack flag.
Proof.
  induction s as [|d s IH]; intros ln cl stack flag.
  - simpl. rewrite Nat.add_0_r. reflexivity.
  - unfold drop_span. simpl. destruct (isdigit d) eqn:Hd.
    + cbn [String.length]. unfold _advance. rewrite Nat.iter_succ_r.
      unfold advance_one at 2. cbn [rest line col indent_stack at_line_start].
      rewrite (digit_not_newline d Hd).
      fold (_advance (mkLexer s ln (S cl) stack flag) (String.length (span isdigit s))).
      rewrite IH. unfold drop_span. f_equal. lia.
    + simpl. rewrite Nat.add_0_r. reflexivity.
Qed.

Lemma span_span p s : span p (span p s) = span p s.
Proof.
  induction s as [|c s IH]; simpl; [reflexivity|].
  destruct (p c) eqn:Hc; simpl; [rewrite Hc, IH|]; reflexivity.
Qed.

Lemma drop_span_span p s : drop_span p (span p s) = EmptyString.
Proof.
  unfold drop_span. induction s as [|c s IH]; simpl; [reflexivity|].
  destruct (p c) eqn:Hc; simpl; [rewrite Hc; exact IH | reflexivity].
Qed.

Lemma span_digit_head s :
  is_digit_opt (String.get 0 s) = true ->
  exists d ds, span isdigit s = String d ds /\ isdigit d = true.
Proof.
  destruct s as [|d s]; simpl; [discriminate|].
  intros H. rewrite H. eauto.
Qed.

Lemma substring_empty s : substring 0 0 s = EmptyString.
Proof. destruct s; reflexivity. Qed.

(** [float] accepts [1.] followed by an exponent mark, an optional
    sign and digits. *)
Lemma float_ok_exponent c tail :
  isalpha c = true ->
  Ascii.eqb c "e" || Ascii.eqb c "E" = true ->
  is_digit_opt (first_after_sign tail) = true ->
  float_ok ("1." +:+ String c (exponent_text tail)) = true.
Proof.
  intros Ha He Hx. pose proof (alpha_not_digit c Ha) as Hd.
  unfold float_ok, drop_span. simpl. rewrite Hd. simpl. rewrite He.
  unfold exponent_text, first_after_sign, sign_width, after_sign in *.
  destruct tail as [|sg tail']; [discriminate Hx|].
  destruct (Ascii.eqb sg "+" || Ascii.eqb sg "-") eqn:Hsg.
  - cbn [substring]. rewrite substring_empty.
    change (String sg "" +:+ ?s) with (String sg s).
    cbv iota. rewrite Hsg. change (String.get 1 (String sg tail')) with (String.get 0 tail') in Hx.
    destruct (span_digit_head tail' Hx) as (d & ds & Hs & _).
    rewrite span_span, (drop_span_span isdigit tail'), Hs. reflexivity.
  - cbn [substring]. change ("" +:+ ?s) with s.
    destruct (span_digit_head _ Hx) as (d & ds & Hs & Hdd).
    rewrite Hs.
    assert (Hns : Ascii.eqb d "+" || Ascii.eqb d "-" = false).
    { destruct (Ascii.eqb d "+") eqn:E1; [apply Ascii.eqb_eq in E1; subst d; discriminate Hdd|].
      destruct (Ascii.eqb d "-") eqn:E2; [apply Ascii.eqb_eq in E2; subst d; discriminate Hdd|].
      reflexivity. }
    rewrite Hns. rewrite <- Hs.
    rewrite span_span, (drop_span_span isdigit (String sg tail')), Hs. reflexivity.
Qed.

(** C2, as amended. When [1.] is immediately followed by a letter,
    [_number] accepts [1.] as a NUMBER and leaves the letter unread,
    unless the letter is [e] or [E]: then it is read as an exponent
    mark. When no digit follows it (after an optional sign), the
    lexer raises the malformed-exponent fault with the line and column
    of the character at which a digit was expected; when a digit
    follows, there is no fault: the NUMBER token holds the mark, the
    sign and the digits. *)
Theorem C2_trailing_dot_then_letter
        (c : ascii) (tail : string) (ln cl : nat) (stack : list nat) (flag : bool) :
  isalpha c = true ->
  let lx := mkLexer ("1." +:+ String c tail) ln cl stack flag in
  (Ascii.eqb c "e" || Ascii.eqb c "E" = false ->
   _number lx
     = Ok (mkToken TT_NUMBER (VFloat "1.") ln cl,
           mkLexer (String c tail) ln (S (S cl)) stack flag)) /\
  (Ascii.eqb c "e" || Ascii.eqb c "E" = true ->
   is_digit_opt (first_after_sign tail) = false ->
   _number lx
     = Raise (LexerError InvalidExponent ln (S (S (S cl)) + sign_width tail))) /\
  (Ascii.eqb c "e" || Ascii.eqb c "E" = true ->
   is_digit_opt (first_after_sign tail) = true ->
   _number lx
     = Ok (mkToken TT_NUMBER (VFloat ("1." +:+ String c (exponent_text tail))) ln cl,
           mkLexer (drop_span isdigit (after_sign tail)) ln
             (S (S (S cl)) + String.length (exponent_text tail)) stack flag)).
Proof.
  intros Ha lx.
  pose proof (alpha_not_digit c Ha) as Hd.
  pose proof (alpha_not_newline c Ha) as Hn.
  split; [|split].
  - intros He. unfold _number, scan_while, lx. simpl.
    rewrite Hd. simpl. rewrite He. reflexivity.
  - intros He Hx. unfold _number, scan_while, lx. simpl.
    rewrite Hd. simpl. rewrite He. unfold advance_one. simpl. rewrite Hn.
    simpl. unfold first_after_sign, sign_width in *.
    destruct tail as [|sg tail']; simpl in *.
    + rewrite Nat.add_0_r. reflexivity.
    + destruct (Ascii.eqb sg "+" || Ascii.eqb sg "-") eqn:Hsg; simpl in *.
      * unfold advance_one. simpl.
        assert (Hlf : Ascii.eqb sg LF = false).
        { apply orb_true_iff in Hsg. rewrite !Ascii.eqb_eq in Hsg.
          destruct Hsg as [-> | ->]; reflexivity. }
        rewrite Hlf. simpl.
        destruct tail' as [|d tail'']; simpl in *.
        -- rewrite Nat.add_1_r. reflexivity.
        -- rewrite Hx. rewrite Nat.add_1_r. reflexivity.
      * rewrite Hx. rewrite Nat.add_0_r. reflexivity.
  - intros He Hx. pose proof (float_ok_exponent c tail Ha He Hx) as Hf.
    unfold _number, scan_while, lx. simpl.
    rewrite Hd. simpl. rewrite He. unfold advance_one. simpl. rewrite Hn.
    simpl. unfold exponent_text, first_after_sign, sign_width, after_sign in *.
    destruct tail as [|sg tail']; [discriminate Hx|].
    cbn [current_char rest].
    destruct (Ascii.eqb sg "+" || Ascii.eqb sg "-") eqn:Hsg.
    + assert (Hlf : Ascii.eqb sg LF = false).
      { apply orb_true_iff in Hsg. rewrite !Ascii.eqb_eq in Hsg.
        destruct Hsg as [-> | ->]; reflexivity. }
      change (String.get 1 (String sg tail')) with (String.get 0 tail') in Hx.
      cbn [substring] in *. rewrite substring_empty in *.
      change (String sg "" +:+ ?s) with (String sg s) in *.
      unfold _advance at 1. cbn [Nat.iter]. unfold advance_one at 1.
      cbn [rest line col indent_stack at_line_start]. rewrite Hlf.
      replace (is_digit_opt (current_char (mkLexer tail' ln (S (S (S (S cl)))) stack flag)))
        with true by (destruct tail'; [discriminate Hx | symmetry; exact Hx]).
      cbn [rest].
      change (Nat.iter ?n _ ?x) with (_advance x n). rewrite advance_digits.
      match goal with
      | |- context [float_ok ?s] =>
          change s with ("1." +:+ String c (String sg (span isdigit tail')))
      end.
      rewrite Hf. repeat f_equal. cbn [String.length]. lia.
    + cbn [substring] in *. change ("" +:+ ?s) with s in *.
      replace (is_digit_opt (current_char (mkLexer (String sg tail') ln (S (S (S cl))) stack flag)))
        with true by (symmetry; exact Hx).
      cbn [rest]. rewrite advance_digits.
      match goal with
      | |- context [float_ok ?s] =>
          change s with ("1." +:+ String c (span isdigit (String sg tail')))
      end.
      rewrite Hf. repeat f_equal.
Qed.

Lemma C2_trailing_dot_then_letter_witness :
  (isalpha "a" = true /\
   _number (mkLexer "1.a" 1 1 [0] true)
     = Ok (mkToken TT_NUMBER (VFloat "1.") 1 1, mkLexer "a" 1 3 [0] true)) /\
  (isalpha "e" = true /\
   is_digit_opt (first_after_sign "+x") = false /\
   _number (mkLexer "1.e+x" 1 1 [0] true)
     = Raise (LexerError InvalidExponent 1 5)) /\
  (is_digit_opt (first_after_sign "-52 ") = true /\
   _number (mkLexer "1.e-52 " 1 1 [0] true)
     = Ok (mkToken TT_NUMBER (VFloat "1.e-52") 1 1, mkLexer " " 1 7 [0] true)).
Proof.
  split; [|split].
  - split; [reflexivity|].
    exact (proj1 (C2_trailing_dot_then_letter "a" "" 1 1 [0] true eq_refl) eq_refl).
  - split; [reflexivity|]. split; [reflexivity|].
    exact (proj1 (proj2 (C2_trailing_dot_then_letter "e" "+x" 1 1 [0] true eq_refl))
             eq_refl eq_refl).
  - split; [reflexivity|].
    exact (proj2 (proj2 (C2_trailing_dot_then_letter "e" "-52 " 1 1 [0] true eq_refl))
             eq_refl eq_refl).
Defined.

(** C2, as stated, fails: [1.a] is lexed without any fault, as the
    number [1.] followed by the name [a]. *)
Lemma C2_counterexample :
  lex "1.a"
    = Ok [ mkToken TT_NUMBER (VFloat "1.") 1 1;
           mkToken TT_NAME (VStr "a") 1 3;
           mkToken TT_NEWLINE (VStr (String LF "")) 1 4;
           mkToken TT_ENDMARKER VNone 1 4 ] /\
  ~ (exists e, lex "1.a" = Raise e).
Proof.
  split; [vm_compute; reflexivity|].
  intros [e He]. vm_compute in He. discriminate He.
Qed.

End LexerClaims.

(** * The parser *)

Section ParserFacts.
Import pystr tokens symtable astnodes parser.

Variable toks : list Token.

Lemma refines_refl {A : Type} (m : M A) : refines m m.
Proof. intros p r H _. exact H. Qed.

Lemma refines_out_of_fuel {A : Type} (m' : M A) : refines out_of_fuel m'.
Proof. intros p r H Hr. unfold out_of_fuel in H. congruence. Qed.

Lemma refines_bind {A B : Type} (m m' : M A) (k k' : A -> M B) :
  refines m m' -> (forall a, refines (k a) (k' a)) ->
  refines (bind m k) (bind m' k').
Proof.
  intros Hm Hk p r H Hr. unfold bind in *.
  destruct (m p) as [[a p1]|e|] eqn:E.
  - rewrite (Hm p _ E) by discriminate. apply Hk; assumption.
  - rewrite (Hm p _ E) by discriminate. exact H.
  - congruence.
Qed.

Ltac refines_tac :=
  repeat first
    [ assumption
    | apply refines_refl
    | apply refines_out_of_fuel
    | apply refines_bind; [|intros ?]
    | match goal with
      | H : forall _, refines _ _ |- _ => apply H
      | H : forall _ _, refines _ _ |- _ => apply H
      | |- refines (match ?x with _ => _ end) _ => destruct x
      end ].

Lemma parameters_loop_mono fuel : forall params,
  refines (parameters_loop toks fuel params) (parameters_loop toks (S fuel) params).
Proof.
  induction fuel as [|fuel IH]; intros params; [apply refines_out_of_fuel|].
  cbn [parameters_loop]. refines_tac.
Qed.

Lemma expr_mono fuel :
  refines (parse_expression toks fuel) (parse_expression toks (S fuel)) /\
  refines (parse_or toks fuel) (parse_or toks (S fuel)) /\
  (forall node, refines (parse_or_loop toks fuel node)
                        (parse_or_loop toks (S fuel) node)) /\
  refines (parse_and toks fuel) (parse_and toks (S fuel)) /\
  (forall node, refines (parse_and_loop toks fuel node)
                        (parse_and_loop toks (S fuel) node)) /\
  refines (parse_not toks fuel) (parse_not toks (S fuel)) /\
  refines (parse_comparison toks fuel) (parse_comparison toks (S fuel)) /\
  (forall ops comparators,
      refines (parse_comparison_loop toks fuel ops comparators)
              (parse_comparison_loop toks (S fuel) ops comparators)) /\
  refines (parse_arith_expr toks fuel) (parse_arith_expr toks (S fuel)) /\
  (forall node, refines (parse_arith_loop toks fuel node)
                        (parse_arith_loop toks (S fuel) node)) /\
  refines (parse_term toks fuel) (parse_term toks (S fuel)) /\
  (forall node, refines (parse_term_loop toks fuel node)
                        (parse_term_loop toks (S fuel) node)) /\
  refines (parse_factor toks fuel) (parse_factor toks (S fuel)) /\
  refines (parse_power toks fuel) (parse_power toks (S fuel)) /\
  refines (parse_primary toks fuel) (parse_primary toks (S fuel)) /\
  (forall node, refines (parse_primary_loop toks fuel node)
                        (parse_primary_loop toks (S fuel) node)) /\
  refines (parse_arglist toks fuel) (parse_arglist toks (S fuel)) /\
  (forall args keywords,
      refines (parse_arglist_loop toks fuel args keywords)
              (parse_arglist_loop toks (S fuel) args keywords)) /\
  refines (parse_atom toks fuel) (parse_atom toks (S fuel)).
Proof.
  induction fuel as [|fuel IH].
  { repeat split; intros; apply refines_out_of_fuel. }
  destruct IH as (IH1 & IH2 & IH3 & IH4 & IH5 & IH6 & IH7 & IH8 & IH9 & IH10
                  & IH11 & IH12 & IH13 & IH14 & IH15 & IH16 & IH17 & IH18 & IH19).
  repeat split; intros.
  - cbn [parse_expression]. refines_tac.
  - cbn [parse_or]. refines_tac.
  - cbn [parse_or_loop]. refines_tac.
  - cbn [parse_and]. refines_tac.
  - cbn [parse_and_loop]. refines_tac.
  - cbn [parse_not]. refines_tac.
  - cbn [parse_comparison]. refines_tac.
  - cbn [parse_comparison_loop]. refines_tac.
  - cbn [parse_arith_expr]. refines_tac.
  - cbn [parse_arith_loop]. refines_tac.
  - cbn [parse_term]. refines_tac.
  - cbn [parse_term_loop]. refines_tac.
  - cbn [parse_factor]. refines_tac.
  - cbn [parse_power]. refines_tac.
  - cbn [parse_primary]. refines_tac.
  - cbn [parse_primary_loop]. refines_tac.
  - cbn [parse_arglist]. refines_tac.
  - cbn [parse_arglist_loop]. refines_tac.
  - cbn [parse_atom]. refines_tac.
Qed.

Lemma parse_parameters_mono fuel :
  refines (parse_parameters toks fuel) (parse_parameters toks (S fuel)).
Proof.
  unfold parse_parameters. pose proof (parameters_loop_mono fuel).
  refines_tac.
Qed.

Lemma parse_return_stmt_mono fuel :
  refines (parse_return_stmt toks fuel) (parse_return_stmt toks (S fuel)).
Proof.
  destruct fuel as [|fuel]; [apply refines_out_of_fuel|].
  destruct (expr_mono fuel) as (IH1 & _).
  cbn [parse_return_stmt]. refines_tac.
Qed.

Lemma parse_expr_or_assignment_mono fuel :
  refines (parse_expr_or_assignment toks fuel)
          (parse_expr_or_assignment toks (S fuel)).
Proof.
  destruct fuel as [|fuel]; [apply refines_out_of_fuel|].
  destruct (expr_mono fuel) as (IH1 & _).
  cbn [parse_expr_or_assignment]. refines_tac.
Qed.

Lemma parse_simple_stmt_mono fuel :
  refines (parse_simple_stmt toks fuel) (parse_simple_stmt toks (S fuel)).
Proof.
  destruct fuel as [|fuel]; [apply refines_out_of_fuel|].
  pose proof (parse_return_stmt_mono fuel).
  pose proof (parse_expr_or_assignment_mono fuel).
  cbn [parse_simple_stmt]. refines_tac.
Qed.

Lemma stmt_mono fuel :
  refines (parse_statement toks fuel) (parse_statement toks (S fuel)) /\
  refines (parse_if_stmt toks fuel) (parse_if_stmt toks (S fuel)) /\
  refines (parse_if_orelse toks fuel) (parse_if_orelse toks (S fuel)) /\
  refines (parse_while_stmt toks fuel) (parse_while_stmt toks (S fuel)) /\
  refines (parse_for_stmt toks fuel) (parse_for_stmt toks (S fuel)) /\
  refines (parse_function_def toks fuel) (parse_function_def toks (S fuel)) /\
  refines (parse_block toks fuel) (parse_block toks (S fuel)) /\
  (forall stmts, refines (parse_block_loop toks fuel stmts)
                         (parse_block_loop toks (S fuel) stmts)).
Proof.
  induction fuel as [|fuel IH].
  { repeat split; intros; apply refines_out_of_fuel. }
  destruct IH as (IH1 & IH2 & IH3 & IH4 & IH5 & IH6 & IH7 & IH8).
  destruct (expr_mono fuel) as (IHe & _).
  pose proof (parse_simple_stmt_mono fuel).
  pose proof (parse_parameters_mono fuel).
  repeat split; intros.
  - cbn [parse_statement]. refines_tac.
  - cbn [parse_if_stmt]. refines_tac.
  - cbn [parse_if_orelse]. refines_tac.
  - cbn [parse_while_stmt]. refines_tac.
  - cbn [parse_for_stmt]. refines_tac.
  - cbn [parse_function_def]. refines_tac.
  - cbn [parse_block]. refines_tac.
  - cbn [parse_block_loop]. refines_tac.
Qed.

Lemma parse_loop_mono fuel : forall body,
  refines (parse_loop toks fuel body) (parse_loop toks (S fuel) body).
Proof.
  induction fuel as [|fuel IH]; intros body; [apply refines_out_of_fuel|].
  destruct (stmt_mono fuel) as (IHs & _).
  cbn [parse_loop]. refines_tac.
Qed.

Lemma parse_mono_le fuel fuel' :
  fuel <= fuel' -> refines (parse toks fuel) (parse toks fuel').
Proof.
  induction 1 as [|fuel' _ IH]; [apply refines_refl|].
  intros p r H Hr. apply parse_loop_mono; [|exact Hr]. apply IH; assumption.
Qed.

End ParserFacts.

(** More fuel never changes an answer of the parser. *)
Lemma parse_tokens_mono (toks : list tokens.Token) (fuel fuel' : nat)
      (r : Result parser.ParseExn astnodes.Program) :
  parser.parse_tokens fuel toks = r -> r <> OutOfFuel -> fuel <= fuel' ->
  parser.parse_tokens fuel' toks = r.
Proof.
  unfold parser.parse_tokens, parser.run. intros H Hr Hle.
  destruct (parser.init toks) as [p| |]; [|exact H|exact H].
  destruct (parser.parse toks fuel p) as [[prog p']|e|] eqn:E.
  - rewrite (parse_mono_le toks fuel fuel' Hle p _ E); [exact H | discriminate].
  - rewrite (parse_mono_le toks fuel fuel' Hle p _ E); [exact H | discriminate].
  - congruence.
Qed.

(** * Where a redeclaration fault can come from *)

Section Redeclaration.
Import pystr tokens symtable astnodes parser.

Variable toks : list Token.

Lemma safe_ret {A : Type} (a : A) : safe toks (ret a).
Proof. intros p s n H. discriminate H. Qed.

Lemma safe_out_of_fuel {A : Type} : safe toks (@out_of_fuel A).
Proof. intros p s n H. discriminate H. Qed.

Lemma safe_raise_parser {A : Type} msg tok : safe toks (@raise A (ParserError msg tok)).
Proof. intros p s n H. discriminate H. Qed.

Lemma safe_raise_key {A : Type} : safe toks (@raise A KeyError).
Proof. intros p s n H. discriminate H. Qed.

Lemma safe_bind {A B : Type} (m : M A) (k : A -> M B) :
  safe toks m -> (forall a, produced m a -> safe toks (k a)) -> safe toks (bind m k).
Proof.
  intros Hm Hk p s n H. unfold bind in H.
  destruct (m p) as [[a p1]|e|] eqn:E.
  - apply (Hk a) in H; [exact H|]. exists p, p1. exact E.
  - injection H as ->. apply (Hm p). exact E.
  - discriminate H.
Qed.

Lemma safe_current : safe toks (current toks).
Proof. intros p s n H. discriminate H. Qed.

Lemma safe_advance : safe toks (_advance toks).
Proof. intros p s n H. unfold _advance in H. destruct (_ <? _); discriminate H. Qed.

Lemma safe_error {A : Type} msg : safe toks (@_error toks A msg).
Proof. intros p s n H. discriminate H. Qed.

Lemma safe_peek_token k : safe toks (_peek_token toks k).
Proof. intros p s n H. unfold _peek_token in H. destruct (_ <=? _); discriminate H. Qed.

Lemma safe_pop_scope : safe toks pop_scope.
Proof.
  intros p s n H. unfold pop_scope in H.
  destruct (symstack p); simpl in H; discriminate H.
Qed.

(** The guarded registration never raises a redeclaration fault: it
    calls [define] only after [lookup_local] has found nothing. *)
Lemma define_if_absent_no_fault nm kd ty p :
  exists p', define_if_absent nm kd ty p = Ok (tt, p') \/
             define_if_absent nm kd ty p = Raise (SymbolError NoCurrentScope).
Proof.
  unfold define_if_absent, lookup_local, table_define.
  destruct (symstack p) as [|scope below]; [exists p; auto|].
  destruct (entries scope !! nm) eqn:E; rewrite ?E; eexists; left; reflexivity.
Qed.

Lemma safe_define_if_absent nm kd ty : safe toks (define_if_absent nm kd ty).
Proof.
  intros p s n H.
  destruct (define_if_absent_no_fault nm kd ty p) as [p' [E | E]];
    rewrite E in H; discriminate H.
Qed.

(** Registering parameters in one scope: a fault names that scope and
    a parameter that is already in the scope or occurs earlier in the
    list. *)
Lemma define_params_fault params : forall table below p scope nm,
  symstack p = table :: below ->
  define_params params p = Raise (SymbolError (Redeclared scope nm)) ->
  scope = scope_name table /\
  exists l1 l2, map arg_name params = l1 ++ nm :: l2 /\
                (is_Some (entries table !! nm) \/ In nm l1).
Proof.
  induction params as [|arg params IH]; intros table below p scope nm Hs H.
  { discriminate H. }
  cbn [define_params] in H. unfold bind at 1 in H.
  unfold define, symtable.define at 1 in H. rewrite Hs in H.
  unfold table_define in H.
  destruct (entries table !! arg_name arg) as [entry|] eqn:E.
  - injection H as <- <-. split; [reflexivity|].
    exists [], (map arg_name params). split; [reflexivity|].
    left. rewrite E. eauto.
  - eapply IH in H; [|reflexivity]. simpl in H.
    destruct H as (-> & l1 & l2 & Hl & Hin). split; [reflexivity|].
    exists (arg_name arg :: l1), l2. split; [simpl; congruence|].
    destruct Hin as [Hin | Hin]; [|right; right; exact Hin].
    destruct (decide (arg_name arg = nm)) as [-> | Hne].
    + right. left. reflexivity.
    + left. rewrite lookup_insert_ne in Hin by exact Hne. exact Hin.
Qed.

Lemma define_params_fresh_fault params nm_scope p scope nm :
  (push_scope nm_scope ;; define_params params)%method p
    = Raise (SymbolError (Redeclared scope nm)) ->
  scope = nm_scope /\ duplicated nm (map arg_name params).
Proof.
  unfold bind, push_scope. simpl. intros H.
  eapply define_params_fault in H; [|reflexivity]. simpl in H.
  destruct H as (-> & l1 & l2 & Hl & [Hin | Hin]); split; try reflexivity.
  - rewrite lookup_empty in Hin. destruct Hin as [? Hin]. discriminate Hin.
  - apply in_split in Hin. destruct Hin as (l1a & l1b & ->).
    exists l1a, l1b, l2. rewrite Hl, <- app_assoc. reflexivity.
Qed.

Lemma safe_push_define {A : Type} nm_scope params (k : M A) :
  (forall nm, duplicated nm (map arg_name params) ->
              from_duplicate_parameter toks nm_scope nm) ->
  safe toks k ->
  safe toks (push_scope nm_scope ;; define_params params ;; k)%method.
Proof.
  intros Hdup Hk p s n H.
  destruct ((push_scope nm_scope ;; define_params params)%method p)
    as [[[] p1]|e|] eqn:E.
  - apply (Hk p1). unfold bind in *. simpl in *.
    destruct (define_params params _) as [[[] p2]|e|]; try discriminate E.
    injection E as ->. exact H.
  - assert (e = SymbolError (Redeclared s n)) as ->.
    { unfold bind in *. simpl in *.
      destruct (define_params params _) as [[[] p2]|e'|]; try discriminate E.
      congruence. }
    apply define_params_fresh_fault in E. destruct E as [-> Hd].
    apply Hdup. exact Hd.
  - unfold bind in *. simpl in *.
    destruct (define_params params _) as [[[] p2]|e'|]; try discriminate E.
    discriminate H.
Qed.

Lemma eat_name_produced tok :
  produced (_eat toks TT_NAME) tok -> In tok toks /\ type tok = TT_NAME.
Proof.
  intros (p & p' & H). unfold _eat, bind, current in H.
  destruct (type_is (current_of toks p) TT_NAME) eqn:Ht; [|discriminate H].
  unfold _advance, ret in H.
  assert (tok = current_of toks p) as ->.
  { destruct (_ <? _); injection H as <- _; reflexivity. }
  unfold type_is in Ht. apply internal_TokenType_dec_bl in Ht.
  split; [|exact Ht]. unfold current_of in *.
  destruct (Nat.lt_ge_cases (pos p) (length toks)) as [Hlt | Hge].
  - apply nth_In. exact Hlt.
  - rewrite nth_overflow in Ht by exact Hge. discriminate Ht.
Qed.

Lemma safe_eat ty : safe toks (_eat toks ty).
Proof.
  intros p s n H. unfold _eat, bind, current, _advance, ret, raise in H.
  destruct (type_is _ _); [destruct (_ <? _)|]; discriminate H.
Qed.

Lemma safe_is_keyword word : safe toks (_is_keyword toks word).
Proof. intros p s n H. discriminate H. Qed.

Lemma safe_expect_keyword word : safe toks (_expect_keyword toks word).
Proof.
  intros p s n H. unfold _expect_keyword, bind, current, _advance, ret, raise in H.
  destruct (_ && _); [destruct (_ <? _)|]; discriminate H.
Qed.

Lemma safe_dict_index d key : safe toks (dict_index d key).
Proof.
  intros p s n H. unfold dict_index in H.
  destruct (lexer.dict_get _ _ _); discriminate H.
Qed.

Lemma safe_ensure_assignable expr : safe toks (_ensure_assignable toks expr).
Proof. intros p s n H. destruct expr; discriminate H. Qed.

Ltac safe_tac :=
  repeat first
    [ assumption
    | apply safe_ret | apply safe_out_of_fuel | apply safe_raise_parser
    | apply safe_raise_key | apply safe_current | apply safe_advance
    | apply safe_error | apply safe_peek_token | apply safe_pop_scope
    | apply safe_define_if_absent | apply safe_eat | apply safe_is_keyword
    | apply safe_expect_keyword | apply safe_dict_index
    | apply safe_ensure_assignable
    | apply safe_bind; [|intros ? ?]
    | match goal with
      | H : forall _, safe toks _ |- _ => apply H
      | H : forall _ _, safe toks _ |- _ => apply H
      | |- safe toks (match ?x with _ => _ end) => destruct x
      end ].

Lemma safe_parameters_loop fuel : forall params,
  safe toks (parameters_loop toks fuel params).
Proof.
  induction fuel as [|fuel IH]; intros params; [apply safe_out_of_fuel|].
  cbn [parameters_loop]. safe_tac.
Qed.

Lemma safe_parse_parameters fuel : safe toks (parse_parameters toks fuel).
Proof.
  unfold parse_parameters. pose proof (safe_parameters_loop fuel). safe_tac.
Qed.

Lemma safe_simple_statements :
  safe toks (parse_pass_stmt toks) /\ safe toks (parse_break_stmt toks) /\
  safe toks (parse_continue_stmt toks).
Proof.
  unfold parse_pass_stmt, parse_break_stmt, parse_continue_stmt.
  repeat split; safe_tac.
Qed.

Lemma safe_expr fuel :
  safe toks (parse_expression toks fuel) /\
  safe toks (parse_or toks fuel) /\
  (forall node, safe toks (parse_or_loop toks fuel node)) /\
  safe toks (parse_and toks fuel) /\
  (forall node, safe toks (parse_and_loop toks fuel node)) /\
  safe toks (parse_not toks fuel) /\
  safe toks (parse_comparison toks fuel) /\
  (forall ops comparators, safe toks (parse_comparison_loop toks fuel ops comparators)) /\
  safe toks (parse_arith_expr toks fuel) /\
  (forall node, safe toks (parse_arith_loop toks fuel node)) /\
  safe toks (parse_term toks fuel) /\
  (forall node, safe toks (parse_term_loop toks fuel node)) /\
  safe toks (parse_factor toks fuel) /\
  safe toks (parse_power toks fuel) /\
  safe toks (parse_primary toks fuel) /\
  (forall node, safe toks (parse_primary_loop toks fuel node)) /\
  safe toks (parse_arglist toks fuel) /\
  (forall args keywords, safe toks (parse_arglist_loop toks fuel args keywords)) /\
  safe toks (parse_atom toks fuel).
Proof.
  induction fuel as [|fuel IH].
  { repeat split; intros; apply safe_out_of_fuel. }
  destruct IH as (IH1 & IH2 & IH3 & IH4 & IH5 & IH6 & IH7 & IH8 & IH9 & IH10
                  & IH11 & IH12 & IH13 & IH14 & IH15 & IH16 & IH17 & IH18 & IH19).
  repeat split; intros.
  - cbn [parse_expression]. safe_tac.
  - cbn [parse_or]. safe_tac.
  - cbn [parse_or_loop]. safe_tac.
  - cbn [parse_and]. safe_tac.
  - cbn [parse_and_loop]. safe_tac.
  - cbn [parse_not]. safe_tac.
  - cbn [parse_comparison]. safe_tac.
  - cbn [parse_comparison_loop]. safe_tac.
  - cbn [parse_arith_expr]. safe_tac.
  - cbn [parse_arith_loop]. safe_tac.
  - cbn [parse_term]. safe_tac.
  - cbn [parse_term_loop]. safe_tac.
  - cbn [parse_factor]. safe_tac.
  - cbn [parse_power]. safe_tac.
  - cbn [parse_primary]. safe_tac.
  - cbn [parse_primary_loop]. safe_tac.
  - cbn [parse_arglist]. safe_tac.
  - cbn [parse_arglist_loop]. safe_tac.
  - cbn [parse_atom]. safe_tac.
Qed.

Lemma safe_parse_return_stmt fuel : safe toks (parse_return_stmt toks fuel).
Proof.
  destruct fuel as [|fuel]; [apply safe_out_of_fuel|].
  destruct (safe_expr fuel) as (IH1 & _).
  cbn [parse_return_stmt]. safe_tac.
Qed.

Lemma safe_parse_expr_or_assignment fuel :
  safe toks (parse_expr_or_assignment toks fuel).
Proof.
  destruct fuel as [|fuel]; [apply safe_out_of_fuel|].
  destruct (safe_expr fuel) as (IH1 & _).
  cbn [parse_expr_or_assignment]. safe_tac.
Qed.

Lemma safe_parse_simple_stmt fuel : safe toks (parse_simple_stmt toks fuel).
Proof.
  destruct fuel as [|fuel]; [apply safe_out_of_fuel|].
  pose proof (safe_parse_return_stmt fuel).
  pose proof (safe_parse_expr_or_assignment fuel).
  destruct safe_simple_statements as (? & ? & ?).
  cbn [parse_simple_stmt]. safe_tac.
Qed.

Lemma safe_stmt fuel :
  safe toks (parse_statement toks fuel) /\
  safe toks (parse_if_stmt toks fuel) /\
  safe toks (parse_if_orelse toks fuel) /\
  safe toks (parse_while_stmt toks fuel) /\
  safe toks (parse_for_stmt toks fuel) /\
  safe toks (parse_function_def toks fuel) /\
  safe toks (parse_block toks fuel) /\
  (forall stmts, safe toks (parse_block_loop toks fuel stmts)).
Proof.
  induction fuel as [|fuel IH].
  { repeat split; intros; apply safe_out_of_fuel. }
  destruct IH as (IH1 & IH2 & IH3 & IH4 & IH5 & IH6 & IH7 & IH8).
  destruct (safe_expr fuel) as (IHe & _).
  pose proof (safe_parse_simple_stmt fuel).
  pose proof (safe_parse_parameters fuel).
  repeat split; intros.
  - cbn [parse_statement]. safe_tac.
  - cbn [parse_if_stmt]. safe_tac.
  - cbn [parse_if_orelse]. safe_tac.
  - cbn [parse_while_stmt]. safe_tac.
  - cbn [parse_for_stmt]. safe_tac.
  - cbn [parse_function_def].
    apply safe_bind; [safe_tac | intros _ _].
    apply safe_bind; [safe_tac | intros name_tok Hname].
    apply safe_bind; [safe_tac | intros _ _].
    apply safe_bind; [safe_tac | intros _ _].
    apply safe_bind; [safe_tac | intros params Hparams].
    apply safe_bind; [safe_tac | intros _ _].
    apply safe_bind; [safe_tac | intros _ _].
    apply safe_push_define; [|safe_tac].
    intros nm Hdup. apply eat_name_produced in Hname.
    destruct Hname as [Hin Hty].
    exists name_tok, params. repeat split; eauto.
  - cbn [parse_block]. safe_tac.
  - cbn [parse_block_loop]. safe_tac.
Qed.

Lemma safe_parse_loop fuel : forall body, safe toks (parse_loop toks fuel body).
Proof.
  induction fuel as [|fuel IH]; intros body; [apply safe_out_of_fuel|].
  destruct (safe_stmt fuel) as (IHs & _).
  cbn [parse_loop]. safe_tac.
Qed.

End Redeclaration.

(** Every redeclaration fault of a parse comes from a duplicate
    parameter of a function definition of the input. *)
Lemma parse_tokens_redeclared (toks : list tokens.Token) (fuel : nat)
      (scope nm : string) :
  parser.parse_tokens fuel toks
    = Raise (parser.SymbolError (symtable.Redeclared scope nm)) ->
  from_duplicate_parameter toks scope nm.
Proof.
  unfold parser.parse_tokens, parser.run, parser.init, parser.parse. intros H.
  destruct toks as [|tok toks']; [discriminate H|].
  destruct (parser.parse_loop _ fuel [] _) as [[prog p']|e|] eqn:E;
    try discriminate H.
  injection H as ->. apply safe_parse_loop in E. exact E.
Qed.

(** * The generator: claims *)

Section GeneratorClaims.
Import pystr astnodes codegen3ac.


Variable repr_float : string -> string.
Variable repr_str : string -> string.



Lemma for_each_cons {A E S : Type} (visit : A -> S -> Result E S) x xs g g1 :
  visit x g = Ok g1 -> for_each visit (x :: xs) g = for_each visit xs g1.
Proof. intros H. simpl. rewrite H. reflexivity. Qed.

End GeneratorClaims.

Section GeneratorTheorems.
Import pystr astnodes codegen3ac.

(** C1, on the code. For an augmented assignment whose target is a
    plain name and whose right-hand side is already a place (a name),
    [visit_augassign] emits exactly two instructions: the base
    operator applied to the target and the right-hand place into a
    fresh temporary, and the move of that temporary into the target.
    No instruction reads the current value of the target into a
    temporary first. *)
Theorem C1_augassign_emits_two_instructions
        (repr_float repr_str : string -> string)
        (target op value : string) (g : CodeGenerator3AC) :
  exists g',
    visit_stmt repr_float repr_str (AugAssign (Name target) op (Name value)) g
      = Ok g' /\
    code g'
      = code g ++
        [ mkTACInstr (remove_char "=" op) (Some target) (Some value)
            (Some (temp_name (S (temp_count g)))) None None;
          mkTACInstr "=" (Some (temp_name (S (temp_count g)))) None
            (Some target) None None ] /\
    length (code g') = length (code g) + 2.
Proof.
  eexists. split; [reflexivity|]. simpl. rewrite <- app_assoc.
  split; [reflexivity|]. rewrite !length_app. simpl. lia.
Qed.

(** C7. A [break] generated while [break_stack] is empty, and a
    [continue] generated while [continue_stack] is empty, do not
    raise: each appends one unconditional jump to a placeholder label
    and changes nothing else of the generator, and the statements
    after it are generated from that state as usual. *)
Theorem C7_break_continue_outside_loop
        (repr_float repr_str : string -> string)
        (g : CodeGenerator3AC) (rest : list Stmt) :
  (break_stack g = [] ->
   visit_stmt repr_float repr_str Break g
     = Ok (emit "goto" None None (Some "__INVALID_BREAK__") None None g) /\
   visit_program repr_float repr_str (mkProgram (Break :: rest)) g
     = visit_program repr_float repr_str (mkProgram rest)
         (emit "goto" None None (Some "__INVALID_BREAK__") None None g)) /\
  (continue_stack g = [] ->
   visit_stmt repr_float repr_str Continue g
     = Ok (emit "goto" None None (Some "__INVALID_CONTINUE__") None None g) /\
   visit_program repr_float repr_str (mkProgram (Continue :: rest)) g
     = visit_program repr_float repr_str (mkProgram rest)
         (emit "goto" None None (Some "__INVALID_CONTINUE__") None None g)).
Proof.
  split; intros H.
  - assert (Hb : visit_stmt repr_float repr_str Break g
                 = Ok (emit "goto" None None (Some "__INVALID_BREAK__") None None g)).
    { simpl. unfold visit_break. rewrite H. reflexivity. }
    split; [exact Hb|]. unfold visit_program. apply for_each_cons. exact Hb.
  - assert (Hc : visit_stmt repr_float repr_str Continue g
                 = Ok (emit "goto" None None (Some "__INVALID_CONTINUE__")
                         None None g)).
    { simpl. unfold visit_continue. rewrite H. reflexivity. }
    split; [exact Hc|]. unfold visit_program. apply for_each_cons. exact Hc.
Qed.

Lemma C7_break_continue_outside_loop_witness :
  break_stack init = [] /\ continue_stack init = [] /\
  visit_program (fun s => s) (fun s => s)
    (mkProgram [Break; ExprStmt (BinOp (Name "a") "+" (Name "b"))]) init
    = visit_program (fun s => s) (fun s => s)
        (mkProgram [ExprStmt (BinOp (Name "a") "+" (Name "b"))])
        (emit "goto" None None (Some "__INVALID_BREAK__") None None init) /\
  visit_stmt (fun s => s) (fun s => s) Continue init
    = Ok (emit "goto" None None (Some "__INVALID_CONTINUE__") None None init).
Proof.
  split; [reflexivity|]. split; [reflexivity|].
  pose proof (C7_break_continue_outside_loop (fun s => s) (fun s => s) init
                [ExprStmt (BinOp (Name "a") "+" (Name "b"))]) as [Hb Hc].
  split.
  - exact (proj2 (Hb eq_refl)).
  - exact (proj1 (Hc eq_refl)).
Defined.

End GeneratorTheorems.

(** * The pipeline: claims *)

Section PipelineFacts.
Import pystr astnodes main.

(** More fuel never changes an answer of the front end. *)
Lemma front_end_mono (source : string) (fuel fuel' : nat)
      (r : Result Failure Program) :
  front_end fuel source = r -> r <> OutOfFuel -> fuel <= fuel' ->
  front_end fuel' source = r.
Proof.
  unfold front_end. intros H Hr Hle.
  destruct (lexer.lex source) as [toks|e|]; [|exact H|exact H].
  destruct (parser.parse_tokens fuel toks) as [prog|e|] eqn:E.
  - rewrite (parse_tokens_mono toks fuel fuel' _ E); [exact H | discriminate | exact Hle].
  - rewrite (parse_tokens_mono toks fuel fuel' _ E); [exact H | discriminate | exact Hle].
  - congruence.
Qed.

Lemma run_pipeline_mono repr_float repr_str (source : string) (fuel fuel' : nat)
      (tac : list codegen3ac.TACInstr) :
  run_pipeline repr_float repr_str fuel source = Ok tac -> fuel <= fuel' ->
  run_pipeline repr_float repr_str fuel' source = Ok tac.
Proof.
  unfold run_pipeline. intros H Hle.
  destruct (front_end fuel source) as [prog|e|] eqn:E; try discriminate H.
  rewrite (front_end_mono source fuel fuel' _ E); [exact H | discriminate | exact Hle].
Qed.
End PipelineFacts.

Section PipelineClaims.
Import pystr astnodes codegen3ac main.

(** C3. [a < b < c] parses into one [Compare] node with left operand
    [a], operators [<], [<] and comparators [b], [c]; from any state
    of the generator that node is lowered into exactly two [<]
    instructions, the first comparing [a] with [b] into a fresh
    temporary and the second comparing that temporary with [c] into
    the next one; and the pipeline prints these two instructions. *)
Theorem C3_chained_comparison (repr_float repr_str : string -> string) (fuel : nat) :
  32 <= fuel ->
  front_end fuel chained_comparison_source
    = Ok (mkProgram [ExprStmt chained_comparison_node]) /\
  (forall g : CodeGenerator3AC,
      visit_expr repr_float repr_str chained_comparison_node g
      = (temp_name (S (S (temp_count g))),
         mkCodeGenerator3AC
           (code g ++
            [ mkTACInstr "<" (Some "a") (Some "b")
                (Some (temp_name (S (temp_count g)))) None None;
              mkTACInstr "<" (Some (temp_name (S (temp_count g)))) (Some "c")
                (Some (temp_name (S (S (temp_count g))))) None None ])
           (S (S (temp_count g))) (label_count g)
           (break_stack g) (continue_stack g))) /\
  run_pipeline repr_float repr_str fuel chained_comparison_source
    = Ok [ mkTACInstr "<" (Some "a") (Some "b") (Some "t1") None None;
           mkTACInstr "<" (Some "t1") (Some "c") (Some "t2") None None ].
Proof.
  intros Hfuel. split; [|split].
  - apply (front_end_mono _ 32); [vm_compute; reflexivity | discriminate | exact Hfuel].
  - intros g.
    cbv beta iota zeta delta
      [chained_comparison_node visit_expr visit_compare compare_loop new_temp
       emit code temp_count label_count break_stack continue_stack temp_name].
    rewrite <- app_assoc. reflexivity.
  - apply (run_pipeline_mono _ _ _ 32); [vm_compute; reflexivity | exact Hfuel].
Qed.

Lemma C3_chained_comparison_witness :
  32 <= 32 /\
  front_end 32 chained_comparison_source
    = Ok (mkProgram [ExprStmt chained_comparison_node]) /\
  run_pipeline (fun s => s) (fun s => s) 32 chained_comparison_source
    = Ok [ mkTACInstr "<" (Some "a") (Some "b") (Some "t1") None None;
           mkTACInstr "<" (Some "t1") (Some "c") (Some "t2") None None ].
Proof.
  split; [lia|].
  pose proof (C3_chained_comparison (fun s => s) (fun s => s) 32
                ltac:(lia)) as (Hparse & _ & Hrun).
  split; [exact Hparse | exact Hrun].
Defined.



(** C5. For [def f(a, b): return a + b] the pipeline prints, in this
    order: the function-begin marker, a parameter declaration for [a]
    and one for [b], the addition into a temporary, the return of that
    temporary, a value-less implicit return, and the function-end
    marker. The implicit return does not depend on the body: whenever
    the body of a function definition is generated without fault, the
    code ends with the body's code, the implicit return and the
    function-end marker. *)
Theorem C5_function_definition (repr_float repr_str : string -> string) :
  (forall fuel, 32 <= fuel ->
      front_end fuel function_source = Ok (mkProgram [function_node]) /\
      run_pipeline repr_float repr_str fuel function_source
        = Ok [ mkTACInstr "func_begin" None None (Some "f") None None;
               mkTACInstr "param" (Some "a") None None None (Some "func param");
               mkTACInstr "param" (Some "b") None None None (Some "func param");
               mkTACInstr "+" (Some "a") (Some "b") (Some "t1") None None;
               mkTACInstr "return" (Some "t1") None None None None;
               mkTACInstr "return" None None None None (Some "implicit return");
               mkTACInstr "func_end" None None (Some "f") None None ]) /\
  (forall func_name args body returns decorators g g1,
      for_each (visit_stmt repr_float repr_str) body
        (emit_formals (arguments_args args)
           (emit "func_begin" None None (Some func_name) None None g))
        = Ok g1 ->
      exists g',
        visit_stmt repr_float repr_str
          (FunctionDef func_name args body returns decorators) g = Ok g' /\
        code g'
          = code g1 ++
            [ mkTACInstr "return" None None None None (Some "implicit return");
              mkTACInstr "func_end" None None (Some func_name) None None ]).
Proof.
  split.
  - intros fuel Hfuel. split.
    + apply (front_end_mono _ 32); [vm_compute; reflexivity | discriminate | exact Hfuel].
    + apply (run_pipeline_mono _ _ _ 32); [vm_compute; reflexivity | exact Hfuel].
  - intros func_name args body returns decorators g g1 Hbody.
    eexists. split.
    + cbn [visit_stmt]. unfold visit_functiondef. rewrite Hbody. reflexivity.
    + simpl. rewrite <- app_assoc. reflexivity.
Qed.

Lemma C5_function_definition_witness :
  32 <= 32 /\
  run_pipeline (fun s => s) (fun s => s) 32 function_source
    = Ok [ mkTACInstr "func_begin" None None (Some "f") None None;
           mkTACInstr "param" (Some "a") None None None (Some "func param");
           mkTACInstr "param" (Some "b") None None None (Some "func param");
           mkTACInstr "+" (Some "a") (Some "b") (Some "t1") None None;
           mkTACInstr "return" (Some "t1") None None None None;
           mkTACInstr "return" None None None None (Some "implicit return");
           mkTACInstr "func_end" None None (Some "f") None None ].
Proof.
  split; [lia|].
  exact (proj2 (proj1 (C5_function_definition (fun s => s) (fun s => s))
                  32 ltac:(lia))).
Defined.

End PipelineClaims.

(** * Scopes: claims *)

Section ScopeClaims.
Import pystr tokens astnodes main.

(** C6. [define] on a scope whose own entries hold the name raises the
    redeclaration fault, naming that scope and the name, on the table
    and through the stack alike; when the current scope does not hold
    the name, [define] succeeds and adds the entry to the current
    scope only, whatever the enclosing scopes beneath it hold. So a
    function definition with two parameters named [a] fails during
    parsing with the fault for scope [func f], and a function whose
    parameter [a] shadows a global variable [a] parses. *)
Theorem C6_define_consults_current_scope_only :
  (forall table nm kd ty,
      is_Some (symtable.entries table !! nm) ->
      symtable.table_define table nm kd ty
        = Raise (symtable.Redeclared (symtable.scope_name table) nm)) /\
  (forall table below nm kd ty,
      is_Some (symtable.entries table !! nm) ->
      symtable.define (table :: below) nm kd ty
        = Raise (symtable.Redeclared (symtable.scope_name table) nm)) /\
  (forall table below nm kd ty,
      symtable.entries table !! nm = None ->
      let entry :=
        symtable.mkSymbolEntry nm kd ty (symtable.scope_name table) None in
      symtable.define (table :: below) nm kd ty
        = Ok (entry,
              symtable.mkSymbolTable (symtable.scope_name table)
                (<[nm := entry]> (symtable.entries table)) :: below)) /\
  (forall fuel, 32 <= fuel ->
      front_end fuel duplicate_parameter_source
        = Raise (ParseFailure
                   (parser.SymbolError (symtable.Redeclared "func f" "a")))) /\
  (forall fuel, 32 <= fuel ->
      front_end fuel shadowing_source
        = Ok (mkProgram
                [ Assign [Name "a"] (Num "1");
                  FunctionDef "f" (mkArguments [mkArg "a" None None])
                    [Return (Some (Name "a"))] None [] ])).
Proof.
  split; [|split; [|split; [|split]]].
  - intros table nm kd ty [entry H]. unfold symtable.table_define.
    rewrite H. reflexivity.
  - intros table below nm kd ty [entry H].
    unfold symtable.define, symtable.table_define. rewrite H. reflexivity.
  - intros table below nm kd ty H entry.
    unfold symtable.define, symtable.table_define. rewrite H. reflexivity.
  - intros fuel Hfuel.
    apply (front_end_mono _ 32); [vm_compute; reflexivity | discriminate | exact Hfuel].
  - intros fuel Hfuel.
    apply (front_end_mono _ 32); [vm_compute; reflexivity | discriminate | exact Hfuel].
Qed.

Lemma C6_define_consults_current_scope_only_witness :
  is_Some (symtable.entries scope_with_a !! "a") /\
  symtable.table_define scope_with_a "a" "param" "unknown"
    = Raise (symtable.Redeclared "global" "a") /\
  symtable.entries (symtable.mkSymbolTable "func f" ∅) !! "a" = None /\
  symtable.define [symtable.mkSymbolTable "func f" ∅; scope_with_a]
    "a" "param" "unknown"
    = Ok (symtable.mkSymbolEntry "a" "param" "unknown" "func f" None,
          [ symtable.mkSymbolTable "func f"
              (<["a" := symtable.mkSymbolEntry "a" "param" "unknown" "func f" None]> ∅);
            scope_with_a ]) /\
  32 <= 32 /\
  front_end 32 duplicate_parameter_source
    = Raise (ParseFailure (parser.SymbolError (symtable.Redeclared "func f" "a"))).
Proof.
  assert (Ha : is_Some (symtable.entries scope_with_a !! "a")).
  { eexists. vm_compute. reflexivity. }
  destruct C6_define_consults_current_scope_only as (H1 & _ & H3 & H4 & _).
  split; [exact Ha|]. split; [exact (H1 scope_with_a "a" "param" "unknown" Ha)|].
  split; [reflexivity|].
  split; [exact (H3 (symtable.mkSymbolTable "func f" ∅) [scope_with_a]
                    "a" "param" "unknown" eq_refl)|].
  split; [lia|]. exact (H4 32 ltac:(lia)).
Defined.

(** C9. A redeclaration fault of a parse, for any token sequence and
    any fuel, names the scope [func f] of a function whose name [f] is
    a NAME token of the input and a name that occurs twice in a
    parameter list the parser read from the input. The guarded
    registration used for assignment targets and for function names
    never raises it. So assigning twice to one variable, and defining
    two functions of one name in one scope, parse without fault. *)
Theorem C9_redeclaration_only_from_parameters :
  (forall toks fuel scope nm,
      parser.parse_tokens fuel toks
        = Raise (parser.SymbolError (symtable.Redeclared scope nm)) ->
      from_duplicate_parameter toks scope nm) /\
  (forall nm kd ty p scope n,
      parser.define_if_absent nm kd ty p
        <> Raise (parser.SymbolError (symtable.Redeclared scope n))) /\
  (forall fuel, 32 <= fuel ->
      front_end fuel reassignment_source
        = Ok (mkProgram [ Assign [Name "x"] (Num "1");
                          Assign [Name "x"] (Num "2") ])) /\
  (forall fuel, 32 <= fuel ->
      front_end fuel redefinition_source
        = Ok (mkProgram
                [ FunctionDef "f" (mkArguments []) [Pass] None [];
                  FunctionDef "f" (mkArguments []) [Pass] None [] ])).
Proof.
  split; [|split; [|split]].
  - intros toks fuel scope nm. apply parse_tokens_redeclared.
  - intros nm kd ty p scope n H.
    destruct (define_if_absent_no_fault nm kd ty p) as [p' [E | E]];
      rewrite E in H; discriminate H.
  - intros fuel Hfuel.
    apply (front_end_mono _ 32); [vm_compute; reflexivity | discriminate | exact Hfuel].
  - intros fuel Hfuel.
    apply (front_end_mono _ 32); [vm_compute; reflexivity | discriminate | exact Hfuel].
Qed.

Lemma C9_redeclaration_only_from_parameters_witness :
  parser.parse_tokens 32 duplicate_parameter_tokens
    = Raise (parser.SymbolError (symtable.Redeclared "func f" "a")) /\
  from_duplicate_parameter duplicate_parameter_tokens "func f" "a" /\
  32 <= 32 /\
  front_end 32 reassignment_source
    = Ok (mkProgram [ Assign [Name "x"] (Num "1");
                      Assign [Name "x"] (Num "2") ]).
Proof.
  assert (H : parser.parse_tokens 32 duplicate_parameter_tokens
              = Raise (parser.SymbolError (symtable.Redeclared "func f" "a"))).
  { vm_compute. reflexivity. }
  destruct C9_redeclaration_only_from_parameters as (H1 & _ & H3 & _).
  split; [exact H|]. split; [exact (H1 _ _ _ _ H)|].
  split; [lia|]. exact (H3 32 ltac:(lia)).
Defined.

End ScopeClaims.
(** * More on the lexer *)

Section LexerLoop.
Import pystr tokens lexer.

(** An induction principle for the main loop: an invariant [I] of the
    lexer and the tokens produced, kept by every branch of a round, is
    kept by the loop, and a property [E] of every exception a branch
    raises holds of the exception the loop raises. *)
Lemma tokenize_loop_rule (I : Lexer -> list Token -> Prop) (E : LexExn -> Prop) :
  (forall lx toks, I lx toks ->
     match _handle_line_start lx toks with
     | Ok (lx', toks') => I lx' toks'
     | Raise e => E e
     | OutOfFuel => True
     end) ->
  (forall lx toks ch, I lx toks -> current_char lx = Some ch ->
     is_inline_space ch = true -> I (_advance lx 1) toks) ->
  (forall lx toks ch, I lx toks -> current_char lx = Some ch ->
     Ascii.eqb ch "#" = true ->
     I (fst (_handle_comment lx toks)) (snd (_handle_comment lx toks))) ->
  (forall lx toks ch, I lx toks -> current_char lx = Some ch ->
     Ascii.eqb ch LF = true ->
     I (set_at_line_start true (_advance lx 1))
       (toks ++ [mkToken TT_NEWLINE (VStr (String LF EmptyString))
                   (lexer.line lx) (col lx)])) ->
  (forall lx toks ch, I lx toks -> current_char lx = Some ch ->
     isdigit ch || (Ascii.eqb ch "." && is_digit_opt (_peek lx 1)) = true ->
     match _number lx with
     | Ok (tok, lx') => I lx' (toks ++ [tok])
     | Raise e => E e
     | OutOfFuel => True
     end) ->
  (forall lx toks ch, I lx toks -> current_char lx = Some ch ->
     isalpha ch || Ascii.eqb ch "_" = true ->
     I (snd (_identifier_or_keyword lx))
       (toks ++ [fst (_identifier_or_keyword lx)])) ->
  (forall lx toks ch, I lx toks -> current_char lx = Some ch ->
     is_quote ch = true ->
     match _string_literal lx with
     | Ok (tok, lx') => I lx' (toks ++ [tok])
     | Raise e => E e
     | OutOfFuel => True
     end) ->
  (forall lx toks ch, I lx toks -> current_char lx = Some ch ->
     match _operator_or_punct lx with
     | Some (tok, lx') => I lx' (toks ++ [tok])
     | None => E (LexerError (UnexpectedChar ch) (lexer.line lx) (col lx))
     end) ->
  forall fuel lx toks, I lx toks ->
    match tokenize_loop fuel lx toks with
    | Ok (lx', toks') => I lx' toks'
    | Raise e => E e
    | OutOfFuel => True
    end.
Proof.
  intros Hstart Hspace Hcomment Hnewline Hnumber Hident Hstring Hop.
  induction fuel as [|fuel IH]; intros lx toks HI; [exact Logic.I|].
  cbn [tokenize_loop]. cbv zeta.
  destruct (current_char lx) as [ch0|]; [|exact HI].
  assert (Hs : match (if at_line_start lx then _handle_line_start lx toks
                      else Ok (lx, toks)) with
               | Ok (lx', toks') => I lx' toks'
               | Raise e => E e
               | OutOfFuel => True
               end).
  { destruct (at_line_start lx); [apply Hstart; exact HI | exact HI]. }
  destruct (if at_line_start lx then _ else _) as [[lx1 toks1]|e|];
    [|exact Hs|exact Logic.I].
  destruct (current_char lx1) as [ch|] eqn:Hc; [|exact Hs].
  destruct (is_inline_space ch) eqn:Hsp.
  { apply IH. eapply Hspace; eassumption. }
  destruct (Ascii.eqb ch "#") eqn:Hhash.
  { pose proof (Hcomment lx1 toks1 ch Hs Hc Hhash) as H.
    destruct (_handle_comment lx1 toks1) as [lx2 toks2]. apply IH. exact H. }
  destruct (Ascii.eqb ch LF) eqn:Hlf.
  { apply IH. eapply Hnewline; eassumption. }
  destruct (isdigit ch || _) eqn:Hd.
  { pose proof (Hnumber lx1 toks1 ch Hs Hc Hd) as H.
    destruct (_number lx1) as [[tok lx2]|e|]; [apply IH; exact H | exact H | exact Logic.I]. }
  destruct (isalpha ch || _) eqn:Hal.
  { pose proof (Hident lx1 toks1 ch Hs Hc Hal) as H.
    destruct (_identifier_or_keyword lx1) as [tok lx2]. apply IH. exact H. }
  destruct (is_quote ch) eqn:Hq.
  { pose proof (Hstring lx1 toks1 ch Hs Hc Hq) as H.
    destruct (_string_literal lx1) as [[tok lx2]|e|]; [apply IH; exact H | exact H | exact Logic.I]. }
  pose proof (Hop lx1 toks1 ch Hs Hc) as H.
  destruct (_operator_or_punct lx1) as [[tok lx2]|]; [apply IH; exact H | exact H].
Qed.

End LexerLoop.

Section LexerInvariant.
Import pystr tokens lexer.

Lemma placed_advance_one lx : placed lx -> placed (advance_one lx).
Proof.
  unfold placed, advance_one. intros [Hl Hc].
  destruct (rest lx) as [|ch r]; [auto|].
  destruct (Ascii.eqb ch LF); simpl; lia.
Qed.

Lemma placed_advance lx n : placed lx -> placed (_advance lx n).
Proof.
  intros H. unfold _advance. induction n as [|n IH]; simpl; [exact H|].
  apply placed_advance_one. exact IH.
Qed.

Lemma placed_scan p lx read lx' :
  scan_while p lx = (read, lx') -> placed lx -> placed lx'.
Proof. unfold scan_while. intros [= _ <-]. apply placed_advance. Qed.

Ltac placed_step :=
  first [ assumption
        | apply placed_advance; placed_step
        | apply placed_advance_one; placed_step ].

Ltac placed_tac :=
  repeat match goal with
         | H : scan_while _ ?l = (_, ?l') |- _ =>
             assert (placed l') by (eapply placed_scan; [exact H | placed_step]);
             clear H
         end;
  try placed_step.

Lemma lexer_fault_at message lx :
  placed lx -> lexer_fault (LexerError message (lexer.line lx) (col lx)).
Proof. intros [Hl Hc]. exists message, (lexer.line lx), (col lx). auto. Qed.

Lemma span_all p s : all_chars p (span p s) = true.
Proof.
  induction s as [|c s IH]; simpl; [reflexivity|].
  destruct (p c) eqn:E; simpl; [rewrite E; exact IH | reflexivity].
Qed.

Lemma dict_get_pair {K V : Type} (eqb : K -> K -> bool) (d : list (K * V)) k v :
  dict_get eqb d k = Some v -> exists k', eqb k' k = true /\ In (k', v) d.
Proof.
  induction d as [|[k0 v0] d IH]; simpl; [discriminate|].
  destruct (eqb k0 k) eqn:E.
  - intros [= ->]. exists k0. auto.
  - intros H. destruct (IH H) as (k' & Hk & Hin). exists k'. auto.
Qed.

Lemma multi_ops_shape :
  Forall (fun '(s, t) =>
            forall ln cl, 1 <= ln -> 1 <= cl ->
                          loop_token (mkToken t (VStr s) ln cl)) multi_ops.
Proof.
  unfold multi_ops.
  repeat (apply List.Forall_cons;
          [ intros ln cl Hl Hc;
            (split; [split; [|simpl; auto] | discriminate]);
            simpl; eexists; (split; [reflexivity|]); left; simpl; tauto |]).
  apply List.Forall_nil.
Qed.

Lemma single_map_shape :
  Forall (fun '(ch, t) =>
            forall ln cl, 1 <= ln -> 1 <= cl ->
              loop_token (mkToken t (VStr (String ch EmptyString)) ln cl))
         single_map.
Proof.
  unfold single_map.
  repeat (apply List.Forall_cons;
          [ intros ln cl Hl Hc;
            (split; [split; [|simpl; auto] | discriminate]);
            simpl; eexists; (split; [reflexivity|]); right; eexists;
            (split; [reflexivity|]); simpl; tauto |]).
  apply List.Forall_nil.
Qed.

Lemma operator_token lx tok lx' :
  _operator_or_punct lx = Some (tok, lx') -> placed lx ->
  loop_token tok /\ placed lx'.
Proof.
  unfold _operator_or_punct. intros H Hp.
  destruct (current_char lx) as [ch|]; [|discriminate].
  cbv zeta in H.
  assert (Hm : forall n t,
             dict_get String.eqb multi_ops (_peek_fragment lx n) = Some t ->
             loop_token (mkToken t (VStr (_peek_fragment lx n))
                           (lexer.line lx) (col lx))).
  { intros n t Hd. apply dict_get_pair in Hd. destruct Hd as (s & Hs & Hin).
    apply String.eqb_eq in Hs. subst s.
    pose proof (proj1 (List.Forall_forall _ _) multi_ops_shape _ Hin) as Hsh.
    simpl in Hsh. destruct Hp. apply Hsh; assumption. }
  destruct (dict_get String.eqb multi_ops (_peek_fragment lx 3)) as [t3|] eqn:E3.
  { injection H as <- <-. split; [apply Hm; exact E3 | placed_tac]. }
  destruct (dict_get String.eqb multi_ops (_peek_fragment lx 2)) as [t2|] eqn:E2.
  { injection H as <- <-. split; [apply Hm; exact E2 | placed_tac]. }
  destruct (dict_get Ascii.eqb single_map ch) as [t1|] eqn:E1; [|discriminate].
  injection H as <- <-. split; [|placed_tac].
  apply dict_get_pair in E1. destruct E1 as (c & Hc & Hin).
  apply Ascii.eqb_eq in Hc. subst c.
  pose proof (proj1 (List.Forall_forall _ _) single_map_shape _ Hin) as Hsh.
  simpl in Hsh. destruct Hp. apply Hsh; assumption.
Qed.

Lemma number_token lx :
  placed lx ->
  match _number lx with
  | Ok (tok, lx') => loop_token tok /\ placed lx'
  | Raise e => lexer_fault e
  | OutOfFuel => True
  end.
Proof.
  intros Hp. destruct (_number lx) as [[tok lx']|e|] eqn:H; [| |exact Logic.I];
    unfold _number in H; repeat (case_match; simplify_eq); placed_tac.
  all: try (apply lexer_fault_at; placed_tac).
  all: try (split; [|placed_tac]).
  all: try (split; [split; [simpl; eexists; split; [reflexivity | assumption]
                           | destruct Hp; simpl; auto]
                   | discriminate]).
Qed.


Lemma identifier_token lx ch :
  placed lx -> current_char lx = Some ch -> isalpha ch || Ascii.eqb ch "_" = true ->
  loop_token (fst (_identifier_or_keyword lx)) /\
  placed (snd (_identifier_or_keyword lx)).
Proof.
  intros Hp Hc Ha. unfold _identifier_or_keyword, scan_while. simpl.
  split; [|placed_tac].
  split; [|discriminate]. split; [|destruct Hp; simpl; auto].
  simpl. eexists. split; [reflexivity|].
  unfold current_char in Hc. destruct (rest lx) as [|c r]; [discriminate|].
  injection Hc as ->.
  assert (Hi : is_ident_char ch = true).
  { unfold is_ident_char, isalnum. destruct (isalpha ch); [reflexivity|].
    simpl in *. rewrite Ha. apply orb_true_r. }
  pose proof (span_all is_ident_char (String ch r)) as Hall.
  simpl in *. rewrite Hi in *. simpl in *. rewrite Ha. exact Hall.
Qed.

Lemma string_literal_token lx :
  placed lx ->
  match _string_literal lx with
  | Ok (tok, lx') => loop_token tok /\ placed lx'
  | Raise e => lexer_fault e
  | OutOfFuel => True
  end.
Proof.
  intros Hp. destruct (_string_literal lx) as [[tok lx']|e|] eqn:H; [| |exact Logic.I];
    unfold _string_literal in H; repeat (case_match; simplify_eq).
  all: try (apply lexer_fault_at; placed_tac).
  split; [|placed_tac].
  split; [|discriminate]. split; [eexists; reflexivity | destruct Hp; simpl; auto].
Qed.

Lemma handle_comment_token lx toks :
  placed lx -> Forall loop_token toks ->
  placed (fst (_handle_comment lx toks)) /\
  Forall loop_token (snd (_handle_comment lx toks)).
Proof.
  intros Hp Ht. unfold _handle_comment, scan_while.
  destruct (startswith _ _) eqn:E; simpl; (split; [placed_tac|]); [|exact Ht].
  apply Forall_app. split; [exact Ht|]. constructor; [|constructor].
  split; [|discriminate]. split; [|destruct Hp; simpl; auto].
  simpl. eexists. split; [reflexivity | exact E].
Qed.

Lemma dedent_loop_tokens indent ln cl : forall stack toks,
  1 <= ln -> 1 <= cl -> Forall loop_token toks ->
  Forall loop_token (snd (dedent_loop indent stack toks ln cl)).
Proof.
  induction stack as [|top below IH]; intros toks Hl Hc Ht; simpl; [exact Ht|].
  destruct (indent <? top); [|exact Ht].
  apply IH; [exact Hl | exact Hc |].
  apply Forall_app. split; [exact Ht|]. constructor; [|constructor].
  split; [|discriminate]. split; [reflexivity | simpl; auto].
Qed.

Lemma handle_line_start_invariant lx toks :
  loop_invariant lx toks ->
  match _handle_line_start lx toks with
  | Ok (lx', toks') => loop_invariant lx' toks'
  | Raise e => lexer_fault e
  | OutOfFuel => True
  end.
Proof.
  intros (Hb & Hp & Ht).
  pose proof (handle_line_start_ok lx toks) as Hok.
  unfold _handle_line_start in *.
  destruct (scan_while is_blank (set_at_line_start false lx)) as [ws lx1] eqn:Hscan.
  assert (Hp1 : placed lx1).
  { apply placed_scan in Hscan; [exact Hscan | exact Hp]. }
  assert (Hst : indent_stack lx1 = indent_stack lx).
  { apply (moved_scan _ _ lx) in Hscan; [exact (proj1 Hscan)|].
    split; [reflexivity | unfold no_longer; simpl; lia]. }
  change (lexer.line (set_at_line_start false lx)) with (lexer.line lx) in *.
  change (col (set_at_line_start false lx)) with (col lx) in *.
  destruct Hp as [Hl Hc].
  assert (Hdedent : forall stack, Forall loop_token
            (snd (dedent_loop (indent_width ws) stack toks (lexer.line lx) (col lx)))).
  { intros stack. apply dedent_loop_tokens; assumption. }
  destruct (current_char lx1) as [ch|];
    [|split; [exact (proj1 (Hok _ _ eq_refl Hb)) | split; assumption]].
  destruct (Ascii.eqb ch LF || Ascii.eqb ch "#");
    [split; [exact (proj1 (Hok _ _ eq_refl Hb)) | split; assumption]|].
  rewrite <- Hst in Hb.
  destruct (indent_stack lx1) as [|prev below] eqn:Hstack.
  { destruct Hb as (above & Ha & _). destruct above; discriminate. }
  destruct (prev <? indent_width ws).
  { split; [exact (proj1 (Hok _ _ eq_refl ltac:(rewrite <- Hst; exact Hb)))|].
    split; [exact Hp1|].
    apply Forall_app. split; [exact Ht|]. constructor; [|constructor].
    split; [|discriminate]. split; [reflexivity | simpl; auto]. }
  destruct (indent_width ws <? prev);
    [|split; [exact (proj1 (Hok _ _ eq_refl ltac:(rewrite <- Hst; exact Hb)))
             | split; assumption]].
  specialize (Hdedent (prev :: below)).
  destruct (dedent_loop _ _ _ _ _) as [stack2 toks2] eqn:Hloop.
  pose proof (dedent_loop_balanced _ _ _ _ _ _ _ Hb Hloop) as Hb2.
  destruct stack2 as [|top rest2].
  { destruct Hb2 as (above & Ha & _). destruct above; discriminate. }
  destruct (indent_width ws =? top).
  - split; [exact Hb2|]. split; [exact Hp1 | exact Hdedent].
  - exists InvalidIndent, (lexer.line lx), (col lx). auto.
Qed.

(** The invariant of the main loop holds when the loop is left, and the
    loop raises faults of the lexer only. *)
Lemma tokenize_loop_invariant fuel lx toks :
  loop_invariant lx toks ->
  match tokenize_loop fuel lx toks with
  | Ok (lx', toks') => loop_invariant lx' toks'
  | Raise e => lexer_fault e
  | OutOfFuel => True
  end.
Proof.
  apply tokenize_loop_rule; clear lx toks.
  - exact handle_line_start_invariant.
  - intros lx toks ch (Hb & Hp & Ht) _ _.
    split; [rewrite advance_stack; exact Hb|]. split; [placed_tac | exact Ht].
  - intros lx toks ch (Hb & Hp & Ht) _ _.
    destruct (handle_comment_token lx toks Hp Ht) as [Hp' Ht'].
    split; [|split; assumption].
    destruct (_handle_comment lx toks) as [lx' toks'] eqn:E. simpl.
    apply handle_comment_ok in E. destruct E as ([Hst _] & Hi & Hd).
    destruct Hb as (above & Ha & Hcnt). exists above. split; [congruence | lia].
  - intros lx toks ch (Hb & Hp & Ht) _ _. split; [|split].
    + change (indent_stack (set_at_line_start true (_advance lx 1)))
        with (indent_stack (_advance lx 1)).
      rewrite advance_stack. destruct Hb as (above & Ha & Hcnt). exists above.
      split; [exact Ha|]. rewrite !count_type_app. simpl. lia.
    + apply (placed_advance lx 1) in Hp. exact Hp.
    + apply Forall_app. split; [exact Ht|]. constructor; [|constructor].
      split; [|discriminate]. split; [reflexivity | destruct Hp; simpl; auto].
  - intros lx toks ch (Hb & Hp & Ht) _ _.
    pose proof (number_token lx Hp) as H.
    destruct (_number lx) as [[tok lx']|e|] eqn:E; [|exact H|exact Logic.I].
    destruct H as [Htok Hp']. apply number_ok in E. destruct E as (Hty & Hst & _).
    split; [|split; [exact Hp'|]].
    + destruct Hb as (above & Ha & Hcnt). exists above. split; [congruence|].
      rewrite !count_type_snoc_plain; auto;
        unfold plain, type_is; rewrite Hty; split; reflexivity.
    + apply Forall_app. split; [exact Ht|]. constructor; [exact Htok|constructor].
  - intros lx toks ch (Hb & Hp & Ht) Hc Ha.
    destruct (identifier_token lx ch Hp Hc Ha) as [Htok Hp'].
    destruct (_identifier_or_keyword lx) as [tok lx'] eqn:E. simpl in *.
    apply identifier_ok in E. destruct E as (Hty & Hst & _).
    split; [|split; [exact Hp'|]].
    + destruct Hb as (above & Hab & Hcnt). exists above. split; [congruence|].
      rewrite !count_type_snoc_plain; auto;
        unfold plain, type_is; rewrite Hty; split; reflexivity.
    + apply Forall_app. split; [exact Ht|]. constructor; [exact Htok|constructor].
  - intros lx toks ch (Hb & Hp & Ht) _ _.
    pose proof (string_literal_token lx Hp) as H.
    destruct (_string_literal lx) as [[tok lx']|e|] eqn:E; [|exact H|exact Logic.I].
    destruct H as [Htok Hp']. apply string_literal_ok in E.
    destruct E as (Hty & Hst & _).
    split; [|split; [exact Hp'|]].
    + destruct Hb as (above & Ha & Hcnt). exists above. split; [congruence|].
      rewrite !count_type_snoc_plain; auto;
        unfold plain, type_is; rewrite Hty; split; reflexivity.
    + apply Forall_app. split; [exact Ht|]. constructor; [exact Htok|constructor].
  - intros lx toks ch (Hb & Hp & Ht) _.
    destruct (_operator_or_punct lx) as [[tok lx']|] eqn:E;
      [|apply lexer_fault_at; exact Hp].
    destruct (operator_token _ _ _ E Hp) as [Htok Hp'].
    apply operator_ok in E. destruct E as (Hpl & Hst & _).
    split; [|split; [exact Hp'|]].
    + destruct Hb as (above & Ha & Hcnt). exists above. split; [congruence|].
      rewrite !count_type_snoc_plain; auto.
    + apply Forall_app. split; [exact Ht|]. constructor; [exact Htok|constructor].
Qed.

Lemma init_invariant text : loop_invariant (init text) [].
Proof.
  split; [exists []; split; reflexivity|].
  split; [split; simpl; lia | constructor].
Qed.

End LexerInvariant.

Section LexerStream.
Import pystr tokens lexer.

Lemma flush_dedents_repeat stack : forall toks ln cl,
  snd (flush_dedents stack toks ln cl)
    = toks ++ repeat (mkToken TT_DEDENT VNone ln cl) (length stack - 1).
Proof.
  induction stack as [|a stack IH]; intros toks ln cl; simpl.
  { rewrite app_nil_r. reflexivity. }
  destruct stack as [|b stack]; simpl.
  { rewrite app_nil_r. reflexivity. }
  specialize (IH (toks ++ [mkToken TT_DEDENT VNone ln cl]) ln cl).
  simpl in IH. rewrite IH. rewrite <- app_assoc. simpl.
  rewrite Nat.sub_0_r. reflexivity.
Qed.

Lemma needs_final_newline_false toks :
  needs_final_newline toks = false ->
  toks = [] \/ exists before newline,
    toks = before ++ [newline] /\ type newline = TT_NEWLINE.
Proof.
  unfold needs_final_newline.
  destruct toks as [|t toks'] using rev_ind; [auto|].
  rewrite last_snoc. intros H. right. exists toks', t. split; [reflexivity|].
  apply negb_false_iff in H. unfold type_is in H.
  apply internal_TokenType_dec_bl in H. exact H.
Qed.

(** The tokens of [finish]: those of the main loop, a NEWLINE unless
    they are empty or end with one, one DEDENT for each open level, and
    the ENDMARKER, the last three at the position of the cursor. *)
Lemma finish_tokens lx toks :
  exists body,
    snd (finish lx toks)
      = body
        ++ repeat (mkToken TT_DEDENT VNone (lexer.line lx) (col lx))
             (length (indent_stack lx) - 1)
        ++ [mkToken TT_ENDMARKER VNone (lexer.line lx) (col lx)] /\
    (body = toks \/
     body = toks ++ [mkToken TT_NEWLINE (VStr (String LF EmptyString))
                       (lexer.line lx) (col lx)]) /\
    (body = [] \/ exists before newline,
        body = before ++ [newline] /\ type newline = TT_NEWLINE).
Proof.
  unfold finish.
  set (body := if needs_final_newline toks then _ else toks).
  exists body.
  pose proof (flush_dedents_repeat (indent_stack lx) body (lexer.line lx) (col lx)) as H.
  destruct (flush_dedents _ _ _ _) as [stack toks2]. simpl in *. subst toks2.
  split; [rewrite <- app_assoc; reflexivity|].
  subst body. destruct (needs_final_newline toks) eqn:E.
  - split; [right; reflexivity|]. right. eexists _, _. split; reflexivity.
  - split; [left; reflexivity|]. apply needs_final_newline_false. exact E.
Qed.

Lemma tokenize_invariant lx :
  loop_invariant lx [] ->
  match tokenize lx with
  | Ok (_, toks) =>
      exists lx1 toks1, loop_invariant lx1 toks1 /\ toks = snd (finish lx1 toks1)
  | Raise e => lexer_fault e
  | OutOfFuel => False
  end.
Proof.
  intros Hi. pose proof (tokenize_total lx) as Ht. unfold tokenize in *.
  pose proof (tokenize_loop_invariant (S (String.length (rest lx))) lx [] Hi) as H.
  destruct (tokenize_loop _ lx []) as [[lx1 toks1]|e|]; [|exact H|congruence].
  destruct (finish lx1 toks1) as [lx2 toks2] eqn:E.
  exists lx1, toks1. rewrite E. auto.
Qed.

Lemma lex_invariant text :
  match lex text with
  | Ok toks =>
      exists lx1 toks1, loop_invariant lx1 toks1 /\ toks = snd (finish lx1 toks1)
  | Raise e => lexer_fault e
  | OutOfFuel => False
  end.
Proof.
  unfold lex. pose proof (tokenize_invariant (init text) (init_invariant text)) as H.
  destruct (tokenize (init text)) as [[lx toks]|e|]; exact H.
Qed.

Lemma Forall_repeat {A : Type} (P : A -> Prop) x n : P x -> Forall P (repeat x n).
Proof. intros H. induction n; simpl; constructor; auto. Qed.

(** X1. Every token of a successful run of the lexer has the payload
    of its type and a 1-based position. *)
Theorem lex_tokens_well_formed text toks :
  lex text = Ok toks -> Forall token_ok toks.
Proof.
  intros H. pose proof (lex_invariant text) as Hi. rewrite H in Hi.
  destruct Hi as (lx1 & toks1 & (_ & [Hl Hc] & Ht) & ->).
  destruct (finish_tokens lx1 toks1) as (body & -> & Hbody & _).
  assert (Hloop : Forall token_ok toks1).
  { eapply List.Forall_impl; [|exact Ht]. intros tok [Hok _]. exact Hok. }
  apply Forall_app. split.
  { destruct Hbody as [-> | ->]; [exact Hloop|].
    apply Forall_app. split; [exact Hloop|]. constructor; [|constructor].
    split; [reflexivity | simpl; auto]. }
  apply Forall_app. split.
  { apply Forall_repeat. split; [reflexivity | simpl; auto]. }
  constructor; [|constructor]. split; [reflexivity | simpl; auto].
Qed.

(** X2. The end of the stream: a successful run gives logical lines
    that are empty or end with a NEWLINE and hold no ENDMARKER, then
    only DEDENTs, then one ENDMARKER, the last token. *)
Theorem lex_stream_shape text toks :
  lex text = Ok toks ->
  exists body dedents eof,
    toks = body ++ dedents ++ [eof] /\
    type eof = TT_ENDMARKER /\
    Forall (fun tok => type tok = TT_DEDENT) dedents /\
    Forall (fun tok => type tok <> TT_ENDMARKER) body /\
    (body = [] \/ exists before newline,
        body = before ++ [newline] /\ type newline = TT_NEWLINE).
Proof.
  intros H. pose proof (lex_invariant text) as Hi. rewrite H in Hi.
  destruct Hi as (lx1 & toks1 & (_ & _ & Ht) & ->).
  destruct (finish_tokens lx1 toks1) as (body & -> & Hbody & Hlast).
  eexists body, _, _. split; [reflexivity|]. split; [reflexivity|].
  split; [apply Forall_repeat; reflexivity|]. split; [|exact Hlast].
  assert (Hloop : Forall (fun tok => type tok <> TT_ENDMARKER) toks1).
  { eapply List.Forall_impl; [|exact Ht]. intros tok [_ Hne]. exact Hne. }
  destruct Hbody as [-> | ->]; [exact Hloop|].
  apply Forall_app. split; [exact Hloop|]. constructor; [discriminate|constructor].
Qed.

(** X3. The lexer fails with a [LexerError] at a 1-based position and
    with nothing else: no index of its own code is ever out of range. *)
Theorem lex_faults_are_lexer_errors text e :
  lex text = Raise e ->
  exists message ln cl, e = LexerError message ln cl /\ 1 <= ln /\ 1 <= cl.
Proof.
  intros H. pose proof (lex_invariant text) as Hi. rewrite H in Hi. exact Hi.
Qed.

End LexerStream.

Section LexerRoundTrips.
Import pystr tokens lexer.

Lemma advance_succ lx n : _advance lx (S n) = _advance (advance_one lx) n.
Proof.
  unfold _advance. induction n as [|n IH]; [reflexivity|].
  change (Nat.iter (S (S n)) advance_one lx)
    with (advance_one (Nat.iter (S n) advance_one lx)).
  rewrite IH. reflexivity.
Qed.

(** Over characters that are no line feeds the cursor stays on its
    line and moves one column for each character. *)
Lemma advance_plain s : forall r ln cl st b,
  all_chars (fun c => negb (Ascii.eqb c LF)) s = true ->
  _advance (mkLexer (s +:+ r) ln cl st b) (String.length s)
    = mkLexer r ln (cl + String.length s) st b.
Proof.
  induction s as [|c s IH]; intros r ln cl st b H; simpl in H;
    cbn [String.length append].
  { unfold _advance. simpl. f_equal. lia. }
  apply andb_true_iff in H. destruct H as [Hc Hs].
  change (String c s +:+ r) with (String c (s +:+ r)).
  rewrite advance_succ. unfold advance_one.
  cbn [rest lexer.line col indent_stack at_line_start].
  apply negb_true_iff in Hc. rewrite Hc. rewrite IH by exact Hs.
  f_equal. lia.
Qed.

Lemma all_chars_impl (p q : ascii -> bool) s :
  (forall c, p c = true -> q c = true) -> all_chars p s = true -> all_chars q s = true.
Proof.
  intros Hpq. induction s as [|c s IH]; simpl; [reflexivity|].
  intros H. apply andb_true_iff in H. destruct H as [Hc Hs].
  rewrite (Hpq c Hc). simpl. auto.
Qed.

Lemma span_whole p s r :
  all_chars p s = true ->
  match r with String c _ => p c = false | EmptyString => True end ->
  span p (s +:+ r) = s.
Proof.
  intros Hs Hr. induction s as [|c s IH].
  - change (EmptyString +:+ r) with r.
    destruct r as [|c r]; simpl; [reflexivity | rewrite Hr; reflexivity].
  - change (String c s +:+ r) with (String c (s +:+ r)). simpl in *.
    apply andb_true_iff in Hs. destruct Hs as [Hc Hs]. rewrite Hc.
    rewrite IH by exact Hs. reflexivity.
Qed.

Lemma ident_start_class c :
  isalpha c || Ascii.eqb c "_" = true ->
  is_blank c = false /\ is_inline_space c = false /\ Ascii.eqb c "#" = false /\
  Ascii.eqb c LF = false /\ isdigit c = false /\ Ascii.eqb c "." = false.
Proof.
  destruct c as [[] [] [] [] [] [] [] []]; vm_compute; intros H;
    try discriminate H; repeat split.
Qed.

Lemma ident_char_no_newline c : is_ident_char c = true -> negb (Ascii.eqb c LF) = true.
Proof.
  destruct c as [[] [] [] [] [] [] [] []]; vm_compute; intros H;
    try discriminate H; reflexivity.
Qed.

Lemma append_empty s : s +:+ EmptyString = s.
Proof.
  induction s as [|c s IH]; [reflexivity|].
  change (String c s +:+ EmptyString) with (String c (s +:+ EmptyString)).
  rewrite IH. reflexivity.
Qed.

(** At a line start before a character that opens no blank run, at the
    indentation of the enclosing level 0, nothing is emitted. *)
Lemma handle_line_start_flush_left c r ln cl below b toks :
  is_blank c = false -> Ascii.eqb c LF = false -> Ascii.eqb c "#" = false ->
  _handle_line_start (mkLexer (String c r) ln cl (0 :: below) b) toks
    = Ok (mkLexer (String c r) ln cl (0 :: below) false, toks).
Proof.
  intros Hb Hl Hh. unfold _handle_line_start, scan_while. simpl. rewrite Hb.
  simpl. rewrite Hl, Hh. reflexivity.
Qed.

(** The run of the lexer on a text that is one identifier. *)
Lemma lex_identifier_run w :
  is_identifier w = true ->
  lex w = Ok [ mkToken TT_NAME (VStr w) 1 1;
               mkToken TT_NEWLINE (VStr (String LF EmptyString)) 1 (1 + String.length w);
               mkToken TT_ENDMARKER VNone 1 (1 + String.length w) ].
Proof.
  destruct w as [|c r]; [discriminate|]. intros H.
  unfold is_identifier in H. apply andb_true_iff in H. destruct H as [Hc Hall].
  destruct (ident_start_class c Hc) as (Hb & Hs & Hh & Hl & Hd & Hdot).
  unfold lex, tokenize, init.
  change (rest (mkLexer (String c r) 1 1 [0] true)) with (String c r).
  change (String.length (String c r)) with (S (String.length r)).
  cbn [tokenize_loop]. cbv zeta.
  change (current_char (mkLexer (String c r) 1 1 [0] true)) with (Some c).
  change (at_line_start (mkLexer (String c r) 1 1 [0] true)) with true.
  cbv iota. rewrite handle_line_start_flush_left by assumption.
  change (current_char (mkLexer (String c r) 1 1 [0] false)) with (Some c).
  cbv iota. rewrite Hs, Hh, Hl, Hd, Hdot, Hc. cbv iota. simpl andb. simpl orb.
  cbv iota.
  unfold _identifier_or_keyword, scan_while.
  change (rest (mkLexer (String c r) 1 1 [0] false)) with (String c r).
  pose proof (span_whole is_ident_char (String c r) EmptyString Hall Logic.I) as Hspan.
  rewrite append_empty in Hspan. rewrite Hspan.
  pose proof (advance_plain (String c r) EmptyString 1 1 [0] false
                (all_chars_impl _ _ _ ident_char_no_newline Hall)) as Hadv.
  rewrite append_empty in Hadv. rewrite Hadv.
  reflexivity.
Qed.


Lemma keywords_are_identifiers w : is_keyword w = true -> is_identifier w = true.
Proof.
  unfold is_keyword. intros H. apply existsb_exists in H.
  destruct H as (k & Hin & Heq). apply String.eqb_eq in Heq. rewrite Heq.
  assert (Hall : forallb is_identifier KEYWORDS = true) by (vm_compute; reflexivity).
  exact (proj1 (forallb_forall _ _) Hall k Hin).
Qed.

Lemma append_assoc_string s r t : (s +:+ r) +:+ t = s +:+ (r +:+ t).
Proof.
  induction s as [|c s IH]; [reflexivity|].
  change (String c s +:+ r) with (String c (s +:+ r)).
  change (String c (s +:+ r) +:+ t) with (String c ((s +:+ r) +:+ t)).
  rewrite IH. reflexivity.
Qed.

Lemma scan_string_plain quote body : forall r acc n,
  all_chars (plain_char quote) body = true ->
  scan_string quote (body +:+ r) acc n
    = scan_string quote r (acc +:+ body) (n + String.length body).
Proof.
  induction body as [|c body IH]; intros r acc n H.
  { change (EmptyString +:+ r) with r. rewrite append_empty.
    simpl. rewrite Nat.add_0_r. reflexivity. }
  change (String c body +:+ r) with (String c (body +:+ r)).
  simpl in H. apply andb_true_iff in H. destruct H as [Hc Hb].
  unfold plain_char in Hc. apply andb_true_iff in Hc. destruct Hc as [Hc Hlf].
  apply andb_true_iff in Hc. destruct Hc as [Hbs Hq].
  apply negb_true_iff in Hbs, Hq, Hlf.
  cbn [scan_string]. rewrite Hbs, Hq, Hlf. rewrite IH by exact Hb.
  unfold snoc. rewrite append_assoc_string.
  change (String c EmptyString +:+ body) with (String c body). simpl String.length.
  f_equal. lia.
Qed.

Lemma quote_class q :
  is_quote q = true ->
  is_blank q = false /\ is_inline_space q = false /\ Ascii.eqb q "#" = false /\
  Ascii.eqb q LF = false /\ isdigit q = false /\ Ascii.eqb q "." = false /\
  isalpha q || Ascii.eqb q "_" = false /\ Ascii.eqb q "\" = false.
Proof.
  destruct q as [[] [] [] [] [] [] [] []]; vm_compute; intros H;
    try discriminate H; repeat split.
Qed.

Lemma plain_char_no_newline quote c :
  plain_char quote c = true -> negb (Ascii.eqb c LF) = true.
Proof.
  unfold plain_char. intros H. apply andb_true_iff in H. exact (proj2 H).
Qed.

Lemma all_chars_app p s r :
  all_chars p (s +:+ r) = all_chars p s && all_chars p r.
Proof.
  induction s as [|c s IH]; [reflexivity|].
  change (String c s +:+ r) with (String c (s +:+ r)). simpl.
  rewrite IH. apply andb_assoc.
Qed.

Lemma length_append s r : String.length (s +:+ r) = String.length s + String.length r.
Proof.
  induction s as [|c s IH]; [reflexivity|].
  change (String c s +:+ r) with (String c (s +:+ r)). simpl. rewrite IH. reflexivity.
Qed.

(** The first round of the main loop on a text that opens with a
    quote, at the start of the first line. *)
Lemma tokenize_loop_quote fuel q r :
  is_quote q = true ->
  tokenize_loop (S fuel) (init (String q r)) []
    = match _string_literal (mkLexer (String q r) 1 1 [0] false) with
      | Ok (tok, lx) => tokenize_loop fuel lx [tok]
      | Raise e => Raise e
      | OutOfFuel => OutOfFuel
      end.
Proof.
  intros Hq.
  destruct (quote_class q Hq) as (Hb & Hs & Hh & Hl & Hd & Hdot & Ha & _).
  unfold init. cbn [tokenize_loop]. cbv zeta.
  change (current_char (mkLexer (String q r) 1 1 [0] true)) with (Some q).
  change (at_line_start (mkLexer (String q r) 1 1 [0] true)) with true.
  cbv iota. rewrite handle_line_start_flush_left by assumption.
  change (current_char (mkLexer (String q r) 1 1 [0] false)) with (Some q).
  cbv iota. rewrite Hs, Hh, Hl, Hd, Hdot, Ha, Hq. reflexivity.
Qed.

Lemma string_literal_scan q r :
  Ascii.eqb q LF = false ->
  _string_literal (mkLexer (String q r) 1 1 [0] false)
    = match scan_string q r EmptyString 0 with
      | Closed value_chars n =>
          Ok (mkToken TT_STRING (VStr value_chars) 1 1,
              _advance (mkLexer r 1 2 [0] false) n)
      | Unterminated => Raise (LexerError UnterminatedString 1 1)
      | EscapeAtEof n =>
          Raise (LexerError EofInEscape
                   (lexer.line (_advance (mkLexer r 1 2 [0] false) n))
                   (col (_advance (mkLexer r 1 2 [0] false) n)))
      | BrokenByNewline n =>
          Raise (LexerError NewlineInString
                   (lexer.line (_advance (mkLexer r 1 2 [0] false) n))
                   (col (_advance (mkLexer r 1 2 [0] false) n)))
      end.
Proof.
  intros Hq. unfold _string_literal.
  change (current_char (mkLexer (String q r) 1 1 [0] false)) with (Some q).
  cbv iota zeta.
  assert (Hadv : _advance (mkLexer (String q r) 1 1 [0] false) 1
                 = mkLexer r 1 2 [0] false).
  { unfold _advance, advance_one. simpl. rewrite Hq. reflexivity. }
  rewrite Hadv. reflexivity.
Qed.

(** X6. A string literal without escapes, alone in the text, is read
    back: one STRING token at the opening quote, whose value is the
    text between the quotes, then the NEWLINE and the ENDMARKER after
    the closing quote. *)
Theorem lex_string_literal q body :
  is_quote q = true -> all_chars (plain_char q) body = true ->
  lex (String q (body +:+ String q EmptyString))
    = Ok [ mkToken TT_STRING (VStr body) 1 1;
           mkToken TT_NEWLINE (VStr (String LF EmptyString)) 1 (3 + String.length body);
           mkToken TT_ENDMARKER VNone 1 (3 + String.length body) ].
Proof.
  intros Hq Hb.
  destruct (quote_class q Hq) as (_ & _ & _ & Hl & _ & _ & _ & Hbs).
  unfold lex, tokenize.
  change (rest (init (String q (body +:+ String q EmptyString))))
    with (String q (body +:+ String q EmptyString)).
  rewrite tokenize_loop_quote by exact Hq.
  rewrite string_literal_scan by exact Hl.
  rewrite scan_string_plain by exact Hb.
  cbn [scan_string]. rewrite Hbs, Ascii.eqb_refl.
  change (EmptyString +:+ body) with body.
  replace (S (0 + String.length body))
    with (String.length (body +:+ String q EmptyString))
    by (rewrite length_append; simpl; lia).
  assert (Hplain : all_chars (fun c => negb (Ascii.eqb c LF))
                     (body +:+ String q EmptyString) = true).
  { rewrite all_chars_app. rewrite (all_chars_impl _ _ _ (plain_char_no_newline q) Hb).
    simpl. rewrite Hl. reflexivity. }
  pose proof (advance_plain _ EmptyString 1 2 [0] false Hplain) as Hadv.
  rewrite append_empty in Hadv. rewrite Hadv.
  rewrite length_append.
  change (String.length (String q (body +:+ String q EmptyString)))
    with (S (String.length (body +:+ String q EmptyString))).
  rewrite length_append. simpl String.length.
  replace (String.length body + 1) with (S (String.length body)) by lia.
  cbn [tokenize_loop]. cbv zeta.
  replace (2 + S (String.length body)) with (3 + String.length body) by lia.
  reflexivity.
Qed.



(** X4. An identifier alone in the text is read back: one NAME token
    at the start of the text with the identifier as its value, then
    the NEWLINE and the ENDMARKER that [tokenize] adds, both at the
    column after the identifier. *)
Theorem lex_identifier w :
  is_identifier w = true ->
  lex w = Ok [ mkToken TT_NAME (VStr w) 1 1;
               mkToken TT_NEWLINE (VStr (String LF EmptyString)) 1 (1 + String.length w);
               mkToken TT_ENDMARKER VNone 1 (1 + String.length w) ].
Proof. intros H. apply lex_identifier_run. exact H. Qed.

(** X5. The lexer has no token type for keywords: every word of
    [KEYWORDS] is read as a NAME token whose value is the word. *)
Theorem lex_keyword_is_name w :
  is_keyword w = true ->
  lex w = Ok [ mkToken TT_NAME (VStr w) 1 1;
               mkToken TT_NEWLINE (VStr (String LF EmptyString)) 1 (1 + String.length w);
               mkToken TT_ENDMARKER VNone 1 (1 + String.length w) ].
Proof.
  intros H. apply lex_identifier_run. apply keywords_are_identifiers. exact H.
Qed.

End LexerRoundTrips.

Section LexerOperators.
Import pystr tokens lexer.

(** The text before the cursor after [_advance lx n] is made of the
    next [n] characters, or of those that are left. *)
Lemma advance_splits n : forall lx,
  rest lx = substring 0 n (rest lx) +:+ rest (_advance lx n).
Proof.
  induction n as [|n IH]; intros lx.
  { unfold _advance. simpl. destruct (rest lx); reflexivity. }
  rewrite advance_succ. specialize (IH (advance_one lx)).
  unfold advance_one in *. destruct (rest lx) as [|c r] eqn:E.
  - rewrite E in IH. simpl. rewrite IH at 1.
    destruct n; simpl; reflexivity.
  - cbn [substring].
    change (String c (substring 0 n r) +:+ ?x) with (String c (substring 0 n r +:+ x)).
    f_equal. destruct (Ascii.eqb c LF); exact IH.
Qed.

Lemma prefix_substring s : forall r,
  String.prefix s r = true -> substring 0 (String.length s) r = s.
Proof.
  induction s as [|c s IH]; intros r H.
  { destruct r; reflexivity. }
  destruct r as [|d r]; [discriminate|]. simpl in H |- *.
  destruct (ascii_dec c d) as [->|]; [|discriminate].
  rewrite IH by exact H. reflexivity.
Qed.

Lemma dict_get_found (d : list (string * TokenType)) k v :
  In (k, v) d -> exists v', dict_get String.eqb d k = Some v'.
Proof.
  induction d as [|[k0 v0] d IH]; simpl; [intros []|].
  intros [H|H].
  - injection H as -> ->. rewrite String.eqb_refl. eauto.
  - destruct (String.eqb k0 k); eauto.
Qed.

Lemma multi_ops_lengths s t :
  In (s, t) multi_ops -> String.length s = 2 \/ String.length s = 3.
Proof.
  revert s t.
  assert (H : Forall (fun item : string * TokenType =>
                        String.length (fst item) = 2 \/ String.length (fst item) = 3)
                multi_ops).
  { repeat (apply List.Forall_cons; [simpl; auto|]). apply List.Forall_nil. }
  intros s t Hin. exact (proj1 (List.Forall_forall _ _) H (s, t) Hin).
Qed.

Lemma substring_length_le n : forall s, String.length (substring 0 n s) <= n.
Proof.
  induction n as [|n IH]; intros [|c s]; simpl; try lia.
  specialize (IH s). lia.
Qed.

(** X9. The longest match wins: the operator token that
    [_operator_or_punct] returns carries the text consumed, and no
    multi-character operator that the unread text starts with is
    longer than it. *)
Theorem operator_longest_match lx tok lx' :
  _operator_or_punct lx = Some (tok, lx') ->
  exists s,
    value tok = VStr s /\
    rest lx = s +:+ rest lx' /\
    forall s' t', In (s', t') multi_ops -> startswith s' (rest lx) = true ->
                  String.length s' <= String.length s.
Proof.
  unfold _operator_or_punct, _peek_fragment, startswith.
  destruct (current_char lx) as [ch|] eqn:Hc; [|discriminate].
  destruct (dict_get String.eqb multi_ops (substring 0 3 (rest lx))) as [t3|] eqn:H3.
  { intros [= <- <-]. eexists. split; [reflexivity|].
    split; [apply advance_splits|].
    intros s' t' Hin Hpre. apply dict_get_pair in H3.
    destruct H3 as (k & Hk & Hkin). apply String.eqb_eq in Hk.
    apply prefix_substring in Hpre.
    destruct (multi_ops_lengths _ _ Hin) as [L|L];
      destruct (multi_ops_lengths _ _ Hkin) as [Lk|Lk]; rewrite Hk in Lk; try lia.
    rewrite L in Hpre. rewrite Hpre in Lk. lia. }
  destruct (dict_get String.eqb multi_ops (substring 0 2 (rest lx))) as [t2|] eqn:H2.
  { intros [= <- <-]. eexists. split; [reflexivity|].
    split; [apply advance_splits|].
    intros s' t' Hin Hpre. apply dict_get_pair in H2.
    destruct H2 as (k & Hk & Hkin). apply String.eqb_eq in Hk.
    apply prefix_substring in Hpre.
    destruct (multi_ops_lengths _ _ Hin) as [L|L].
    - pose proof (substring_length_le 2 (rest lx)) as Hle.
      destruct (multi_ops_lengths _ _ Hkin) as [Lk|Lk]; rewrite Hk in Lk; lia.
    - exfalso. rewrite L in Hpre. rewrite <- Hpre in Hin.
      destruct (dict_get_found _ _ _ Hin) as [v Hv]. congruence. }
  destruct (dict_get Ascii.eqb single_map ch) as [t1|] eqn:H1; [|discriminate].
  intros [= <- <-]. eexists. split; [reflexivity|].
  split.
  { pose proof (advance_splits 1 lx) as Hs. unfold current_char in Hc.
    destruct (rest lx) as [|c r] eqn:E; [discriminate|]. injection Hc as ->.
    cbn [substring] in Hs. destruct r; exact Hs. }
  intros s' t' Hin Hpre. exfalso. apply prefix_substring in Hpre.
  destruct (multi_ops_lengths _ _ Hin) as [L|L]; rewrite L in Hpre;
    rewrite <- Hpre in Hin; destruct (dict_get_found _ _ _ Hin) as [v Hv]; congruence.
Qed.

End LexerOperators.

Section SymbolTableFacts.
Import symtable.

Lemma table_lookup_app above : forall below nm,
  Forall (fun table => entries table !! nm = None) above ->
  table_lookup (above ++ below) nm = table_lookup below nm.
Proof.
  induction above as [|t above IH]; intros below nm H; [reflexivity|].
  inversion H as [|? ? Ht Habove]; subst. simpl. unfold lookup_local.
  rewrite Ht. apply IH. exact Habove.
Qed.

Lemma table_lookup_some chain nm entry :
  table_lookup chain nm = Some entry <->
  exists above table below,
    chain = above ++ table :: below /\
    entries table !! nm = Some entry /\
    Forall (fun t => entries t !! nm = None) above.
Proof.
  split.
  - induction chain as [|t chain IH]; simpl; [discriminate|].
    unfold lookup_local. destruct (entries t !! nm) as [e|] eqn:E.
    + intros [= ->]. exists [], t, chain. auto.
    + intros H. destruct (IH H) as (above & table & below & -> & Ht & Ha).
      exists (t :: above), table, below. auto.
  - intros (above & table & below & -> & Ht & Ha).
    rewrite table_lookup_app by exact Ha. simpl. unfold lookup_local.
    rewrite Ht. reflexivity.
Qed.

Lemma table_lookup_none chain nm :
  table_lookup chain nm = None <->
  Forall (fun t => entries t !! nm = None) chain.
Proof.
  induction chain as [|t chain IH]; simpl.
  - split; [constructor | reflexivity].
  - unfold lookup_local. destruct (entries t !! nm) as [e|] eqn:E.
    + split; [discriminate|]. intros H. inversion H; congruence.
    + rewrite IH. split; [intros H; constructor; assumption|].
      intros H. inversion H; assumption.
Qed.

(** X10. [lookup] finds the entry of the innermost scope that holds
    the name; it finds nothing exactly when no scope of the stack holds
    the name, and it fails exactly on the empty stack. *)
Theorem lookup_innermost_scope stack nm :
  (forall entry,
      lookup stack nm = Ok (Some entry) <->
      exists above table below,
        stack = above ++ table :: below /\
        entries table !! nm = Some entry /\
        Forall (fun t => entries t !! nm = None) above) /\
  (lookup stack nm = Ok None <->
   stack <> [] /\ Forall (fun t => entries t !! nm = None) stack) /\
  (lookup stack nm = Raise NoCurrentScope <-> stack = []).
Proof.
  split; [|split].
  - intros entry. rewrite <- table_lookup_some. destruct stack as [|t stack].
    + simpl. split; discriminate.
    + unfold lookup. split; [intros [= H]; exact H | intros ->; reflexivity].
  - rewrite <- table_lookup_none. destruct stack as [|t stack].
    + simpl. split; [discriminate | intros [H _]; congruence].
    + unfold lookup. split; [intros [= H]; split; [discriminate | exact H]|].
      intros [_ ->]. reflexivity.
  - destruct stack; simpl; split; intros; congruence.
Qed.

(** X11. What [define] stores is what [lookup] then returns for that
    name, whatever the enclosing scopes hold; the lookup of every other
    name is as before. *)
Theorem define_then_lookup stack nm kd ty entry stack' :
  define stack nm kd ty = Ok (entry, stack') ->
  lookup stack' nm = Ok (Some entry) /\
  name entry = nm /\ kind entry = kd /\ typ entry = ty /\
  (forall other, other <> nm -> lookup stack' other = lookup stack other).
Proof.
  unfold define, table_define. destruct stack as [|table below]; [discriminate|].
  destruct (entries table !! nm) eqn:E; [discriminate|].
  intros [= <- <-]. simpl. unfold lookup_local. simpl.
  rewrite lookup_insert_eq. repeat split; try reflexivity.
  intros other Hne. rewrite lookup_insert_ne by congruence. reflexivity.
Qed.

Lemma define_all_top decls : forall table below stack',
  define_all (table :: below) decls = Ok stack' ->
  exists table',
    stack' = table' :: below /\
    scope_name table' = scope_name table /\
    List.NoDup (map declared_name decls) /\
    (forall nm, is_Some (entries table' !! nm) <->
                is_Some (entries table !! nm) \/ In nm (map declared_name decls)) /\
    (forall nm, In nm (map declared_name decls) -> entries table !! nm = None) /\
    (table_filed table -> table_filed table').
Proof.
  induction decls as [|[[nm kd] ty] decls IH]; intros table below stack'; simpl.
  { intros [= <-]. exists table. split; [reflexivity|]. split; [reflexivity|].
    split; [apply List.NoDup_nil|]. split; [tauto|]. split; [tauto | auto]. }
  unfold table_define. destruct (entries table !! nm) eqn:E; [discriminate|].
  intros H. apply IH in H.
  destruct H as (table' & -> & Hname & Hnd & Hdom & Hfresh & Hfiled).
  simpl in *. exists table'. split; [reflexivity|]. split; [exact Hname|].
  assert (Hnew : forall n, is_Some (<[nm := mkSymbolEntry nm kd ty (scope_name table) None]>
                                      (entries table) !! n)
                           <-> n = nm \/ is_Some (entries table !! n)).
  { intros n. destruct (decide (n = nm)) as [->|Hne].
    - rewrite lookup_insert_eq. split; [auto | eauto].
    - rewrite lookup_insert_ne by congruence. split; [auto|]. intros [?|?]; tauto. }
  split; [|split; [|split]].
  - apply List.NoDup_cons; [|exact Hnd]. intros Hin. apply Hfresh in Hin.
    rewrite lookup_insert_eq in Hin. discriminate.
  - intros n. rewrite Hdom, Hnew. unfold declared_name at 2. simpl.
    split; [intros [[->|H]|H]; auto | intros [H|[<-|H]]; auto].
  - intros n [<-|Hin]; [exact E|]. unfold declared_name at 1 in Hin.
    pose proof (Hfresh n Hin) as Hn.
    destruct (decide (n = nm)) as [->|Hne].
    + rewrite lookup_insert_eq in Hn. discriminate.
    + rewrite lookup_insert_ne in Hn by congruence. exact Hn.
  - intros Hf. apply Hfiled. intros n e.
    destruct (decide (n = nm)) as [->|Hne].
    + simpl. rewrite lookup_insert_eq. intros [= <-]. auto.
    + simpl. rewrite lookup_insert_ne by congruence. exact (Hf n e).
Qed.

Lemma define_all_fresh decls : forall table below,
  List.NoDup (map declared_name decls) ->
  (forall nm, In nm (map declared_name decls) -> entries table !! nm = None) ->
  exists stack', define_all (table :: below) decls = Ok stack'.
Proof.
  induction decls as [|[[nm kd] ty] decls IH]; intros table below Hnd Hfresh; simpl.
  { eauto. }
  unfold table_define. rewrite (Hfresh nm) by (left; reflexivity).
  inversion Hnd as [|? ? Hnotin Hnd']; subst.
  apply IH; [exact Hnd'|]. intros n Hin. simpl.
  rewrite lookup_insert_ne; [apply Hfresh; right; exact Hin|].
  intros <-. apply Hnotin. exact Hin.
Qed.

Lemma empty_table_filed scope : table_filed (mkSymbolTable scope ∅).
Proof. intros nm entry H. simpl in H. rewrite lookup_empty in H. discriminate. Qed.

(** X12. A scope that is pushed, filled by [define]s and popped: the
    [define]s all succeed exactly when the names are pairwise distinct,
    the table popped then holds exactly these names, each entry filed
    under its own name with the name of the scope, and the stack is
    again the stack from before the push. *)
Theorem scope_bracket stack scope decls :
  (List.NoDup (map declared_name decls) <->
   exists stack', define_all (snd (push_scope stack scope)) decls = Ok stack') /\
  (forall stack',
      define_all (snd (push_scope stack scope)) decls = Ok stack' ->
      exists table,
        pop_scope stack' = Ok (table, stack) /\
        scope_name table = scope /\
        (forall nm, is_Some (entries table !! nm)
                    <-> In nm (map declared_name decls)) /\
        table_filed table).
Proof.
  unfold push_scope. simpl. split.
  - split.
    + intros Hnd. apply define_all_fresh; [exact Hnd|]. intros nm _. apply lookup_empty.
    + intros [stack' H]. apply define_all_top in H.
      destruct H as (_ & _ & _ & Hnd & _). exact Hnd.
  - intros stack' H. apply define_all_top in H.
    destruct H as (table & -> & Hname & _ & Hdom & _ & Hfiled).
    exists table. split; [reflexivity|]. split; [exact Hname|].
    split; [|apply Hfiled, empty_table_filed].
    intros nm. rewrite Hdom. simpl. rewrite lookup_empty.
    split; [intros [[x Hx]|H]; [discriminate | exact H] | auto].
Qed.

End SymbolTableFacts.

Section ParserRuns.
Import pystr tokens symtable astnodes parser.

Variable toks : list Token.
Hypothesis Hend : ends_with_endmarker toks.

Lemma grown_refl stack : stack <> [] -> grown stack stack.
Proof. destruct stack as [|t s]; [congruence|]. intros _. simpl. auto. Qed.

Lemma grown_trans s1 s2 s3 : grown s1 s2 -> grown s2 s3 -> grown s1 s3.
Proof.
  destruct s1 as [|t1 b1], s2 as [|t2 b2], s3 as [|t3 b3]; simpl; try tauto.
  intros (-> & H12 & Hs12) (-> & H23 & Hs23).
  split; [reflexivity|]. split; [congruence|]. etransitivity; eassumption.
Qed.

Lemma grown_nonempty s1 s2 : grown s1 s2 -> s2 <> [].
Proof. destruct s1, s2; simpl; try tauto. discriminate. Qed.

(** The cursor is on the last token only if that token is the
    end-of-stream sentinel. *)
Lemma not_last p :
  pos p < length toks -> type (current_of toks p) <> TT_ENDMARKER ->
  S (pos p) < length toks.
Proof.
  intros Hlt Hne. destruct (Nat.eq_dec (S (pos p)) (length toks)) as [E|]; [|lia].
  exfalso. apply Hne. unfold current_of. unfold ends_with_endmarker in Hend.
  rewrite <- Hend. clear Hend Hne.
  assert (Hp : pos p = length toks - 1) by lia. rewrite Hp.
  clear. destruct toks as [|t l] using rev_ind; [reflexivity|].
  rewrite last_last, length_app. simpl.
  replace (length l + 1 - 1) with (length l) by lia.
  rewrite app_nth2 by lia. rewrite Nat.sub_diag. reflexivity.
Qed.

Lemma current_in p : pos p < length toks -> In (current_of toks p) toks.
Proof. intros H. apply nth_In. exact H. Qed.

Lemma runs_bind {A B : Type} p (m : M A) (k : A -> M B) Q :
  runs toks p m (fun a p' => runs toks p' (k a) Q) -> runs toks p (bind m k) Q.
Proof. unfold runs, bind. destruct (m p) as [[a p']|e|]; auto. Qed.

Lemma runs_mono {A : Type} p (m : M A) (Q Q' : A -> Parser -> Prop) :
  runs toks p m Q -> (forall a p', Q a p' -> Q' a p') -> runs toks p m Q'.
Proof. unfold runs. destruct (m p) as [[a p']|e|]; auto. Qed.

Lemma runs_ret {A : Type} p (a : A) Q : Q a p -> runs toks p (ret a) Q.
Proof. intros H. exact H. Qed.

Lemma runs_current p Q :
  Q (current_of toks p) p -> runs toks p (current toks) Q.
Proof. intros H. exact H. Qed.

Lemma runs_is_keyword p word Q :
  Q (type_is (current_of toks p) TT_NAME && value_is (current_of toks p) word) p ->
  runs toks p (_is_keyword toks word) Q.
Proof. intros H. exact H. Qed.

Lemma runs_peek_token p k Q :
  (forall tok, Q tok p) -> runs toks p (_peek_token toks k) Q.
Proof.
  intros H. unfold runs, _peek_token. destruct (_ <=? _); apply H.
Qed.

Lemma runs_error {A : Type} p message (Q : A -> Parser -> Prop) :
  ready toks p -> runs toks p (_error toks message) Q.
Proof. intros [Hp _]. unfold runs, _error. simpl. apply current_in. exact Hp. Qed.

Lemma runs_advance p Q :
  ready toks p -> type (current_of toks p) <> TT_ENDMARKER ->
  (forall p', ready toks p' -> pos p' = S (pos p) ->
              symstack p' = symstack p -> Q tt p') ->
  runs toks p (_advance toks) Q.
Proof.
  intros [Hp Hs] Hne HQ. pose proof (not_last p Hp Hne) as Hlt.
  unfold runs, _advance.
  destruct (Nat.ltb_spec (pos p) (length toks - 1)) as [_|Hge]; [|lia].
  apply HQ; [split; simpl; assumption | reflexivity | reflexivity].
Qed.

Lemma runs_eat p ty Q :
  ready toks p -> ty <> TT_ENDMARKER ->
  (forall p', ready toks p' -> pos p' = S (pos p) ->
              symstack p' = symstack p -> Q (current_of toks p) p') ->
  runs toks p (_eat toks ty) Q.
Proof.
  intros Hr Hty HQ. unfold _eat. apply runs_bind, runs_current.
  destruct (type_is (current_of toks p) ty) eqn:E.
  - apply runs_bind, runs_advance; [exact Hr| |].
    + unfold type_is in E. apply internal_TokenType_dec_bl in E. congruence.
    + intros p' H1 H2 H3. apply runs_ret. apply HQ; assumption.
  - unfold runs, raise. simpl. apply current_in. exact (proj1 Hr).
Qed.

Lemma runs_expect_keyword p word Q :
  ready toks p ->
  (forall p', ready toks p' -> pos p' = S (pos p) ->
              symstack p' = symstack p -> Q (current_of toks p) p') ->
  runs toks p (_expect_keyword toks word) Q.
Proof.
  intros Hr HQ. unfold _expect_keyword. apply runs_bind, runs_current.
  destruct (type_is (current_of toks p) TT_NAME && value_is (current_of toks p) word)
    eqn:E.
  - apply runs_bind, runs_advance; [exact Hr| |].
    + apply andb_true_iff in E. destruct E as [E _].
      unfold type_is in E. apply internal_TokenType_dec_bl in E.
      rewrite E. discriminate.
    + intros p' H1 H2 H3. apply runs_ret. apply HQ; assumption.
  - unfold runs, raise. simpl. apply current_in. exact (proj1 Hr).
Qed.

Lemma compare_mapping_total tok :
  type_in tok [TT_EQEQUAL; TT_NOTEQUAL; TT_LESS; TT_GREATER;
               TT_LESSEQUAL; TT_GREATEREQUAL] = true ->
  exists op_str, lexer.dict_get TokenType_beq compare_mapping (type tok) = Some op_str.
Proof.
  unfold type_in. destruct (type tok); simpl; intros H; try discriminate H; eauto.
Qed.

Lemma factor_mapping_total tok :
  type_in tok [TT_PLUS; TT_MINUS; TT_TILDE] = true ->
  exists op_str, lexer.dict_get TokenType_beq factor_mapping (type tok) = Some op_str.
Proof.
  unfold type_in. destruct (type tok); simpl; intros H; try discriminate H; eauto.
Qed.

Lemma runs_compare_index p tok Q :
  type_in tok [TT_EQEQUAL; TT_NOTEQUAL; TT_LESS; TT_GREATER;
               TT_LESSEQUAL; TT_GREATEREQUAL] = true ->
  (forall op_str, Q op_str p) ->
  runs toks p (dict_index compare_mapping (type tok)) Q.
Proof.
  intros H HQ. destruct (compare_mapping_total tok H) as [v Hv].
  unfold runs, dict_index. rewrite Hv. apply HQ.
Qed.

Lemma runs_factor_index p tok Q :
  type_in tok [TT_PLUS; TT_MINUS; TT_TILDE] = true ->
  (forall op_str, Q op_str p) ->
  runs toks p (dict_index factor_mapping (type tok)) Q.
Proof.
  intros H HQ. destruct (factor_mapping_total tok H) as [v Hv].
  unfold runs, dict_index. rewrite Hv. apply HQ.
Qed.

Lemma type_in_not_end tok ts :
  type_in tok ts = true -> ~ In TT_ENDMARKER ts -> type tok <> TT_ENDMARKER.
Proof.
  unfold type_in. intros H Hn E. apply existsb_exists in H.
  destruct H as (t & Hin & Ht). apply internal_TokenType_dec_bl in Ht.
  apply Hn. congruence.
Qed.

Lemma type_is_not_end tok t :
  type_is tok t = true -> t <> TT_ENDMARKER -> type tok <> TT_ENDMARKER.
Proof.
  unfold type_is. intros H Hn E. apply internal_TokenType_dec_bl in H. congruence.
Qed.

Lemma keyword_not_end tok word :
  type_is tok TT_NAME && value_is tok word = true -> type tok <> TT_ENDMARKER.
Proof.
  intros H. apply andb_true_iff in H. destruct H as [H _].
  apply (type_is_not_end _ _ H). discriminate.
Qed.

Lemma runs_define_if_absent p nm kd ty Q :
  ready toks p ->
  (forall p', ready toks p' -> pos p' = pos p ->
              grown (symstack p) (symstack p') -> Q tt p') ->
  runs toks p (define_if_absent nm kd ty) Q.
Proof.
  intros [Hp Hs] HQ. unfold runs, define_if_absent, lookup_local, table_define.
  destruct (symstack p) as [|scope below] eqn:E; [congruence|].
  destruct (entries scope !! nm) eqn:El.
  - apply HQ; [split; [exact Hp | congruence] | reflexivity|].
    rewrite E. simpl. auto.
  - apply HQ; [split; [exact Hp | discriminate] | reflexivity|].
    simpl. split; [reflexivity|]. split; [reflexivity|].
    apply insert_subseteq. exact El.
Qed.

Lemma runs_define_params params : forall p (Q : unit -> Parser -> Prop),
  ready toks p ->
  (forall p', ready toks p' -> pos p' = pos p ->
              grown (symstack p) (symstack p') -> Q tt p') ->
  runs toks p (define_params params) Q.
Proof.
  induction params as [|arg params IH]; intros p Q Hr HQ.
  { apply runs_ret. apply HQ; [exact Hr | reflexivity|].
    apply grown_refl. exact (proj2 Hr). }
  cbn [define_params]. apply runs_bind.
  destruct Hr as [Hp Hs].
  unfold runs at 1. unfold define, symtable.define, table_define.
  destruct (symstack p) as [|scope below] eqn:E; [congruence|].
  destruct (entries scope !! arg_name arg) eqn:El; [exact Logic.I|].
  apply IH; [split; [exact Hp | discriminate]|].
  intros p' Hr' Hpos Hg. apply HQ; [exact Hr' | exact Hpos|].
  eapply grown_trans; [|exact Hg]. simpl.
  split; [reflexivity|]. split; [reflexivity|].
  apply insert_subseteq. exact El.
Qed.

Lemma runs_push_scope p nm (Q : unit -> Parser -> Prop) :
  (forall p', pos p' = pos p ->
              symstack p' = mkSymbolTable nm ∅ :: symstack p -> Q tt p') ->
  runs toks p (push_scope nm) Q.
Proof. intros HQ. unfold runs, push_scope. apply HQ; reflexivity. Qed.

Lemma runs_pop_scope p table below (Q : unit -> Parser -> Prop) :
  symstack p = table :: below ->
  (forall p', pos p' = pos p -> symstack p' = below -> Q tt p') ->
  runs toks p pop_scope Q.
Proof.
  intros Hs HQ. unfold runs, pop_scope. rewrite Hs. simpl.
  apply HQ; reflexivity.
Qed.

Lemma grown_cons table below stack :
  grown (table :: below) stack -> exists table', stack = table' :: below.
Proof.
  destruct stack as [|t b]; simpl; [tauto|]. intros (-> & _). eauto.
Qed.

Lemma augassign_not_end tok op_str :
  lexer.dict_get TokenType_beq augassign_ops (type tok) = Some op_str ->
  type tok <> TT_ENDMARKER.
Proof. intros H E. rewrite E in H. discriminate H. Qed.

Ltac not_end :=
  first
    [ eapply keyword_not_end; eassumption
    | eapply augassign_not_end; eassumption
    | eapply type_is_not_end; [eassumption | discriminate]
    | eapply type_in_not_end;
      [eassumption | simpl; intuition discriminate] ].

Ltac grown_chain :=
  first [ assumption
        | apply grown_refl; first [assumption | congruence]
        | eapply grown_trans; [eassumption | grown_chain] ].

Ltac leaf :=
  unfold read_on, read_some, stated, stated_some, ready in *;
  repeat match goal with
         | H : _ /\ _ |- _ => destruct H
         end;
  repeat split;
  first [ assumption | lia | congruence
        | eapply grown_nonempty; eassumption
        | repeat match goal with
                 | H : symstack ?a = symstack ?b |- _ =>
                     try rewrite H in *; clear H
                 end;
          grown_chain ].

Ltac fuel_leaf :=
  unfold fuel_for, remaining, read_on, read_some, stated, stated_some, ready in *;
  repeat match goal with
         | H : _ /\ _ |- _ => destruct H
         end;
  lia.

Ltac run_call IH :=
  eapply runs_mono;
  [ apply IH; [leaf | fuel_leaf]
  | cbv beta; intros ? ? ? ].

Ltac run_step :=
  lazymatch goal with
  | |- runs _ _ (bind _ _) _ => apply runs_bind
  | |- runs _ _ (ret _) _ => apply runs_ret
  | |- runs _ _ (current _) _ => apply runs_current
  | |- runs _ _ (_is_keyword _ _) _ => apply runs_is_keyword
  | |- runs _ _ (_peek_token _ _) _ => apply runs_peek_token; intros ?
  | |- runs _ _ (_error _ _) _ => apply runs_error; leaf
  | |- runs _ _ (_advance _) _ =>
      apply runs_advance; [leaf | not_end | intros ? ? ? ?]
  | |- runs _ _ (_eat _ _) _ =>
      apply runs_eat; [leaf | discriminate | intros ? ? ? ?]
  | |- runs _ _ (_expect_keyword _ _) _ =>
      apply runs_expect_keyword; [leaf | intros ? ? ? ?]
  | |- runs _ _ (dict_index compare_mapping _) _ =>
      apply runs_compare_index; [assumption | intros ?]
  | |- runs _ _ (dict_index factor_mapping _) _ =>
      apply runs_factor_index; [assumption | intros ?]
  | |- runs _ _ (define_if_absent _ _ _) _ =>
      apply runs_define_if_absent; [leaf | intros ? ? ? ?]
  | |- runs _ _ (define_params _) _ =>
      apply runs_define_params; [leaf | intros ? ? ? ?]
  | |- runs _ _ (push_scope _) _ =>
      apply runs_push_scope; intros ? ? ?
  | |- runs _ _ (_ensure_assignable _ _) _ => unfold _ensure_assignable
  | |- runs _ _ (parse_pass_stmt _) _ => unfold parse_pass_stmt
  | |- runs _ _ (parse_break_stmt _) _ => unfold parse_break_stmt
  | |- runs _ _ (parse_continue_stmt _) _ => unfold parse_continue_stmt
  | |- runs _ _ (match ?x with _ => _ end) _ => destruct x eqn:?
  | |- runs _ _ (let _ := _ in _) _ => cbv zeta
  end.

Ltac run_calls :=
  lazymatch goal with
  | |- runs _ _ (_ _ _) _ =>
      match goal with
      | IH : forall _, _ |- _ => run_call IH
      end
  end.

Ltac run_tac := repeat first [ run_step | run_calls ]; try leaf.

Lemma runs_expr fuel :
  (forall p, ready toks p -> fuel_for toks 11 p <= fuel ->
     runs toks p (parse_expression toks fuel) (read_on toks p)) /\
  (forall p, ready toks p -> fuel_for toks 10 p <= fuel ->
     runs toks p (parse_or toks fuel) (read_on toks p)) /\
  (forall node p, ready toks p -> fuel_for toks 1 p <= fuel ->
     runs toks p (parse_or_loop toks fuel node) (read_some toks p)) /\
  (forall p, ready toks p -> fuel_for toks 9 p <= fuel ->
     runs toks p (parse_and toks fuel) (read_on toks p)) /\
  (forall node p, ready toks p -> fuel_for toks 1 p <= fuel ->
     runs toks p (parse_and_loop toks fuel node) (read_some toks p)) /\
  (forall p, ready toks p -> fuel_for toks 8 p <= fuel ->
     runs toks p (parse_not toks fuel) (read_on toks p)) /\
  (forall p, ready toks p -> fuel_for toks 7 p <= fuel ->
     runs toks p (parse_comparison toks fuel) (read_on toks p)) /\
  (forall ops comparators p, ready toks p -> fuel_for toks 1 p <= fuel ->
     runs toks p (parse_comparison_loop toks fuel ops comparators) (read_some toks p)) /\
  (forall p, ready toks p -> fuel_for toks 6 p <= fuel ->
     runs toks p (parse_arith_expr toks fuel) (read_on toks p)) /\
  (forall node p, ready toks p -> fuel_for toks 1 p <= fuel ->
     runs toks p (parse_arith_loop toks fuel node) (read_some toks p)) /\
  (forall p, ready toks p -> fuel_for toks 5 p <= fuel ->
     runs toks p (parse_term toks fuel) (read_on toks p)) /\
  (forall node p, ready toks p -> fuel_for toks 1 p <= fuel ->
     runs toks p (parse_term_loop toks fuel node) (read_some toks p)) /\
  (forall p, ready toks p -> fuel_for toks 4 p <= fuel ->
     runs toks p (parse_factor toks fuel) (read_on toks p)) /\
  (forall p, ready toks p -> fuel_for toks 3 p <= fuel ->
     runs toks p (parse_power toks fuel) (read_on toks p)) /\
  (forall p, ready toks p -> fuel_for toks 2 p <= fuel ->
     runs toks p (parse_primary toks fuel) (read_on toks p)) /\
  (forall node p, ready toks p -> fuel_for toks 1 p <= fuel ->
     runs toks p (parse_primary_loop toks fuel node) (read_some toks p)) /\
  (forall p, ready toks p -> fuel_for toks 13 p <= fuel ->
     runs toks p (parse_arglist toks fuel) (read_some toks p)) /\
  (forall args keywords p, ready toks p -> fuel_for toks 12 p <= fuel ->
     runs toks p (parse_arglist_loop toks fuel args keywords) (read_on toks p)) /\
  (forall p, ready toks p -> fuel_for toks 1 p <= fuel ->
     runs toks p (parse_atom toks fuel) (read_on toks p)).
Proof.
  induction fuel as [|fuel IH].
  { repeat split; intros; unfold fuel_for in *; lia. }
  destruct IH as (IH1 & IH2 & IH3 & IH4 & IH5 & IH6 & IH7 & IH8 & IH9 & IH10
                  & IH11 & IH12 & IH13 & IH14 & IH15 & IH16 & IH17 & IH18 & IH19).
  repeat split; intros.
  - cbn [parse_expression]. run_tac.
  - cbn [parse_or]. run_tac.
  - cbn [parse_or_loop]. run_tac.
  - cbn [parse_and]. run_tac.
  - cbn [parse_and_loop]. run_tac.
  - cbn [parse_not]. run_tac.
  - cbn [parse_comparison]. run_tac.
  - cbn [parse_comparison_loop]. run_tac.
  - cbn [parse_arith_expr]. run_tac.
  - cbn [parse_arith_loop]. run_tac.
  - cbn [parse_term]. run_tac.
  - cbn [parse_term_loop]. run_tac.
  - cbn [parse_factor]. run_tac.
  - cbn [parse_power]. run_tac.
  - cbn [parse_primary]. run_tac.
  - cbn [parse_primary_loop]. run_tac.
  - cbn [parse_arglist]. run_tac.
  - cbn [parse_arglist_loop]. run_tac.
  - cbn [parse_atom]. run_tac.
Qed.


Lemma runs_parameters_loop fuel : forall params p,
  ready toks p -> fuel_for toks 1 p <= fuel ->
  runs toks p (parameters_loop toks fuel params) (read_on toks p).
Proof.
  induction fuel as [|fuel IH]; intros params p Hr Hf.
  { unfold fuel_for in Hf. lia. }
  cbn [parameters_loop]. run_tac.
Qed.

Lemma runs_parse_parameters fuel p :
  ready toks p -> fuel_for toks 2 p <= S fuel ->
  runs toks p (parse_parameters toks fuel) (read_some toks p).
Proof.
  intros Hr Hf. pose proof (runs_parameters_loop fuel) as IH.
  unfold parse_parameters. run_tac.
Qed.

Lemma runs_parse_return_stmt fuel p :
  ready toks p -> fuel_for toks 1 p <= fuel ->
  runs toks p (parse_return_stmt toks fuel) (read_on toks p).
Proof.
  intros Hr Hf. destruct fuel as [|fuel]; [unfold fuel_for in Hf; lia|].
  destruct (runs_expr fuel) as (IH1 & _).
  cbn [parse_return_stmt]. run_tac.
Qed.

Lemma runs_parse_expr_or_assignment fuel p :
  ready toks p -> fuel_for toks 12 p <= fuel ->
  runs toks p (parse_expr_or_assignment toks fuel) (stated toks p).
Proof.
  intros Hr Hf. destruct fuel as [|fuel]; [unfold fuel_for in Hf; lia|].
  destruct (runs_expr fuel) as (IH1 & _).
  cbn [parse_expr_or_assignment]. run_tac.
Qed.

Lemma runs_parse_simple_stmt fuel p :
  ready toks p -> fuel_for toks 13 p <= fuel ->
  runs toks p (parse_simple_stmt toks fuel) (stated toks p).
Proof.
  intros Hr Hf. destruct fuel as [|fuel]; [unfold fuel_for in Hf; lia|].
  pose proof (fun p => runs_parse_return_stmt fuel p) as IHr.
  pose proof (fun p => runs_parse_expr_or_assignment fuel p) as IHe.
  cbn [parse_simple_stmt]. run_tac.
Qed.


Lemma runs_stmt fuel :
  (forall p, ready toks p -> fuel_for toks 14 p <= fuel ->
     runs toks p (parse_statement toks fuel) (stated toks p)) /\
  (forall p, ready toks p -> fuel_for toks 1 p <= fuel ->
     runs toks p (parse_if_stmt toks fuel) (stated toks p)) /\
  (forall p, ready toks p -> fuel_for toks 1 p <= fuel ->
     runs toks p (parse_if_orelse toks fuel) (stated_some toks p)) /\
  (forall p, ready toks p -> fuel_for toks 1 p <= fuel ->
     runs toks p (parse_while_stmt toks fuel) (stated toks p)) /\
  (forall p, ready toks p -> fuel_for toks 1 p <= fuel ->
     runs toks p (parse_for_stmt toks fuel) (stated toks p)) /\
  (forall p, ready toks p -> fuel_for toks 1 p <= fuel ->
     runs toks p (parse_function_def toks fuel) (stated toks p)) /\
  (forall p, ready toks p -> fuel_for toks 14 p <= fuel ->
     runs toks p (parse_block toks fuel) (stated toks p)) /\
  (forall stmts p, ready toks p -> fuel_for toks 15 p <= fuel ->
     runs toks p (parse_block_loop toks fuel stmts) (stated_some toks p)).
Proof.
  induction fuel as [|fuel IH].
  { repeat split; intros; unfold fuel_for in *; lia. }
  destruct IH as (IH1 & IH2 & IH3 & IH4 & IH5 & IH6 & IH7 & IH8).
  destruct (runs_expr fuel) as (IHe & _).
  pose proof (fun p => runs_parse_simple_stmt fuel p) as IHs.
  pose proof (fun p => runs_parse_parameters fuel p) as IHp.
  repeat split; intros.
  - cbn [parse_statement]. run_tac.
  - cbn [parse_if_stmt]. run_tac.
  - cbn [parse_if_orelse]. run_tac.
  - cbn [parse_while_stmt]. run_tac.
  - cbn [parse_for_stmt]. run_tac.
  - cbn [parse_function_def]. run_tac.
    unfold stated in *.
    repeat match goal with
           | H : _ /\ _ |- _ => destruct H
           end.
    match goal with
    | Hpush : symstack ?q = mkSymbolTable _ ∅ :: _,
      Hdef : grown (symstack ?q) (symstack ?q1),
      Hblock : grown (symstack ?q1) (symstack ?q2) |- runs _ ?q2 pop_scope _ =>
        rewrite Hpush in Hdef;
        destruct (grown_cons _ _ _ Hdef) as [t1 Ht1];
        rewrite Ht1 in Hblock;
        destruct (grown_cons _ _ _ Hblock) as [t2 Ht2];
        apply (runs_pop_scope _ _ _ _ Ht2); intros ? ? ?
    end.
    run_tac.
  - cbn [parse_block]. run_tac.
  - cbn [parse_block_loop]. run_tac.
Qed.

Lemma runs_parse_loop fuel : forall body p,
  ready toks p -> fuel_for toks 15 p <= fuel ->
  runs toks p (parse_loop toks fuel body)
    (fun _ p' => ready toks p' /\ grown (symstack p) (symstack p') /\
                 type (current_of toks p') = TT_ENDMARKER).
Proof.
  induction fuel as [|fuel IH]; intros body p Hr Hf.
  { unfold fuel_for in Hf. lia. }
  destruct (runs_stmt fuel) as (IHs & _).
  cbn [parse_loop]. run_tac.
  split; [exact Hr|]. split; [apply grown_refl; exact (proj2 Hr)|].
  apply internal_TokenType_dec_bl. assumption.
Qed.

(** The parser object that the constructor builds. *)
Lemma init_ready p : init toks = Ok p -> ready toks p /\ pos p = 0 /\
  symstack p = [mkSymbolTable "global" ∅].
Proof.
  unfold init, ready. destruct toks as [|t l]; [discriminate|].
  intros [= <-]. simpl. split; [split; [lia | discriminate] | auto].
Qed.

(** With a fuel of sixteen times the number of tokens the parser
    answers: it returns the program with the cursor on the sentinel and
    the global scope alone on the stack, or it raises a fault of a
    parse. *)
Lemma run_answers fuel :
  toks <> [] -> 16 * length toks <= fuel ->
  match run fuel toks with
  | Ok (_, p) =>
      pos p < length toks /\
      type (current_of toks p) = TT_ENDMARKER /\
      exists global, symstack p = [global] /\ scope_name global = "global"
  | Raise e => parse_fault toks e
  | OutOfFuel => False
  end.
Proof.
  intros Hne Hf. unfold run, parse.
  destruct (init toks) as [p0| |] eqn:E;
    [|unfold init in E; destruct toks; [congruence | discriminate]
     |unfold init in E; destruct toks; discriminate].
  destruct (init_ready p0 E) as (Hr & Hp & Hs).
  assert (Hf0 : fuel_for toks 15 p0 <= fuel).
  { unfold fuel_for, remaining. rewrite Hp. destruct Hr as [Hl _]. lia. }
  pose proof (runs_parse_loop fuel [] p0 Hr Hf0) as H. unfold runs in H.
  destruct (parse_loop toks fuel [] p0) as [[program p]|e|]; [|exact H|exact H].
  destruct H as ([Hl _] & Hg & Ht). split; [exact Hl|]. split; [exact Ht|].
  rewrite Hs in Hg. destruct (symstack p) as [|t b]; [destruct Hg|].
  destruct Hg as (-> & Hn & _). exists t. auto.
Qed.

End ParserRuns.

Section ParserTheorems.
Import pystr tokens symtable astnodes parser main.

Lemma run_mono toks fuel fuel' r :
  run fuel toks = r -> r <> OutOfFuel -> fuel <= fuel' -> run fuel' toks = r.
Proof.
  unfold run. intros H Hr Hle.
  destruct (init toks) as [p| |]; [|exact H|exact H].
  exact (parse_mono_le toks fuel fuel' Hle p r H Hr).
Qed.

(** X13. On a stream that ends with the sentinel, as every stream of
    the lexer does, the parser answers: a fuel of sixteen times the
    number of tokens is never exhausted. *)
Theorem parse_tokens_terminates toks fuel :
  ends_with_endmarker toks -> 16 * length toks <= fuel ->
  parse_tokens fuel toks <> OutOfFuel.
Proof.
  intros Hend Hf. unfold parse_tokens.
  destruct toks as [|t l] eqn:E; [discriminate|]. rewrite <- E in *.
  assert (Hne : toks <> []) by (rewrite E; discriminate).
  pose proof (run_answers toks Hend fuel Hne Hf) as H.
  destruct (run fuel toks) as [[program p]|e|]; [discriminate | discriminate | destruct H].
Qed.

(** X14. After a parse that returns, the cursor is on the sentinel
    and the scope stack holds the global scope alone: every scope that
    a function definition has pushed has been popped. *)
Theorem parse_leaves_global_scope toks fuel program p :
  ends_with_endmarker toks ->
  run fuel toks = Ok (program, p) ->
  type (current_of toks p) = TT_ENDMARKER /\
  exists global, symstack p = [global] /\ scope_name global = "global".
Proof.
  intros Hend H.
  assert (Hne : toks <> []).
  { intros ->. discriminate H. }
  set (fuel' := Nat.max fuel (16 * length toks)).
  assert (Hf : 16 * length toks <= fuel') by (subst fuel'; lia).
  assert (Hle : fuel <= fuel') by (subst fuel'; lia).
  pose proof (run_answers toks Hend fuel' Hne Hf) as Ha.
  rewrite (run_mono toks fuel fuel' _ H ltac:(discriminate) Hle) in Ha.
  tauto.
Qed.

(** X15. On a stream that ends with the sentinel: a [ParserError]
    that the parser raises carries a token of the stream; an error of
    the symbol table that it raises is the redeclaration of a name,
    never the fault of an empty scope stack; and it raises neither the
    [ValueError] of the constructor nor the [KeyError] of a dictionary
    indexed by an absent key. *)
Theorem parse_tokens_faults toks fuel :
  ends_with_endmarker toks -> toks <> [] ->
  (forall message tok,
      parse_tokens fuel toks = Raise (ParserError message tok) -> In tok toks) /\
  (forall err,
      parse_tokens fuel toks = Raise (SymbolError err) ->
      exists scope nm, err = Redeclared scope nm) /\
  parse_tokens fuel toks <> Raise ValueError /\
  parse_tokens fuel toks <> Raise KeyError.
Proof.
  intros Hend Hne.
  assert (Hall : forall e, parse_tokens fuel toks = Raise e -> parse_fault toks e).
  { intros e H.
    set (fuel' := Nat.max fuel (16 * length toks)).
    assert (Hf : 16 * length toks <= fuel') by (subst fuel'; lia).
    assert (Hle : fuel <= fuel') by (subst fuel'; lia).
    pose proof (run_answers toks Hend fuel' Hne Hf) as Ha.
    assert (Hr : run fuel toks = Raise e).
    { unfold parse_tokens in H. destruct (run fuel toks) as [[? ?]| |]; congruence. }
    rewrite (run_mono toks fuel fuel' _ Hr ltac:(discriminate) Hle) in Ha.
    exact Ha. }
  split; [|split; [|split]].
  - intros message tok H. exact (Hall _ H).
  - intros err H. pose proof (Hall _ H) as Ha.
    destruct err as [scope nm| |]; simpl in Ha; try contradiction. eauto.
  - intros H. exact (Hall _ H).
  - intros H. exact (Hall _ H).
Qed.

Lemma parse_loop_newlines toks fuel : forall body p,
  Forall (fun tok => type tok = TT_NEWLINE) toks ->
  pos p < length toks ->
  parse_loop toks fuel body p = OutOfFuel.
Proof.
  induction fuel as [|fuel IH]; intros body p Hall Hp; [reflexivity|].
  cbn [parse_loop]. unfold bind at 1. unfold current at 1.
  assert (Ht : type (current_of toks p) = TT_NEWLINE).
  { unfold current_of.
    exact (proj1 (List.Forall_forall _ toks) Hall _ (nth_In toks no_token Hp)). }
  unfold type_is. rewrite Ht. simpl. unfold bind, _advance.
  destruct (pos p <? length toks - 1) eqn:E.
  - apply IH; [exact Hall|]. simpl. apply Nat.ltb_lt in E. lia.
  - apply IH; assumption.
Qed.

(** X16. Without the sentinel the loop of [parse] need not end: on a
    stream of NEWLINE tokens alone every fuel is exhausted. *)
Theorem parse_tokens_newlines_diverge toks fuel :
  toks <> [] -> Forall (fun tok => type tok = TT_NEWLINE) toks ->
  parse_tokens fuel toks = OutOfFuel.
Proof.
  intros Hne Hall. unfold parse_tokens, run, parse, init.
  destruct toks as [|t l] eqn:E; [congruence|]. rewrite <- E in *.
  rewrite parse_loop_newlines; [reflexivity | exact Hall|].
  rewrite E. simpl. lia.
Qed.

End ParserTheorems.

Section ParserTrees.
Import pystr tokens symtable astnodes parser.

Variable toks : list Token.

Lemma gives_bind {A B : Type} (m : M A) (k : A -> M B) (Q1 : A -> Prop) Q2 :
  gives m Q1 -> (forall a, Q1 a -> gives (k a) Q2) -> gives (bind m k) Q2.
Proof.
  intros Hm Hk p b p' H. unfold bind in H.
  destruct (m p) as [[a p1]|e|] eqn:E; try discriminate H.
  exact (Hk a (Hm _ _ _ E) _ _ _ H).
Qed.

Lemma gives_ret {A : Type} (a : A) (Q : A -> Prop) : Q a -> gives (ret a) Q.
Proof. intros H p b p' [= <- _]. exact H. Qed.

Lemma gives_any {A : Type} (m : M A) : gives m (fun _ => True).
Proof. intros p a p' _. exact Logic.I. Qed.

Lemma gives_none {A : Type} (m : M A) (Q : A -> Prop) :
  (forall p, m p = OutOfFuel \/ exists e, m p = Raise e) -> gives m Q.
Proof. intros H p a p' E. destruct (H p) as [H1|[e H1]]; congruence. Qed.

Lemma gives_out_of_fuel {A : Type} (Q : A -> Prop) : gives (@out_of_fuel A) Q.
Proof. intros p a p' H. discriminate H. Qed.

Lemma gives_error {A : Type} message (Q : A -> Prop) :
  gives (@_error toks A message) Q.
Proof. intros p a p' H. discriminate H. Qed.

Lemma gives_dict_index d key :
  gives (dict_index d key) (fun v => In v (map snd d)).
Proof.
  intros p v p' H. unfold dict_index in H.
  destruct (lexer.dict_get TokenType_beq d key) eqn:E; [|discriminate H].
  injection H as <- _. exact (dict_get_in _ _ _ _ E).
Qed.

Lemma gives_ensure_assignable expr :
  gives (_ensure_assignable toks expr)
    (fun target => target = expr /\ assignable expr = true).
Proof.
  intros p a p' H. destruct expr; try discriminate H;
    injection H as <- _; split; reflexivity.
Qed.

Lemma one_of_in names nm : In nm names -> one_of names nm = true.
Proof.
  intros H. unfold one_of. apply existsb_exists. exists nm.
  split; [exact H | apply String.eqb_refl].
Qed.

Lemma forallb_snoc {A : Type} (f : A -> bool) xs x :
  forallb f xs = true -> f x = true -> forallb f (xs ++ [x]) = true.
Proof. intros Hxs Hx. rewrite forallb_app, Hxs. simpl. rewrite Hx. reflexivity. Qed.

Lemma extend_boolop_built op node right_expr :
  one_of boolean_operators op = true ->
  expr_built node = true -> expr_built right_expr = true ->
  expr_built (extend_boolop op node right_expr) = true.
Proof.
  intros Hop Hn Hr.
  assert (Hnew : expr_built (BoolOp op [node; right_expr]) = true).
  { change (one_of boolean_operators op && (2 <=? 2)
            && (expr_built node && (expr_built right_expr && true)) = true).
    rewrite Hop, Hn, Hr. reflexivity. }
  unfold extend_boolop.
  destruct node as [| | | | | | |op' values| | | |]; try exact Hnew.
  destruct (String.eqb op' op) eqn:E; [|exact Hnew].
  cbn [expr_built] in Hn |- *.
  apply andb_true_iff in Hn. destruct Hn as [Hn Hall].
  apply andb_true_iff in Hn. destruct Hn as [Hop0 Hlen].
  rewrite Hop0. rewrite (forallb_snoc _ _ _ Hall Hr).
  apply Nat.leb_le in Hlen.
  assert (Hlen' : (2 <=? length (values ++ [right_expr])) = true).
  { apply Nat.leb_le. rewrite length_app. simpl. lia. }
  rewrite Hlen'. reflexivity.
Qed.

Lemma compare_built node op ops comparators :
  built node -> comparison_built (op :: ops, comparators) ->
  built (Compare node (op :: ops) comparators).
Proof.
  intros Hn (Hlen & Hops & Hcs). unfold built in *. simpl fst in *. simpl snd in *.
  cbn [expr_built]. rewrite Hn, Hops, Hcs.
  apply Nat.eqb_eq in Hlen. rewrite Hlen. reflexivity.
Qed.

Lemma unary_built op operand :
  In op (map snd factor_mapping) -> built operand -> built (UnaryOp op operand).
Proof.
  intros Hop Ho. unfold built in *. cbn [expr_built]. rewrite Ho.
  simpl in Hop. destruct Hop as [<-|[<-|[<-|[]]]]; reflexivity.
Qed.

Lemma call_built func args keywords :
  built func -> arglist_built (args, keywords) -> built (Call func args keywords).
Proof.
  intros Hf [Ha Hk]. unfold built in *. simpl fst in *. simpl snd in *.
  cbn [expr_built]. rewrite Hf, Ha. exact Hk.
Qed.

Ltac built_leaf :=
  try solve [apply compare_built; assumption];
  try solve [apply call_built; assumption];
  try solve [apply unary_built; assumption];
  unfold built, comparison_built, arglist_built in *; simpl fst in *; simpl snd in *;
  repeat match goal with
         | H : _ /\ _ |- _ => destruct H
         end;
  subst;
  repeat split;
  first
    [ assumption
    | reflexivity
    | apply extend_boolop_built; first [assumption | reflexivity]
    | apply forallb_snoc; first [assumption
                                | apply one_of_in; assumption
                                | simpl; assumption ]
    | rewrite !length_app; simpl; congruence
    | cbn [expr_built keyword_built forallb];
      repeat match goal with
             | H : _ = true |- _ => rewrite H
             end;
      repeat match goal with
             | |- context [if ?b then _ else _] => destruct b
             end;
      reflexivity ].

Ltac give_first :=
  first
    [ match goal with
      | IH : forall _, _ |- _ => apply IH; built_leaf
      | IH : gives _ _ |- _ => apply IH
      end
    | apply gives_dict_index
    | apply gives_any ].

Ltac give_step :=
  lazymatch goal with
  | |- gives (bind (match _ with _ => _ end) _) _ => fail
  | |- gives (bind _ _) _ => eapply gives_bind; [give_first | cbv beta; intros ? ?]
  | |- gives (ret _) _ => apply gives_ret
  | |- gives out_of_fuel _ => apply gives_out_of_fuel
  | |- gives (_error _ _) _ => apply gives_error
  | |- gives (match ?x with _ => _ end) _ => destruct x eqn:?
  | |- gives _ _ =>
      match goal with
      | IH : forall _, _ |- _ => apply IH; built_leaf
      | IH : gives _ _ |- _ => apply IH
      end
  end.

Ltac give_tac := repeat give_step; try built_leaf.

Lemma gives_expr fuel :
  gives (parse_expression toks fuel) built /\
  gives (parse_or toks fuel) built /\
  (forall node, built node -> gives (parse_or_loop toks fuel node) built) /\
  gives (parse_and toks fuel) built /\
  (forall node, built node -> gives (parse_and_loop toks fuel node) built) /\
  gives (parse_not toks fuel) built /\
  gives (parse_comparison toks fuel) built /\
  (forall ops comparators, comparison_built (ops, comparators) ->
     gives (parse_comparison_loop toks fuel ops comparators) comparison_built) /\
  gives (parse_arith_expr toks fuel) built /\
  (forall node, built node -> gives (parse_arith_loop toks fuel node) built) /\
  gives (parse_term toks fuel) built /\
  (forall node, built node -> gives (parse_term_loop toks fuel node) built) /\
  gives (parse_factor toks fuel) built /\
  gives (parse_power toks fuel) built /\
  gives (parse_primary toks fuel) built /\
  (forall node, built node -> gives (parse_primary_loop toks fuel node) built) /\
  gives (parse_arglist toks fuel) arglist_built /\
  (forall args keywords, arglist_built (args, keywords) ->
     gives (parse_arglist_loop toks fuel args keywords) arglist_built) /\
  gives (parse_atom toks fuel) built.
Proof.
  induction fuel as [|fuel IH].
  { repeat match goal with |- _ /\ _ => split end; intros;
      apply gives_out_of_fuel. }
  destruct IH as (IH1 & IH2 & IH3 & IH4 & IH5 & IH6 & IH7 & IH8 & IH9 & IH10
                  & IH11 & IH12 & IH13 & IH14 & IH15 & IH16 & IH17 & IH18 & IH19).
  repeat match goal with |- _ /\ _ => split end; intros.
  - cbn [parse_expression]. give_tac.
  - cbn [parse_or]. give_tac.
  - cbn [parse_or_loop]. give_tac.
  - cbn [parse_and]. give_tac.
  - cbn [parse_and_loop]. give_tac.
  - cbn [parse_not]. give_tac.
  - cbn [parse_comparison]. give_tac.
  - cbn [parse_comparison_loop]. give_tac.
  - cbn [parse_arith_expr]. give_tac.
  - cbn [parse_arith_loop]. give_tac.
  - cbn [parse_term]. give_tac.
  - cbn [parse_term_loop]. give_tac.
  - cbn [parse_factor]. give_tac.
  - cbn [parse_power]. give_tac.
  - cbn [parse_primary]. give_tac.
  - cbn [parse_primary_loop]. give_tac.
  - cbn [parse_arglist]. give_tac.
  - cbn [parse_arglist_loop]. do 2 give_step.
    eapply (gives_bind _ _ arglist_built);
      [destruct (_ && _); give_tac | cbv beta; intros ? ?; give_tac].
  - cbn [parse_atom]. give_tac.
Qed.


Lemma augassign_built tok op_str target value :
  lexer.dict_get TokenType_beq augassign_ops (type tok) = Some op_str ->
  assignable target = true -> built target -> built value ->
  stmt_ok (AugAssign target op_str value).
Proof.
  intros Hop Ha Ht Hv. unfold stmt_ok, built in *. cbn [stmt_built].
  rewrite Ha, Ht, Hv.
  rewrite (one_of_in _ _ (dict_get_in _ _ _ _ Hop)). reflexivity.
Qed.

Ltac stmt_leaf :=
  repeat match goal with
         | H : _ /\ _ |- _ => destruct H
         end;
  subst;
  try solve [eapply augassign_built; eassumption];
  unfold stmt_ok, block_built, params_built, built in *;
  first
    [ assumption
    | reflexivity
    | apply forallb_snoc; first [assumption | reflexivity]
    | cbn [stmt_built forallb program_built arg_built];
      repeat match goal with
             | H : _ = true |- _ => rewrite H
             end;
      reflexivity ].

Ltac give_stmt_first :=
  first
    [ match goal with
      | IH : forall _, _ |- _ => apply IH; stmt_leaf
      | IH : gives _ _ |- _ => apply IH
      end
    | apply gives_ensure_assignable
    | apply gives_any ].

Ltac give_stmt_step :=
  lazymatch goal with
  | |- gives (bind (match _ with _ => _ end) _) _ =>
      eapply gives_bind; [apply gives_any | cbv beta; intros ? ?]
  | |- gives (bind _ _) _ =>
      eapply gives_bind; [give_stmt_first | cbv beta; intros ? ?]
  | |- gives (ret _) _ => apply gives_ret
  | |- gives out_of_fuel _ => apply gives_out_of_fuel
  | |- gives (_error _ _) _ => apply gives_error
  | |- gives (match ?x with _ => _ end) _ => destruct x eqn:?
  | |- gives (parse_pass_stmt _) _ => unfold parse_pass_stmt
  | |- gives (parse_break_stmt _) _ => unfold parse_break_stmt
  | |- gives (parse_continue_stmt _) _ => unfold parse_continue_stmt
  | |- gives _ _ =>
      match goal with
      | IH : forall _, _ |- _ => apply IH; stmt_leaf
      | IH : gives _ _ |- _ => apply IH
      end
  end.

Ltac give_stmt_tac := repeat give_stmt_step; try stmt_leaf.

Lemma gives_parameters_loop fuel : forall params,
  params_built params -> gives (parameters_loop toks fuel params) params_built.
Proof.
  induction fuel as [|fuel IH]; intros params Hp; [apply gives_out_of_fuel|].
  cbn [parameters_loop]. give_stmt_tac.
Qed.

Lemma gives_parse_parameters fuel : gives (parse_parameters toks fuel) params_built.
Proof.
  pose proof (gives_parameters_loop fuel) as IH.
  unfold parse_parameters. give_stmt_tac.
Qed.

Lemma gives_parse_return_stmt fuel : gives (parse_return_stmt toks fuel) stmt_ok.
Proof.
  destruct fuel as [|fuel]; [apply gives_out_of_fuel|].
  destruct (gives_expr fuel) as (IH1 & _).
  cbn [parse_return_stmt]. give_stmt_tac.
Qed.

Lemma gives_parse_expr_or_assignment fuel :
  gives (parse_expr_or_assignment toks fuel) stmt_ok.
Proof.
  destruct fuel as [|fuel]; [apply gives_out_of_fuel|].
  destruct (gives_expr fuel) as (IH1 & _).
  cbn [parse_expr_or_assignment]. give_stmt_tac.
Qed.

Lemma gives_parse_simple_stmt fuel : gives (parse_simple_stmt toks fuel) stmt_ok.
Proof.
  destruct fuel as [|fuel]; [apply gives_out_of_fuel|].
  pose proof (gives_parse_return_stmt fuel) as IHr.
  pose proof (gives_parse_expr_or_assignment fuel) as IHe.
  cbn [parse_simple_stmt]. do 4 give_stmt_step.
  eapply (gives_bind _ _ stmt_ok); [give_stmt_tac | cbv beta; intros ? ?; give_stmt_tac].
Qed.

Lemma gives_stmt fuel :
  gives (parse_statement toks fuel) stmt_ok /\
  gives (parse_if_stmt toks fuel) stmt_ok /\
  gives (parse_if_orelse toks fuel) block_built /\
  gives (parse_while_stmt toks fuel) stmt_ok /\
  gives (parse_for_stmt toks fuel) stmt_ok /\
  gives (parse_function_def toks fuel) stmt_ok /\
  gives (parse_block toks fuel) block_built /\
  (forall stmts, block_built stmts ->
     gives (parse_block_loop toks fuel stmts) block_built).
Proof.
  induction fuel as [|fuel IH].
  { repeat match goal with |- _ /\ _ => split end; intros;
      apply gives_out_of_fuel. }
  destruct IH as (IH1 & IH2 & IH3 & IH4 & IH5 & IH6 & IH7 & IH8).
  destruct (gives_expr fuel) as (IHe & _).
  pose proof (gives_parse_simple_stmt fuel) as IHs.
  pose proof (gives_parse_parameters fuel) as IHp.
  repeat match goal with |- _ /\ _ => split end; intros.
  - cbn [parse_statement]. give_stmt_tac.
  - cbn [parse_if_stmt]. give_stmt_tac.
  - cbn [parse_if_orelse]. give_stmt_tac.
  - cbn [parse_while_stmt]. do 5 give_stmt_step.
    eapply (gives_bind _ _ block_built);
      [give_stmt_tac | cbv beta; intros ? ?; give_stmt_tac].
  - cbn [parse_for_stmt]. do 7 give_stmt_step.
    eapply (gives_bind _ _ block_built);
      [give_stmt_tac | cbv beta; intros ? ?; give_stmt_tac].
  - cbn [parse_function_def]. give_stmt_tac.
  - cbn [parse_block]. give_stmt_tac.
  - cbn [parse_block_loop]. give_stmt_tac.
Qed.

Lemma gives_parse_loop fuel : forall body,
  block_built body ->
  gives (parse_loop toks fuel body) (fun program => program_built program = true).
Proof.
  induction fuel as [|fuel IH]; intros body Hb; [apply gives_out_of_fuel|].
  destruct (gives_stmt fuel) as (IHs & _).
  cbn [parse_loop]. give_stmt_tac.
Qed.

End ParserTrees.

Lemma parse_tokens_built toks fuel program :
  parser.parse_tokens fuel toks = Ok program -> program_built program = true.
Proof.
  unfold parser.parse_tokens, parser.run, parser.parse. intros H.
  destruct (parser.init toks) as [p| |]; try discriminate H.
  destruct (parser.parse_loop toks fuel [] p) as [[program' p']|e|] eqn:E;
    try discriminate H.
  injection H as <-.
  exact (gives_parse_loop toks fuel [] eq_refl _ _ _ E).
Qed.

(** X17. The trees of the parser: whatever the tokens, a program that
    the parser returns is built of the operators of its tables, of
    boolean chains of two operands at least, of comparison chains with
    as many operators as comparators, of subscripts by one index, of
    assignments to one assignable target and of function definitions
    with bare parameters. *)
Theorem parse_tokens_builds_well_formed_trees toks fuel program :
  parser.parse_tokens fuel toks = Ok program -> program_built program = true.
Proof. exact (parse_tokens_built toks fuel program). Qed.

Section TreeInduction.
Import astnodes.

(** Induction on expressions, with the hypothesis for the operands
    that sit in lists and in slices. *)
Lemma Expr_nested_ind (P : Expr -> Prop) :
  (forall id, P (Name id)) ->
  (forall value, P (Num value)) ->
  (forall value, P (Str value)) ->
  (forall value, P (Bool value)) ->
  P NoneLiteral ->
  (forall left_expr op right_expr,
      P left_expr -> P right_expr -> P (BinOp left_expr op right_expr)) ->
  (forall op operand, P operand -> P (UnaryOp op operand)) ->
  (forall op values, Forall P values -> P (BoolOp op values)) ->
  (forall left_expr ops comparators,
      P left_expr -> Forall P comparators -> P (Compare left_expr ops comparators)) ->
  (forall func args keywords,
      P func -> Forall P args -> P (Call func args keywords)) ->
  (forall value attr, P value -> P (Attribute value attr)) ->
  (forall value start stop step,
      P value ->
      (forall e, start = Some e -> P e) ->
      (forall e, stop = Some e -> P e) ->
      (forall e, step = Some e -> P e) ->
      P (Subscript value (Slice start stop step))) ->
  forall e, P e.
Proof.
  intros HName HNum HStr HBool HNone HBinOp HUnaryOp HBoolOp HCompare HCall
         HAttribute HSubscript.
  fix IH 1.
  intros [id|value|value|value| |left_expr op right_expr|op operand|op values
         |left_expr ops comparators|func args keywords|value attr
         |value [start stop step]].
  - apply HName.
  - apply HNum.
  - apply HStr.
  - apply HBool.
  - apply HNone.
  - apply HBinOp; apply IH.
  - apply HUnaryOp; apply IH.
  - apply HBoolOp. induction values as [|v values IHv]; constructor;
      [apply IH | exact IHv].
  - apply HCompare; [apply IH|].
    induction comparators as [|v comparators IHv]; constructor;
      [apply IH | exact IHv].
  - apply HCall; [apply IH|].
    induction args as [|v args IHv]; constructor; [apply IH | exact IHv].
  - apply HAttribute; apply IH.
  - apply HSubscript; [apply IH| | |].
    + destruct start as [s|]; intros e Heq; [|discriminate Heq].
      replace e with s by congruence. apply IH.
    + destruct stop as [s|]; intros e Heq; [|discriminate Heq].
      replace e with s by congruence. apply IH.
    + destruct step as [s|]; intros e Heq; [|discriminate Heq].
      replace e with s by congruence. apply IH.
Qed.

(** Induction on statements, with the hypothesis for the statements
    of the bodies. *)
Lemma Stmt_nested_ind (P : Stmt -> Prop) :
  (forall value, P (ExprStmt value)) ->
  (forall targets value, P (Assign targets value)) ->
  (forall target op value, P (AugAssign target op value)) ->
  (forall value, P (Return value)) ->
  P Pass -> P Break -> P Continue ->
  (forall test body orelse,
      Forall P body -> Forall P orelse -> P (If test body orelse)) ->
  (forall test body orelse,
      Forall P body -> Forall P orelse -> P (While test body orelse)) ->
  (forall target iter body orelse,
      Forall P body -> Forall P orelse -> P (For target iter body orelse)) ->
  (forall name args body returns decorators,
      Forall P body -> P (FunctionDef name args body returns decorators)) ->
  forall s, P s.
Proof.
  intros HExprStmt HAssign HAugAssign HReturn HPass HBreak HContinue HIf HWhile
         HFor HFunctionDef.
  fix IH 1.
  assert (Hall : forall stmts, Forall P stmts).
  { intros stmts. induction stmts as [|s stmts IHs]; constructor;
      [apply IH | exact IHs]. }
  intros [value|targets value|target op value|value| | | |test body orelse
         |test body orelse|target iter body orelse
         |name args body returns decorators].
  - apply HExprStmt.
  - apply HAssign.
  - apply HAugAssign.
  - apply HReturn.
  - apply HPass.
  - apply HBreak.
  - apply HContinue.
  - apply HIf; apply Hall.
  - apply HWhile; apply Hall.
  - apply HFor; apply Hall.
  - apply HFunctionDef; apply Hall.
Qed.

End TreeInduction.

Section GeneratorLowering.
Import pystr astnodes codegen3ac.

Variable repr_float : string -> string.
Variable repr_str : string -> string.


Lemma straight_line_refl g : straight_line g g.
Proof.
  exists []. rewrite app_nil_r, Nat.sub_diag. repeat split; auto.
Qed.

Lemma assigned_app xs ys : assigned (xs ++ ys) = assigned xs ++ assigned ys.
Proof. apply omap_app. Qed.

Lemma straight_line_trans g1 g2 g3 :
  straight_line g1 g2 -> straight_line g2 g3 -> straight_line g1 g3.
Proof.
  intros (n1 & Hc1 & Hl1 & Hb1 & Hk1 & Hf1 & Ht1 & Ha1)
         (n2 & Hc2 & Hl2 & Hb2 & Hk2 & Hf2 & Ht2 & Ha2).
  exists (n1 ++ n2). split; [rewrite Hc2, Hc1, app_assoc; reflexivity|].
  split; [congruence|]. split; [congruence|]. split; [congruence|].
  split; [apply Forall_app; split; assumption|]. split; [lia|].
  rewrite assigned_app, Ha1, Ha2, <- map_app. f_equal.
  replace (temp_count g3 - temp_count g1)
    with ((temp_count g2 - temp_count g1) + (temp_count g3 - temp_count g2)) by lia.
  rewrite seq_app. f_equal. f_equal. lia.
Qed.

(** One instruction into a fresh temporary. *)
Lemma straight_line_temp g op a1 a2 :
  straight_line g
    (emit op a1 a2 (Some (fst (new_temp g))) None None (snd (new_temp g))).
Proof.
  eexists. split; [reflexivity|]. simpl.
  repeat split; try reflexivity; try lia.
  - repeat constructor.
  - replace (S (temp_count g) - temp_count g) with 1 by lia. reflexivity.
Qed.

Lemma straight_line_param g place :
  straight_line g (emit "param" (Some place) None None None None g).
Proof.
  eexists. split; [reflexivity|]. simpl.
  repeat split; try reflexivity; try lia.
  - repeat constructor.
  - rewrite Nat.sub_diag. reflexivity.
Qed.

Lemma straight_line_step g1 g2 op a1 a2 :
  straight_line g1 g2 ->
  straight_line g1
    (emit op a1 a2 (Some (fst (new_temp g2))) None None (snd (new_temp g2))).
Proof.
  intros H. eapply straight_line_trans; [exact H | apply straight_line_temp].
Qed.

Ltac sl_visit :=
  match goal with
  | IH : lowers _ _ ?e |- context [codegen3ac.visit_expr _ _ ?e ?g0] =>
      let H := fresh "H" in
      pose proof (IH g0) as H;
      destruct (codegen3ac.visit_expr repr_float repr_str e g0) as [? ?];
      cbn [snd fst] in H; cbv beta iota zeta
  end.

Ltac sl_chain :=
  first [ assumption
        | apply straight_line_refl
        | eapply straight_line_trans; [eassumption | sl_chain] ].

Ltac sl_finish :=
  first [ sl_chain
        | apply straight_line_step; sl_chain ].

Lemma boolop_loop_lowers op values :
  Forall (lowers repr_float repr_str) values ->
  forall temp g,
    straight_line g (snd (boolop_loop (visit_expr repr_float repr_str) op values temp g)).
Proof.
  induction 1 as [|e values He _ IH]; intros temp g; cbn [boolop_loop].
  { apply straight_line_refl. }
  sl_visit.
  eapply straight_line_trans; [|apply IH].
  apply straight_line_step. sl_chain.
Qed.

Lemma compare_loop_lowers comparators :
  Forall (lowers repr_float repr_str) comparators ->
  forall ops current_left g,
    straight_line g
      (snd (compare_loop (visit_expr repr_float repr_str) ops comparators current_left g)).
Proof.
  induction 1 as [|e comparators He _ IH]; intros ops current_left g;
    cbn [compare_loop].
  { apply straight_line_refl. }
  destruct ops as [|op_str ops]; [apply straight_line_refl|].
  sl_visit.
  eapply straight_line_trans; [|apply IH].
  apply straight_line_step. sl_chain.
Qed.

Lemma args_loop_lowers args :
  Forall (lowers repr_float repr_str) args ->
  forall arg_places g,
    straight_line g (snd (args_loop (visit_expr repr_float repr_str) args arg_places g)).
Proof.
  induction 1 as [|e args He _ IH]; intros arg_places g; cbn [args_loop].
  { apply straight_line_refl. }
  sl_visit. eapply straight_line_trans; [eassumption | apply IH].
Qed.

Lemma emit_params_lowers arg_places : forall g,
  straight_line g (emit_params arg_places g).
Proof.
  induction arg_places as [|place rest IH]; intros g; cbn [emit_params].
  { apply straight_line_refl. }
  eapply straight_line_trans; [apply straight_line_param | apply IH].
Qed.

Lemma visit_or_none_lowers e g :
  (forall e', e = Some e' -> (lowers repr_float repr_str) e') ->
  straight_line g (snd (visit_or_none (visit_expr repr_float repr_str) e g)).
Proof.
  intros H. destruct e as [e'|]; simpl; [|apply straight_line_refl].
  apply (H e' eq_refl).
Qed.

Lemma visit_expr_lowers e : (lowers repr_float repr_str) e.
Proof.
  induction e as [id|value|value|value| |left_expr op right_expr IHl IHr
                 |op operand IHo|op values IHv
                 |left_expr ops comparators IHl IHc|func args keywords IHf IHa
                 |value attr IHv|value start stop step IHv Hstart Hstop Hstep]
    using Expr_nested_ind; intros g; cbn [visit_expr].
  - apply straight_line_refl.
  - apply straight_line_refl.
  - apply straight_line_refl.
  - apply straight_line_refl.
  - apply straight_line_refl.
  - unfold visit_binop. repeat sl_visit. sl_finish.
  - unfold visit_unaryop. repeat sl_visit. sl_finish.
  - unfold visit_boolop. destruct values as [|first others];
      [apply straight_line_refl|].
    inversion IHv as [|? ? Hfirst Hothers]; subst.
    sl_visit.
    eapply straight_line_trans; [eassumption | apply boolop_loop_lowers; assumption].
  - unfold visit_compare. sl_visit.
    destruct ops as [|op_str ops]; [assumption|].
    destruct comparators as [|first_comparator comparators]; [assumption|].
    eapply straight_line_trans; [eassumption|].
    apply compare_loop_lowers. assumption.
  - unfold visit_call.
    pose proof (args_loop_lowers args IHa [] g) as Hargs.
    destruct (args_loop (visit_expr repr_float repr_str) args [] g) as [arg_places g1].
    cbn [snd] in Hargs. cbv beta iota zeta.
    pose proof (emit_params_lowers arg_places g1) as Hparams.
    sl_visit. sl_finish.
  - unfold visit_attribute. repeat sl_visit. sl_finish.
  - unfold visit_subscript.
    pose proof (IHv g) as H1.
    destruct (visit_expr repr_float repr_str value g) as [value_place g1].
    cbn [snd] in H1. cbv beta iota zeta.
    pose proof (fun g => visit_or_none_lowers start g Hstart) as V1.
    pose proof (fun g => visit_or_none_lowers stop g Hstop) as V2.
    pose proof (fun g => visit_or_none_lowers step g Hstep) as V3.
    assert (Hslice :
      straight_line g
        (snd (let '(start, g) := visit_or_none (visit_expr repr_float repr_str) start g1 in
              let '(stop, g) := visit_or_none (visit_expr repr_float repr_str) stop g in
              let '(step, g) := visit_or_none (visit_expr repr_float repr_str) step g in
              let '(result, g) := new_temp g in
              (result,
               emit "slice" (Some value_place)
                 (Some ("(" +:+ start +:+ "," +:+ stop +:+ "," +:+ step +:+ ")"))
                 (Some result) None None g)))).
    { pose proof (V1 g1) as S1.
      destruct (visit_or_none (visit_expr repr_float repr_str) start g1) as [p1 g2].
      pose proof (V2 g2) as S2.
      destruct (visit_or_none (visit_expr repr_float repr_str) stop g2) as [p2 g3].
      pose proof (V3 g3) as S3.
      destruct (visit_or_none (visit_expr repr_float repr_str) step g3) as [p3 g4].
      cbn [snd] in S1, S2, S3. cbv beta iota zeta. sl_finish. }
    destruct start as [index|]; [|exact Hslice].
    destruct stop as [stop_expr|]; [exact Hslice|].
    destruct step as [step_expr|]; [exact Hslice|].
    clear Hslice. pose proof (V1 g1) as S1. cbn [visit_or_none snd] in S1.
    destruct (visit_expr repr_float repr_str index g1) as [index_place g2].
    cbn [snd] in S1. cbv beta iota zeta. sl_finish.
Qed.

End GeneratorLowering.

Section GeneratorStatements.
Import pystr astnodes codegen3ac.

Variable repr_float : string -> string.
Variable repr_str : string -> string.

Lemma temp_name_inj a b : temp_name a = temp_name b -> a = b.
Proof.
  unfold temp_name. intros H.
  change (String "t" (pretty a) = String "t" (pretty b)) in H.
  injection H as H. exact (pretty_nat_inj _ _ H).
Qed.

Lemma temp_names_distinct n : forall a, List.NoDup (map temp_name (seq a n)).
Proof.
  induction n as [|n IH]; intros a; simpl; [apply List.NoDup_nil|].
  apply List.NoDup_cons; [|apply IH].
  intros Hin. apply in_map_iff in Hin. destruct Hin as (k & Hk & Hin).
  apply temp_name_inj in Hk. apply in_seq in Hin. lia.
Qed.

(** X18. The lowering of an expression is straight-line code: it
    appends instructions without labels, leaves the label counter and
    the loop stacks alone, and assigns the next temporaries in order,
    each of them once. *)
Theorem expression_lowering_is_straight_line e g :
  exists new,
    code (snd (visit_expr repr_float repr_str e g)) = code g ++ new /\
    label_count (snd (visit_expr repr_float repr_str e g)) = label_count g /\
    break_stack (snd (visit_expr repr_float repr_str e g)) = break_stack g /\
    continue_stack (snd (visit_expr repr_float repr_str e g)) = continue_stack g /\
    Forall (fun instr => label instr = None) new /\
    assigned new
      = map temp_name
          (seq (S (temp_count g))
             (temp_count (snd (visit_expr repr_float repr_str e g)) - temp_count g)) /\
    List.NoDup (assigned new).
Proof.
  destruct (visit_expr_lowers repr_float repr_str e g)
    as (new & Hc & Hl & Hb & Hk & Hf & Ht & Ha).
  exists new. repeat (split; [assumption|]).
  rewrite Ha. apply temp_names_distinct.
Qed.

Lemma get_lvalue_place_lowers target g place g' :
  get_lvalue_place repr_float repr_str target g = Ok (place, g') ->
  straight_line g g'.
Proof.
  destruct target as [id| | | | | | | | | |value attr|value [start stop step]];
    try discriminate; cbn [get_lvalue_place].
  - intros [= _ <-]. apply straight_line_refl.
  - pose proof (visit_expr_lowers repr_float repr_str value g) as H.
    destruct (visit_expr repr_float repr_str value g) as [base g1].
    intros [= _ <-]. exact H.
  - pose proof (visit_expr_lowers repr_float repr_str value g) as H.
    destruct (visit_expr repr_float repr_str value g) as [base g1].
    cbn [snd] in H.
    assert (Hslice : forall place g',
      (let '(start, g) := visit_or_none (visit_expr repr_float repr_str) start g1 in
       let '(stop, g) := visit_or_none (visit_expr repr_float repr_str) stop g in
       let '(step, g) := visit_or_none (visit_expr repr_float repr_str) step g in
       Ok (base +:+ "[" +:+ start +:+ ":" +:+ stop +:+ ":" +:+ step +:+ "]", g))
        = (Ok (place, g') : Result GenExn _) ->
      straight_line g g').
    { intros pl gl.
      pose proof (visit_or_none_lowers repr_float repr_str start g1
                    (fun e _ => visit_expr_lowers repr_float repr_str e)) as S1.
      destruct (visit_or_none (visit_expr repr_float repr_str) start g1) as [p1 g2].
      pose proof (visit_or_none_lowers repr_float repr_str stop g2
                    (fun e _ => visit_expr_lowers repr_float repr_str e)) as S2.
      destruct (visit_or_none (visit_expr repr_float repr_str) stop g2) as [p2 g3].
      pose proof (visit_or_none_lowers repr_float repr_str step g3
                    (fun e _ => visit_expr_lowers repr_float repr_str e)) as S3.
      destruct (visit_or_none (visit_expr repr_float repr_str) step g3) as [p3 g4].
      cbn [snd] in S1, S2, S3. intros [= _ <-].
      eapply straight_line_trans; [exact H|].
      eapply straight_line_trans; [exact S1|].
      eapply straight_line_trans; [exact S2 | exact S3]. }
    destruct start as [index|]; [|apply Hslice].
    destruct stop as [stop_expr|]; [apply Hslice|].
    destruct step as [step_expr|]; [apply Hslice|].
    pose proof (visit_expr_lowers repr_float repr_str index g1) as S1.
    destruct (visit_expr repr_float repr_str index g1) as [index_place g2].
    intros [= _ <-]. eapply straight_line_trans; [exact H | exact S1].
Qed.

Lemma get_lvalue_place_result target g :
  match get_lvalue_place repr_float repr_str target g with
  | Ok _ => assignable target = true
  | Raise NotImplementedError => assignable target = false
  | OutOfFuel => False
  end.
Proof.
  destruct target as [id| | | | | | | | | |value attr|value [start stop step]];
    cbn [get_lvalue_place assignable]; try reflexivity.
  - destruct (visit_expr repr_float repr_str value g). reflexivity.
  - destruct (visit_expr repr_float repr_str value g) as [base g1].
    assert (Hslice :
      match
        (let '(start, g) := visit_or_none (visit_expr repr_float repr_str) start g1 in
         let '(stop, g) := visit_or_none (visit_expr repr_float repr_str) stop g in
         let '(step, g) := visit_or_none (visit_expr repr_float repr_str) step g in
         Ok (base +:+ "[" +:+ start +:+ ":" +:+ stop +:+ ":" +:+ step +:+ "]", g)
         : Result GenExn (string * CodeGenerator3AC))
      with
      | Ok _ => true = true
      | Raise NotImplementedError => true = false
      | OutOfFuel => False
      end).
    { destruct (visit_or_none (visit_expr repr_float repr_str) start g1) as [p1 g2].
      destruct (visit_or_none (visit_expr repr_float repr_str) stop g2) as [p2 g3].
      destruct (visit_or_none (visit_expr repr_float repr_str) step g3) as [p3 g4].
      reflexivity. }
    destruct start as [index|]; [|exact Hslice].
    destruct stop as [stop_expr|]; [exact Hslice|].
    destruct step as [step_expr|]; [exact Hslice|].
    destruct (visit_expr repr_float repr_str index g1). reflexivity.
Qed.

Lemma straight_line_extended g g' : straight_line g g' -> extended g g'.
Proof.
  intros (new & Hc & Hl & Hb & Hk & _ & Ht & _).
  split; [eauto|]. split; [exact Ht|]. split; [lia|]. auto.
Qed.

Lemma extended_refl g : extended g g.
Proof.
  split; [exists []; rewrite app_nil_r; reflexivity|]. auto.
Qed.

Lemma extended_trans g1 g2 g3 : extended g1 g2 -> extended g2 g3 -> extended g1 g3.
Proof.
  intros ([n1 Hc1] & Ht1 & Hl1 & Hb1 & Hk1) ([n2 Hc2] & Ht2 & Hl2 & Hb2 & Hk2).
  split; [exists (n1 ++ n2); rewrite Hc2, Hc1, app_assoc; reflexivity|].
  split; [lia|]. split; [lia|]. split; congruence.
Qed.

Lemma for_each_extended (visit : Stmt -> CodeGenerator3AC -> Result GenExn CodeGenerator3AC)
      body :
  Forall (fun s => forall g g', visit s g = Ok g' -> extended g g') body ->
  forall g g', for_each visit body g = Ok g' -> extended g g'.
Proof.
  induction 1 as [|s body Hs _ IH]; intros g g'; cbn [for_each].
  { intros [= <-]. apply extended_refl. }
  destruct (visit s g) as [g1| |] eqn:E; try discriminate.
  intros H. eapply extended_trans; [exact (Hs _ _ E) | exact (IH _ _ H)].
Qed.

Lemma new_temp_facts g t g1 :
  new_temp g = (t, g1) ->
  t = temp_name (S (temp_count g)) /\ code g1 = code g /\
  temp_count g1 = S (temp_count g) /\ label_count g1 = label_count g /\
  break_stack g1 = break_stack g /\ continue_stack g1 = continue_stack g.
Proof. intros [= <- <-]. repeat split. Qed.

Lemma new_label_facts prefix g l g1 :
  new_label prefix g = (l, g1) ->
  l = prefix +:+ pretty (S (label_count g)) /\ code g1 = code g /\
  temp_count g1 = temp_count g /\ label_count g1 = S (label_count g) /\
  break_stack g1 = break_stack g /\ continue_stack g1 = continue_stack g.
Proof. intros [= <- <-]. repeat split. Qed.

Lemma emit_facts o a b r l c g g1 :
  g1 = emit o a b r l c g ->
  code g1 = code g ++ [mkTACInstr o a b r l c] /\
  temp_count g1 = temp_count g /\ label_count g1 = label_count g /\
  break_stack g1 = break_stack g /\ continue_stack g1 = continue_stack g.
Proof. intros ->. repeat split. Qed.

Lemma push_loop_facts c b g g1 :
  g1 = push_loop c b g ->
  code g1 = code g /\
  temp_count g1 = temp_count g /\ label_count g1 = label_count g /\
  break_stack g1 = b :: break_stack g /\
  continue_stack g1 = c :: continue_stack g.
Proof. intros ->. repeat split. Qed.

Lemma pop_loop_facts g g1 :
  g1 = pop_loop g ->
  code g1 = code g /\
  temp_count g1 = temp_count g /\ label_count g1 = label_count g /\
  break_stack g1 = tail (break_stack g) /\
  continue_stack g1 = tail (continue_stack g).
Proof. intros ->. repeat split. Qed.

Lemma emit_formals_extended formals : forall g, extended g (emit_formals formals g).
Proof.
  induction formals as [|a formals IH]; intros g; cbn [emit_formals];
    [apply extended_refl|].
  eapply extended_trans; [|apply IH].
  split; [eexists; reflexivity|]. simpl. auto.
Qed.

Ltac unpack :=
  repeat match goal with
         | H : Forall _ _ |- _ => clear H
         end;
  unfold extended, straight_line in *;
  repeat match goal with
         | H : exists _, _ |- _ => destruct H
         | H : _ /\ _ |- _ => destruct H
         end.

Ltac code_solve :=
  eexists;
  repeat match goal with
         | H : code ?x = _ |- _ => rewrite H; clear H
         end;
  repeat rewrite <- app_assoc; reflexivity.

Ltac stack_solve :=
  repeat match goal with
         | H : break_stack ?x = _ |- _ => rewrite H; clear H
         | H : continue_stack ?x = _ |- _ => rewrite H; clear H
         end;
  reflexivity.

Ltac ext_solve :=
  unpack;
  split; [code_solve|];
  split; [lia|]; split; [lia|];
  split; stack_solve.

Ltac state_step :=
  match goal with
  | |- context [visit_expr repr_float repr_str ?e ?g0] =>
      is_var g0;
      let H := fresh "H" in
      pose proof (visit_expr_lowers repr_float repr_str e g0) as H;
      destruct (visit_expr repr_float repr_str e g0) as [? ?];
      cbn [snd] in H; cbv beta iota zeta
  | |- context [get_lvalue_place repr_float repr_str ?e ?g0] =>
      is_var g0;
      let E := fresh "E" in
      destruct (get_lvalue_place repr_float repr_str e g0) as [[? ?]| |] eqn:E;
      [apply get_lvalue_place_lowers in E | |];
      cbn [and_then]; try discriminate; cbv beta iota zeta
  | |- context [new_temp ?g0] =>
      is_var g0;
      let E := fresh "E" in
      destruct (new_temp g0) as [? ?] eqn:E; apply new_temp_facts in E;
      cbv beta iota zeta
  | |- context [new_label ?prefix ?g0] =>
      is_var g0;
      let E := fresh "E" in
      destruct (new_label prefix g0) as [? ?] eqn:E; apply new_label_facts in E;
      cbv beta iota zeta
  | |- context [emit ?o ?a ?b ?r ?l ?c ?g0] =>
      is_var g0;
      let E := fresh "E" in
      let gn := fresh "g" in
      remember (emit o a b r l c g0) as gn eqn:E; apply emit_facts in E
  | |- context [emit_label ?l ?g0] => is_var g0; unfold emit_label at 1
  | |- context [push_loop ?c ?b ?g0] =>
      is_var g0;
      let E := fresh "E" in
      let gn := fresh "g" in
      remember (push_loop c b g0) as gn eqn:E; apply push_loop_facts in E
  | |- context [pop_loop ?g0] =>
      is_var g0;
      let E := fresh "E" in
      let gn := fresh "g" in
      remember (pop_loop g0) as gn eqn:E; apply pop_loop_facts in E
  | |- context [emit_formals ?formals ?g0] =>
      is_var g0;
      let H := fresh "H" in
      let gn := fresh "g" in
      pose proof (emit_formals_extended formals g0) as H;
      generalize dependent (emit_formals formals g0); intros gn H
  | IH : Forall _ ?body |- context [for_each _ ?body ?g0] =>
      is_var g0;
      let E := fresh "E" in
      destruct (for_each (visit_stmt repr_float repr_str) body g0) as [?| |] eqn:E;
      cbn [and_then]; try discriminate;
      apply (for_each_extended _ _ IH) in E
  end.

Lemma visit_stmt_extended s : forall g g',
  visit_stmt repr_float repr_str s g = Ok g' -> extended g g'.
Proof.
  induction s as [value|targets value|target op value|value| | |
                 |test body orelse IHb IHo|test body orelse IHb IHo
                 |target iter body orelse IHb IHo
                 |name args body returns decorators IHb]
    using Stmt_nested_ind; intros g g'; cbn [visit_stmt].
  - unfold visit_exprstmt. intros [= <-].
    apply straight_line_extended, visit_expr_lowers.
  - unfold visit_assign. state_step.
    destruct targets as [|target targets].
    + intros [= <-]. apply straight_line_extended. assumption.
    + repeat state_step. intros [= <-]. ext_solve.
  - unfold visit_augassign. repeat state_step. intros [= <-]. ext_solve.
  - unfold visit_return. destruct value as [value|].
    + repeat state_step. intros [= <-]. ext_solve.
    + repeat state_step. intros [= <-]. ext_solve.
  - intros [= <-]. apply extended_refl.
  - unfold visit_break. destruct (break_stack g) eqn:E;
      repeat state_step; intros [= <-]; ext_solve.
  - unfold visit_continue. destruct (continue_stack g) eqn:E;
      repeat state_step; intros [= <-]; ext_solve.
  - unfold visit_if. do 5 state_step.
    destruct orelse as [|else_stmt orelse].
    + cbn [for_each and_then]. repeat state_step. intros [= <-]. ext_solve.
    + repeat state_step. intros [= <-]. ext_solve.
  - unfold visit_while. repeat state_step. intros [= <-]. ext_solve.
  - unfold visit_for. repeat state_step. intros [= <-]. ext_solve.
  - unfold visit_functiondef. repeat state_step. intros [= <-]. ext_solve.
Qed.

End GeneratorStatements.

Section GeneratorSupport.
Import pystr astnodes codegen3ac.

Variable repr_float : string -> string.
Variable repr_str : string -> string.

Lemma for_each_answers body :
  Forall (answers repr_float repr_str) body ->
  forall g,
    match for_each (visit_stmt repr_float repr_str) body g with
    | Ok _ => forallb stmt_supported body = true
    | Raise NotImplementedError => forallb stmt_supported body = false
    | OutOfFuel => False
    end.
Proof.
  induction 1 as [|s body Hs _ IH]; intros g; cbn [for_each forallb].
  { reflexivity. }
  specialize (Hs g).
  destruct (visit_stmt repr_float repr_str s g) as [g1|[]|]; [|rewrite Hs; reflexivity|exact Hs].
  rewrite Hs. exact (IH g1).
Qed.

Ltac answer_step :=
  match goal with
  | |- context [visit_expr repr_float repr_str ?e ?g0] =>
      destruct (visit_expr repr_float repr_str e g0) as [? ?]; cbv beta iota zeta
  | |- context [get_lvalue_place repr_float repr_str ?e ?g0] =>
      let H := fresh "H" in
      pose proof (get_lvalue_place_result repr_float repr_str e g0) as H;
      destruct (get_lvalue_place repr_float repr_str e g0) as [[? ?]|[]|];
      cbn [and_then]; cbv beta iota zeta
  | IH : Forall _ ?body |- context [for_each _ ?body ?g0] =>
      let H := fresh "H" in
      pose proof (for_each_answers body IH g0) as H;
      destruct (for_each (visit_stmt repr_float repr_str) body g0) as [?|[]|];
      cbn [and_then]; cbv beta iota zeta
  | |- context [new_temp ?g0] =>
      destruct (new_temp g0) as [? ?]; cbv beta iota zeta
  | |- context [new_label ?prefix ?g0] =>
      destruct (new_label prefix g0) as [? ?]; cbv beta iota zeta
  end.

Ltac answer_leaf :=
  cbn [stmt_supported];
  repeat match goal with
         | H : _ = true |- _ => rewrite H
         | H : _ = false |- _ => rewrite H
         end;
  rewrite ?andb_false_r;
  first [reflexivity | assumption | contradiction].

Lemma visit_stmt_answers s : (answers repr_float repr_str) s.
Proof.
  induction s as [value|targets value|target op value|value| | |
                 |test body orelse IHb IHo|test body orelse IHb IHo
                 |target iter body orelse IHb IHo
                 |name args body returns decorators IHb]
    using Stmt_nested_ind; intros g; cbn [visit_stmt].
  - reflexivity.
  - unfold visit_assign. answer_step. destruct targets as [|target targets];
      [reflexivity|]. answer_step; answer_leaf.
  - unfold visit_augassign. answer_step; [repeat answer_step| |]; answer_leaf.
  - unfold visit_return. destruct value; [answer_step|]; reflexivity.
  - reflexivity.
  - unfold visit_break. destruct (break_stack g); reflexivity.
  - unfold visit_continue. destruct (continue_stack g); reflexivity.
  - unfold visit_if. repeat answer_step; try answer_leaf.
    destruct orelse; answer_leaf.
  - unfold visit_while. repeat answer_step; answer_leaf.
  - unfold visit_for. repeat answer_step; answer_leaf.
  - unfold visit_functiondef. repeat answer_step; answer_leaf.
Qed.

End GeneratorSupport.

Section GeneratorJumps.
Import pystr astnodes codegen3ac.

Variable repr_float : string -> string.
Variable repr_str : string -> string.

Lemma jump_targets_app xs ys :
  jump_targets (xs ++ ys) = jump_targets xs ++ jump_targets ys.
Proof. apply omap_app. Qed.

Lemma defined_labels_app xs ys :
  defined_labels (xs ++ ys) = defined_labels xs ++ defined_labels ys.
Proof. apply omap_app. Qed.

Lemma calm_refl g : calm g g.
Proof. exists []. rewrite app_nil_r. auto. Qed.

Lemma calm_trans g1 g2 g3 : calm g1 g2 -> calm g2 g3 -> calm g1 g3.
Proof.
  intros (n1 & Hc1 & Hj1) (n2 & Hc2 & Hj2). exists (n1 ++ n2).
  split; [rewrite Hc2, Hc1, app_assoc; reflexivity|].
  rewrite jump_targets_app, Hj1, Hj2. reflexivity.
Qed.

Lemma calm_emit g o a b r l c :
  no_jump o = true -> calm g (emit o a b r l c g).
Proof.
  intros H. eexists. split; [reflexivity|].
  unfold jump_targets, jump_target. simpl.
  apply negb_true_iff in H. rewrite H. reflexivity.
Qed.

Lemma calm_step g1 g2 o a b r :
  no_jump o = true -> calm g1 g2 ->
  calm g1 (emit o a b r None None (snd (new_temp g2))).
Proof.
  intros Ho H. eapply calm_trans; [exact H|].
  eapply calm_trans; [|apply calm_emit; exact Ho].
  exists []. rewrite app_nil_r. auto.
Qed.

Lemma one_of_no_jump names o :
  forallb no_jump names = true -> one_of names o = true -> no_jump o = true.
Proof.
  intros Hall Ho. unfold one_of in Ho. apply existsb_exists in Ho.
  destruct Ho as (n & Hin & Heq). apply String.eqb_eq in Heq. subst n.
  exact (proj1 (forallb_forall _ _) Hall o Hin).
Qed.

Ltac calm_visit :=
  match goal with
  | IH : forall g, calm g (snd (visit_expr _ _ ?e g))
    |- context [visit_expr _ _ ?e ?g0] =>
      let H := fresh "H" in
      pose proof (IH g0) as H;
      destruct (visit_expr repr_float repr_str e g0) as [? ?];
      cbn [snd fst] in H; cbv beta iota zeta
  end.

Ltac calm_chain :=
  first [ assumption
        | apply calm_refl
        | eapply calm_trans; [eassumption | calm_chain] ].

Ltac calm_finish :=
  first [ calm_chain
        | apply calm_step; [first [reflexivity | assumption] | calm_chain] ].

Lemma boolop_loop_calm o values :
  no_jump o = true ->
  Forall (fun e => forall g, calm g (snd (visit_expr repr_float repr_str e g))) values ->
  forall temp g,
    calm g (snd (boolop_loop (visit_expr repr_float repr_str) o values temp g)).
Proof.
  intros Ho. induction 1 as [|e values He _ IH]; intros temp g; cbn [boolop_loop].
  { apply calm_refl. }
  calm_visit. eapply calm_trans; [|apply IH].
  apply calm_step; [exact Ho | calm_chain].
Qed.

Lemma compare_loop_calm comparators :
  Forall (fun e => forall g, calm g (snd (visit_expr repr_float repr_str e g)))
    comparators ->
  forall ops current_left g,
    forallb no_jump ops = true ->
    calm g (snd (compare_loop (visit_expr repr_float repr_str) ops comparators
                   current_left g)).
Proof.
  induction 1 as [|e comparators He _ IH]; intros ops current_left g Hops;
    cbn [compare_loop].
  { apply calm_refl. }
  destruct ops as [|op_str ops]; [apply calm_refl|].
  cbn [forallb] in Hops. apply andb_true_iff in Hops. destruct Hops as [Ho Hops].
  calm_visit. eapply calm_trans; [|apply IH; exact Hops].
  apply calm_step; [exact Ho | calm_chain].
Qed.

Lemma args_loop_calm args :
  Forall (fun e => forall g, calm g (snd (visit_expr repr_float repr_str e g))) args ->
  forall arg_places g,
    calm g (snd (args_loop (visit_expr repr_float repr_str) args arg_places g)).
Proof.
  induction 1 as [|e args He _ IH]; intros arg_places g; cbn [args_loop].
  { apply calm_refl. }
  calm_visit. eapply calm_trans; [eassumption | apply IH].
Qed.

Lemma emit_params_calm arg_places : forall g, calm g (emit_params arg_places g).
Proof.
  induction arg_places as [|place rest IH]; intros g; cbn [emit_params].
  { apply calm_refl. }
  apply (calm_trans _ (emit "param" (Some place) None None None None g));
    [apply calm_emit; reflexivity | apply IH].
Qed.

Lemma built_all values :
  Forall (lowers_calmly repr_float repr_str) values ->
  forallb expr_built values = true ->
  Forall (fun e => forall g, calm g (snd (visit_expr repr_float repr_str e g))) values.
Proof.
  induction 1 as [|e values He _ IH]; intros Hb; constructor;
    cbn [forallb] in Hb; apply andb_true_iff in Hb; destruct Hb as [H1 H2].
  - exact (He H1).
  - exact (IH H2).
Qed.

Lemma compare_ops_no_jump ops :
  forallb (one_of (map snd parser.compare_mapping)) ops = true ->
  forallb no_jump ops = true.
Proof.
  induction ops as [|o ops IH]; [reflexivity|]. cbn [forallb]. intros H.
  apply andb_true_iff in H. destruct H as [Ho Hops].
  rewrite (one_of_no_jump (map snd parser.compare_mapping) o eq_refl Ho), (IH Hops).
  reflexivity.
Qed.

Lemma visit_expr_calm e : lowers_calmly repr_float repr_str e.
Proof.
  induction e as [id|value|value|value| |left_expr o right_expr IHl IHr
                 |o operand IHo|o values IHv
                 |left_expr ops comparators IHl IHc|func args keywords IHf IHa
                 |value attr IHv|value start stop step IHv Hstart Hstop Hstep]
    using Expr_nested_ind; intros Hb g; cbn [visit_expr]; cbn [expr_built] in Hb.
  - apply calm_refl.
  - apply calm_refl.
  - apply calm_refl.
  - apply calm_refl.
  - apply calm_refl.
  - apply andb_true_iff in Hb. destruct Hb as [Hb Hbr].
    apply andb_true_iff in Hb. destruct Hb as [Ho Hbl].
    specialize (IHl Hbl). specialize (IHr Hbr).
    pose proof (one_of_no_jump binary_operators o eq_refl Ho) as Hn.
    unfold visit_binop. repeat calm_visit. calm_finish.
  - apply andb_true_iff in Hb. destruct Hb as [Ho Hbo].
    specialize (IHo Hbo).
    pose proof (one_of_no_jump unary_operators o eq_refl Ho) as Hn.
    unfold visit_unaryop. repeat calm_visit. calm_finish.
  - apply andb_true_iff in Hb. destruct Hb as [Hb Hall].
    apply andb_true_iff in Hb. destruct Hb as [Ho _].
    pose proof (one_of_no_jump boolean_operators o eq_refl Ho) as Hn.
    pose proof (built_all values IHv Hall) as Hvs.
    unfold visit_boolop. destruct values as [|first others]; [apply calm_refl|].
    inversion Hvs as [|? ? Hfirst Hothers]; subst.
    calm_visit.
    eapply calm_trans; [eassumption | apply boolop_loop_calm; assumption].
  - apply andb_true_iff in Hb. destruct Hb as [Hb Hcs].
    apply andb_true_iff in Hb. destruct Hb as [Hb Hops].
    apply andb_true_iff in Hb. destruct Hb as [Hb _].
    apply andb_true_iff in Hb. destruct Hb as [Hbl _].
    specialize (IHl Hbl). pose proof (built_all comparators IHc Hcs) as Hvs.
    unfold visit_compare. calm_visit.
    destruct ops as [|op_str ops]; [assumption|].
    destruct comparators as [|first_comparator comparators]; [assumption|].
    eapply calm_trans; [eassumption|].
    apply compare_loop_calm; [assumption|].
    apply compare_ops_no_jump. exact Hops.
  - apply andb_true_iff in Hb. destruct Hb as [Hb _].
    apply andb_true_iff in Hb. destruct Hb as [Hbf Hargs].
    specialize (IHf Hbf). pose proof (built_all args IHa Hargs) as Hvs.
    unfold visit_call.
    pose proof (args_loop_calm args Hvs [] g) as Ha.
    destruct (args_loop (visit_expr repr_float repr_str) args [] g) as [arg_places g1].
    cbn [snd] in Ha. cbv beta iota zeta.
    pose proof (emit_params_calm arg_places g1) as Hparams.
    calm_visit. calm_finish.
  - specialize (IHv Hb). unfold visit_attribute. repeat calm_visit. calm_finish.
  - destruct start as [index|]; [|discriminate Hb].
    destruct stop; [discriminate Hb|]. destruct step; [discriminate Hb|].
    apply andb_true_iff in Hb. destruct Hb as [Hbv Hbi].
    specialize (IHv Hbv). pose proof (Hstart index eq_refl Hbi) as IHi.
    unfold visit_subscript. repeat calm_visit. calm_finish.
Qed.


Lemma no_labels new :
  Forall (fun instr => label instr = None) new -> defined_labels new = [].
Proof.
  induction 1 as [|i new Hi _ IH]; [reflexivity|].
  unfold defined_labels in *. cbn [omap list_omap]. rewrite Hi. exact IH.
Qed.

(** The code of an expression of the parser: no jump, no label, the
    loop stacks as before. *)
Lemma quiet_code g g' :
  straight_line g g' -> calm g g' ->
  exists new,
    code g' = code g ++ new /\
    jump_targets new = [] /\ defined_labels new = [] /\
    break_stack g' = break_stack g /\ continue_stack g' = continue_stack g.
Proof.
  intros (n1 & Hc1 & _ & Hb & Hk & Hf & _) (n2 & Hc2 & Hj).
  assert (n1 = n2) as -> by (apply (app_inv_head (code g)); congruence).
  exists n2. split; [exact Hc2|]. split; [exact Hj|].
  split; [apply no_labels; exact Hf|]. auto.
Qed.

Lemma visit_expr_quiet e g :
  expr_built e = true ->
  exists new,
    code (snd (visit_expr repr_float repr_str e g)) = code g ++ new /\
    jump_targets new = [] /\ defined_labels new = [] /\
    break_stack (snd (visit_expr repr_float repr_str e g)) = break_stack g /\
    continue_stack (snd (visit_expr repr_float repr_str e g)) = continue_stack g.
Proof.
  intros Hb. apply quiet_code; [apply visit_expr_lowers | apply visit_expr_calm; exact Hb].
Qed.

Lemma get_lvalue_place_calm target g place g' :
  expr_built target = true ->
  get_lvalue_place repr_float repr_str target g = Ok (place, g') -> calm g g'.
Proof.
  destruct target as [id| | | | | | | | | |value attr|value [start stop step]];
    try discriminate; cbn [get_lvalue_place expr_built]; intros Hb.
  - intros [= _ <-]. apply calm_refl.
  - pose proof (visit_expr_calm value Hb g) as H.
    destruct (visit_expr repr_float repr_str value g) as [base g1].
    intros [= _ <-]. exact H.
  - destruct start as [index|]; [|discriminate Hb].
    destruct stop; [discriminate Hb|]. destruct step; [discriminate Hb|].
    apply andb_true_iff in Hb. destruct Hb as [Hbv Hbi].
    pose proof (visit_expr_calm value Hbv g) as H.
    destruct (visit_expr repr_float repr_str value g) as [base g1].
    pose proof (visit_expr_calm index Hbi g1) as Hi.
    destruct (visit_expr repr_float repr_str index g1) as [index_place g2].
    intros [= _ <-]. eapply calm_trans; [exact H | exact Hi].
Qed.

Lemma get_lvalue_place_quiet target g place g' :
  expr_built target = true ->
  get_lvalue_place repr_float repr_str target g = Ok (place, g') ->
  exists new,
    code g' = code g ++ new /\
    jump_targets new = [] /\ defined_labels new = [] /\
    break_stack g' = break_stack g /\ continue_stack g' = continue_stack g.
Proof.
  intros Hb H. apply quiet_code;
    [exact (get_lvalue_place_lowers _ _ _ _ _ _ H)
    | exact (get_lvalue_place_calm _ _ _ _ Hb H)].
Qed.

Lemma lands_nil enclosing : lands [] enclosing.
Proof. intros l []. Qed.

Lemma lands_app n1 n2 enclosing :
  lands n1 enclosing -> lands n2 enclosing -> lands (n1 ++ n2) enclosing.
Proof.
  intros H1 H2 l Hin. rewrite jump_targets_app in Hin.
  rewrite defined_labels_app, in_app_iff.
  apply in_app_iff in Hin. destruct Hin as [Hin|Hin].
  - destruct (H1 l Hin) as [?|[?|?]]; auto.
  - destruct (H2 l Hin) as [?|[?|?]]; auto.
Qed.

Lemma for_each_landing body :
  Forall (lowers_landing repr_float repr_str) body ->
  forallb stmt_built body = true ->
  forall g g',
    for_each (visit_stmt repr_float repr_str) body g = Ok g' ->
    exists new,
      code g' = code g ++ new /\
      lands new (break_stack g ++ continue_stack g) /\
      break_stack g' = break_stack g /\ continue_stack g' = continue_stack g.
Proof.
  induction 1 as [|s body Hs _ IH]; intros Hb g g'; cbn [for_each].
  { intros [= <-]. exists []. rewrite app_nil_r.
    split; [reflexivity|]. split; [apply lands_nil | auto]. }
  cbn [forallb] in Hb. apply andb_true_iff in Hb. destruct Hb as [Hbs Hbb].
  destruct (visit_stmt repr_float repr_str s g) as [g1| |] eqn:E; try discriminate.
  intros H.
  destruct (Hs Hbs g g1 E) as (n1 & Hc1 & Hl1).
  destruct (visit_stmt_extended repr_float repr_str s g g1 E)
    as (_ & _ & _ & Hbr1 & Hco1).
  destruct (IH Hbb g1 g' H) as (n2 & Hc2 & Hl2 & Hbr2 & Hco2).
  rewrite Hbr1, Hco1 in Hl2.
  exists (n1 ++ n2). split; [rewrite Hc2, Hc1, app_assoc; reflexivity|].
  split; [apply lands_app; assumption|]. split; congruence.
Qed.

Lemma emit_segment o a b r l c g g1 :
  g1 = emit o a b r l c g ->
  exists seg,
    code g1 = code g ++ seg /\
    jump_targets seg = jump_targets [mkTACInstr o a b r l c] /\
    defined_labels seg = defined_labels [mkTACInstr o a b r l c] /\
    break_stack g1 = break_stack g /\ continue_stack g1 = continue_stack g.
Proof. intros ->. eexists. repeat split. Qed.

Lemma new_temp_segment g t g1 :
  new_temp g = (t, g1) ->
  code g1 = code g /\
  break_stack g1 = break_stack g /\ continue_stack g1 = continue_stack g.
Proof. intros [= <- <-]. repeat split. Qed.

Lemma new_label_segment prefix g l g1 :
  new_label prefix g = (l, g1) ->
  code g1 = code g /\
  break_stack g1 = break_stack g /\ continue_stack g1 = continue_stack g.
Proof. intros [= <- <-]. repeat split. Qed.

Lemma push_loop_segment c b g g1 :
  g1 = push_loop c b g ->
  code g1 = code g /\
  break_stack g1 = b :: break_stack g /\
  continue_stack g1 = c :: continue_stack g.
Proof. intros ->. repeat split. Qed.

Lemma pop_loop_segment g g1 :
  g1 = pop_loop g ->
  code g1 = code g /\
  break_stack g1 = tail (break_stack g) /\
  continue_stack g1 = tail (continue_stack g).
Proof. intros ->. repeat split. Qed.

Lemma emit_formals_quiet formals : forall g,
  exists new,
    code (emit_formals formals g) = code g ++ new /\
    jump_targets new = [] /\ defined_labels new = [] /\
    break_stack (emit_formals formals g) = break_stack g /\
    continue_stack (emit_formals formals g) = continue_stack g.
Proof.
  induction formals as [|a formals IH]; intros g; cbn [emit_formals].
  { exists []. rewrite app_nil_r. auto. }
  destruct (IH (emit "param" (Some (arg_name a)) None None None
                  (Some "func param") g)) as (new & Hc & Hj & Hd & Hb & Hk).
  eexists. split; [rewrite Hc; cbn [code emit]; rewrite <- app_assoc; reflexivity|].
  rewrite jump_targets_app, defined_labels_app, Hj, Hd. auto.
Qed.

Lemma augassign_base_no_jump o :
  one_of (map snd parser.augassign_ops) o = true ->
  no_jump (remove_char "=" o) = true.
Proof.
  intros H. unfold one_of in H. apply existsb_exists in H.
  destruct H as (n & Hin & Heq). apply String.eqb_eq in Heq. subst n.
  simpl in Hin.
  repeat (destruct Hin as [<-|Hin]; [reflexivity|]). destruct Hin.
Qed.

Ltac land_step :=
  match goal with
  | Hb : expr_built ?e = true |- context [visit_expr repr_float repr_str ?e ?g0] =>
      is_var g0;
      let H := fresh "H" in
      pose proof (visit_expr_quiet e g0 Hb) as H;
      destruct (visit_expr repr_float repr_str e g0) as [? ?];
      cbn [snd] in H; cbv beta iota zeta
  | Hb : expr_built ?e = true
    |- context [get_lvalue_place repr_float repr_str ?e ?g0] =>
      is_var g0;
      let E := fresh "E" in
      destruct (get_lvalue_place repr_float repr_str e g0) as [[? ?]| |] eqn:E;
      [apply (get_lvalue_place_quiet _ _ _ _ Hb) in E | |];
      cbn [and_then]; try discriminate; cbv beta iota zeta
  | |- context [new_temp ?g0] =>
      is_var g0;
      let E := fresh "E" in
      destruct (new_temp g0) as [? ?] eqn:E; apply new_temp_segment in E;
      cbv beta iota zeta
  | |- context [new_label ?prefix ?g0] =>
      is_var g0;
      let E := fresh "E" in
      destruct (new_label prefix g0) as [? ?] eqn:E; apply new_label_segment in E;
      cbv beta iota zeta
  | |- context [emit ?o ?a ?b ?r ?l ?c ?g0] =>
      is_var g0;
      let E := fresh "E" in
      let gn := fresh "g" in
      remember (emit o a b r l c g0) as gn eqn:E; apply emit_segment in E
  | |- context [emit_label ?l ?g0] => is_var g0; unfold emit_label at 1
  | |- context [push_loop ?c ?b ?g0] =>
      is_var g0;
      let E := fresh "E" in
      let gn := fresh "g" in
      remember (push_loop c b g0) as gn eqn:E; apply push_loop_segment in E
  | |- context [pop_loop ?g0] =>
      is_var g0;
      let E := fresh "E" in
      let gn := fresh "g" in
      remember (pop_loop g0) as gn eqn:E; apply pop_loop_segment in E
  | |- context [emit_formals ?formals ?g0] =>
      is_var g0;
      let H := fresh "H" in
      let gn := fresh "g" in
      pose proof (emit_formals_quiet formals g0) as H;
      generalize dependent (emit_formals formals g0); intros gn H
  | IH : Forall _ ?body, Hb : forallb stmt_built ?body = true
    |- context [for_each _ ?body ?g0] =>
      is_var g0;
      let E := fresh "E" in
      destruct (for_each (visit_stmt repr_float repr_str) body g0) as [?| |] eqn:E;
      cbn [and_then]; try discriminate;
      apply (for_each_landing _ IH Hb) in E
  end.

Ltac split_built :=
  repeat match goal with
         | H : _ && _ = true |- _ =>
             apply andb_true_iff in H; destruct H
         end.

Ltac land_solve :=
  repeat match goal with
         | H : Forall _ _ |- _ => clear H
         end;
  repeat match goal with
         | H : exists _, _ |- _ => destruct H
         | H : _ /\ _ |- _ => destruct H
         end;
  eexists; split;
  [ repeat match goal with
           | H : code ?x = _ |- _ => rewrite H; clear H
           end;
    repeat rewrite <- app_assoc; reflexivity
  | repeat match goal with
           | H : break_stack ?x = _ |- _ => rewrite H in *; clear H
           | H : continue_stack ?x = _ |- _ => rewrite H in *; clear H
           end;
    unfold lands in *;
    let lbl := fresh "lbl" in
    let Hin := fresh "Hin" in
    intros lbl Hin;
    repeat rewrite jump_targets_app in Hin;
    repeat rewrite defined_labels_app;
    repeat match goal with
           | H : jump_targets ?s = _ |- _ => rewrite H in Hin; clear H
           | H : defined_labels ?s = _ |- _ => rewrite H; clear H
           end;
    repeat match goal with
           | H : forall l, In l (jump_targets _) -> _ |- _ => specialize (H lbl)
           end;
    cbn [tail] in *;
    repeat rewrite in_app_iff in *;
    unfold jump_targets, defined_labels, jump_target, sentinel in *;
    repeat match goal with
           | H : no_jump _ = true |- _ =>
               unfold no_jump in H; apply negb_true_iff in H;
               cbn [omap list_omap op] in Hin; rewrite H in Hin; clear H
           end;
    cbn in *;
    intuition congruence ].

Lemma visit_stmt_landing s : lowers_landing repr_float repr_str s.
Proof.
  induction s as [value|targets value|target o value|value| | |
                 |test body orelse IHb IHo|test body orelse IHb IHo
                 |target iter body orelse IHb IHo
                 |name args body returns decorators IHb]
    using Stmt_nested_ind; intros Hb g g'; cbn [visit_stmt]; cbn [stmt_built] in Hb.
  - unfold visit_exprstmt. intros [= <-].
    destruct (visit_expr_quiet value g Hb) as (new & Hc & Hj & _).
    exists new. split; [exact Hc|]. intros l Hin. rewrite Hj in Hin. destruct Hin.
  - destruct targets as [|target [|second targets]]; try discriminate Hb.
    split_built. unfold visit_assign. repeat land_step. intros [= <-]. land_solve.
  - split_built. unfold visit_augassign. repeat land_step. intros [= <-].
    match goal with
    | Ho : one_of _ o = true |- _ =>
        pose proof (augassign_base_no_jump o Ho) as Hn
    end.
    land_solve.
  - unfold visit_return. destruct value as [value|].
    + repeat land_step. intros [= <-]. land_solve.
    + repeat land_step. intros [= <-]. land_solve.
  - intros [= <-]. exists []. rewrite app_nil_r. split; [reflexivity | apply lands_nil].
  - unfold visit_break. destruct (break_stack g) eqn:E;
      repeat land_step; intros [= <-]; land_solve.
  - unfold visit_continue. destruct (continue_stack g) eqn:E;
      repeat land_step; intros [= <-]; land_solve.
  - split_built. unfold visit_if. do 5 land_step.
    destruct orelse as [|else_stmt orelse].
    + cbn [for_each and_then]. repeat land_step. intros [= <-]. land_solve.
    + repeat land_step. intros [= <-]. land_solve.
  - split_built. unfold visit_while. repeat land_step. intros [= <-]. land_solve.
  - split_built. unfold visit_for. repeat land_step. intros [= <-]. land_solve.
  - destruct args as [formals]. destruct returns; [discriminate Hb|].
    destruct decorators; [|discriminate Hb].
    split_built. unfold visit_functiondef. cbn [arguments_args].
    repeat land_step. intros [= <-]. land_solve.
Qed.


End GeneratorJumps.

Section GeneratorTheorems2.
Import pystr astnodes codegen3ac main.

(** X19. A statement that the generator lowers appends code and
    leaves the stacks of break and continue labels as they were: every
    loop pops what it has pushed. No counter goes back. *)
Theorem statement_lowering_restores_loop_stacks repr_float repr_str s g g' :
  visit_stmt repr_float repr_str s g = Ok g' ->
  (exists new, code g' = code g ++ new) /\
  temp_count g <= temp_count g' /\
  label_count g <= label_count g' /\
  break_stack g' = break_stack g /\
  continue_stack g' = continue_stack g.
Proof.
  intros H. pose proof (visit_stmt_extended repr_float repr_str s g g' H) as He.
  unfold extended in He. exact He.
Qed.

(** X20. From any state of the generator: when [visit_stmt] returns,
    every target that it has handed to [get_lvalue_place] is a name,
    an attribute or a subscript, and when it raises
    [NotImplementedError], one of them is not. These targets are the
    first target of each assignment and the target of each augmented
    assignment and of each [for] loop, in the statement and in the
    statements visited below it: the branches of an [if], the body of
    a [while], of a [for] and of a [def], not the [else] part of a
    loop. *)
Theorem generator_refuses_unsupported_targets repr_float repr_str s g :
  (forall g', visit_stmt repr_float repr_str s g = Ok g' -> stmt_supported s = true) /\
  (visit_stmt repr_float repr_str s g = Raise NotImplementedError ->
   stmt_supported s = false).
Proof.
  pose proof (visit_stmt_answers repr_float repr_str s) as H.
  unfold answers in H. specialize (H g).
  destruct (visit_stmt repr_float repr_str s g) as [g1|[]|].
  - split; [intros _ _; exact H | intros He; discriminate He].
  - split; [intros g' Hg; discriminate Hg | intros _; exact H].
  - destruct H.
Qed.

(** The code that the generator returns for a program of the parser:
    every jump lands. *)
Lemma generate_3ac_lands repr_float repr_str program tac :
  program_built program = true ->
  generate_3ac repr_float repr_str program = Ok tac ->
  forall l, In l (jump_targets tac) -> In l (defined_labels tac) \/ sentinel l.
Proof.
  destruct program as [body]. unfold generate_3ac, generate, visit_program.
  cbn [program_built]. intros Hb H.
  destruct (for_each (visit_stmt repr_float repr_str) body codegen3ac.init)
    as [g| |] eqn:E; try discriminate H.
  injection H as <-.
  assert (Hall : Forall (lowers_landing repr_float repr_str) body).
  { apply List.Forall_forall. intros s _. apply visit_stmt_landing. }
  destruct (for_each_landing repr_float repr_str body Hall Hb _ _ E)
    as (new & Hc & Hl & _).
  cbn in Hc. rewrite Hc. intros l Hin.
  destruct (Hl l Hin) as [?|[[]|?]]; auto.
Qed.

(** X21. How assignments and unary operations print: an instruction
    with one operand and a result prints the operator glued to the
    operand, so the copy that [visit_assign] emits for [x = v] prints
    with a doubled equals sign. *)
Theorem assignment_prints_doubled_equals repr_float repr_str :
  (forall o a r,
      one_of special_operators o = false ->
      __str__ (mkTACInstr o (Some a) None (Some r) None None)
        = r +:+ " = " +:+ o +:+ a) /\
  (forall target value g,
      visit_stmt repr_float repr_str (Assign [Name target] value) g
        = Ok (emit "=" (Some (fst (visit_expr repr_float repr_str value g))) None
                (Some target) None None
                (snd (visit_expr repr_float repr_str value g))) /\
      __str__ (mkTACInstr "=" (Some (fst (visit_expr repr_float repr_str value g)))
                 None (Some target) None None)
        = target +:+ " = =" +:+ fst (visit_expr repr_float repr_str value g)).
Proof.
  split.
  - intros o a r H. unfold one_of, special_operators in H. cbn [existsb] in H.
    repeat match type of H with
           | _ || _ = false => apply orb_false_iff in H; destruct H as [?E H]
           end.
    unfold __str__. cbn [label op arg1 arg2 result comment truthy].
    rewrite E, E0, E1, E2, E3, E4, E5, E6. reflexivity.
  - intros target value g. split.
    + cbn [visit_stmt]. unfold visit_assign.
      destruct (visit_expr repr_float repr_str value g) as [place g1].
      reflexivity.
    + reflexivity.
Qed.

End GeneratorTheorems2.

Section PipelineTheorems.
Import pystr tokens lexer symtable astnodes parser codegen3ac main.

Lemma lex_ends_with_endmarker text toks :
  lex text = Ok toks -> toks <> [] /\ ends_with_endmarker toks.
Proof.
  intros H. pose proof (lex_invariant text) as Hi. rewrite H in Hi.
  destruct Hi as (lx1 & toks1 & _ & ->).
  destruct (finish_tokens lx1 toks1) as (body & -> & _).
  split.
  - intros E. apply (f_equal (@length Token)) in E.
    rewrite !length_app in E. simpl in E. lia.
  - unfold ends_with_endmarker. rewrite app_assoc, last_last. reflexivity.
Qed.

Lemma forallb_agree (f g : Stmt -> bool) body :
  Forall (fun s => stmt_built s = true -> f s = g s) body ->
  forallb stmt_built body = true -> forallb f body = forallb g body.
Proof.
  induction 1 as [|s rest Hs _ IH]; [reflexivity|].
  cbn [forallb]. intros H. apply andb_true_iff in H. destruct H as [H1 H2].
  rewrite (Hs H1), (IH H2). reflexivity.
Qed.

Lemma built_supported s :
  stmt_built s = true -> stmt_supported s = for_targets_assignable s.
Proof.
  induction s as [value|targets value|target op value|value| | |
                 |test body orelse IHb IHo|test body orelse IHb IHo
                 |target iter body orelse IHb IHo
                 |name args body returns decorators IHb]
    using Stmt_nested_ind; cbn [stmt_built stmt_supported for_targets_assignable];
    try reflexivity.
  - destruct targets as [|target [|second targets]]; try discriminate.
    intros H. apply andb_true_iff in H. destruct H as [H _].
    apply andb_true_iff in H. exact (proj1 H).
  - intros H. apply andb_true_iff in H. destruct H as [H _].
    apply andb_true_iff in H. destruct H as [H _].
    apply andb_true_iff in H. exact (proj1 H).
  - intros H. apply andb_true_iff in H. destruct H as [H Ho].
    apply andb_true_iff in H. destruct H as [_ Hb].
    rewrite (forallb_agree _ _ body IHb Hb), (forallb_agree _ _ orelse IHo Ho).
    reflexivity.
  - intros H. apply andb_true_iff in H. destruct H as [H _].
    apply andb_true_iff in H. destruct H as [_ Hb].
    exact (forallb_agree _ _ body IHb Hb).
  - intros H. apply andb_true_iff in H. destruct H as [H _].
    apply andb_true_iff in H. destruct H as [_ Hb].
    rewrite (forallb_agree _ _ body IHb Hb). reflexivity.
  - destruct args as [formals]. destruct returns; [discriminate|].
    destruct decorators; [|discriminate].
    intros H. apply andb_true_iff in H. destruct H as [_ Hb].
    exact (forallb_agree _ _ body IHb Hb).
Qed.

Lemma built_program_supported program :
  program_built program = true ->
  program_supported program
    = match program with
      | mkProgram body => forallb for_targets_assignable body
      end.
Proof.
  destruct program as [body]. cbn [program_built program_supported].
  induction body as [|s body IH]; [reflexivity|].
  cbn [forallb]. intros H. apply andb_true_iff in H. destruct H as [H1 H2].
  rewrite (built_supported s H1), (IH H2). reflexivity.
Qed.

Lemma generate_3ac_answers repr_float repr_str program :
  match generate_3ac repr_float repr_str program with
  | Ok _ => program_supported program = true
  | Raise NotImplementedError => program_supported program = false
  | OutOfFuel => False
  end.
Proof.
  destruct program as [body]. unfold generate_3ac, generate, visit_program.
  pose proof (for_each_answers repr_float repr_str body
                (proj2 (List.Forall_forall _ _)
                   (fun s _ => visit_stmt_answers repr_float repr_str s))
                codegen3ac.init) as H.
  destruct (for_each _ body codegen3ac.init) as [g|[]|]; exact H.
Qed.

(** X22. The pipeline answers on every source text: beyond a bound
    on the fuel the answer is a result or a failure, never an
    exhausted fuel. *)
Theorem run_pipeline_terminates repr_float repr_str source :
  exists bound, forall fuel, bound <= fuel ->
    run_pipeline repr_float repr_str fuel source <> OutOfFuel.
Proof.
  unfold run_pipeline, front_end.
  destruct (lex source) as [toks|e|] eqn:El.
  - destruct (lex_ends_with_endmarker _ _ El) as [Hne Hend].
    exists (16 * length toks). intros fuel Hf.
    pose proof (run_answers toks Hend fuel Hne Hf) as H.
    unfold parse_tokens.
    destruct (run fuel toks) as [[program p]|e|]; [|discriminate|destruct H].
    pose proof (generate_3ac_answers repr_float repr_str program) as Hg.
    destruct (generate_3ac repr_float repr_str program) as [tac|[]|];
      [discriminate | discriminate | destruct Hg].
  - exists 0. intros fuel _. discriminate.
  - exfalso. exact (lex_total source El).
Qed.

(** The failures of the pipeline in the embedding, case by case. *)
Lemma run_pipeline_failure_cases repr_float repr_str fuel source failure :
  run_pipeline repr_float repr_str fuel source = Raise failure ->
  (exists message ln cl,
      failure = LexFailure (LexerError message ln cl) /\ 1 <= ln /\ 1 <= cl) \/
  (exists toks message tok,
      lex source = Ok toks /\ In tok toks /\
      failure = ParseFailure (ParserError message tok)) \/
  (exists scope nm,
      failure = ParseFailure (SymbolError (Redeclared scope nm))) \/
  (exists body,
      front_end fuel source = Ok (mkProgram body) /\
      forallb for_targets_assignable body = false /\
      failure = GenFailure NotImplementedError).
Proof.
  unfold run_pipeline, front_end. intros H.
  destruct (lex source) as [toks|e|] eqn:El.
  - destruct (lex_ends_with_endmarker _ _ El) as [Hne Hend].
    destruct (parse_tokens fuel toks) as [program|e|] eqn:Ep.
    + pose proof (parse_tokens_built toks fuel program Ep) as Hb.
      pose proof (generate_3ac_answers repr_float repr_str program) as Hg.
      destruct (generate_3ac repr_float repr_str program) as [tac|[]|];
        try discriminate H.
      injection H as <-. right. right. right.
      rewrite (built_program_supported program Hb) in Hg.
      destruct program as [body]. exists body. auto.
    + injection H as <-. right.
      set (fuel' := Nat.max fuel (16 * length toks)).
      assert (Hf : 16 * length toks <= fuel') by (subst fuel'; lia).
      assert (Hle : fuel <= fuel') by (subst fuel'; lia).
      pose proof (run_answers toks Hend fuel' Hne Hf) as Ha.
      assert (Hr : run fuel toks = Raise e).
      { unfold parse_tokens in Ep. destruct (run fuel toks) as [[? ?]| |]; congruence. }
      rewrite (run_mono toks fuel fuel' _ Hr ltac:(discriminate) Hle) in Ha.
      destruct e as [message tok|[scope nm| |]| |]; simpl in Ha; try contradiction.
      * left. exists toks, message, tok. auto.
      * right. left. eauto.
    + discriminate H.
  - injection H as <-. left.
    pose proof (lex_invariant source) as Hi. rewrite El in Hi.
    destruct Hi as (message & ln & cl & -> & Hl & Hc). eauto 6.
  - discriminate H.
Qed.

(** X23. Where the failures of the pipeline come from: a failure of
    the lexer is a [LexerError] at a 1-based position; a [ParserError]
    carries a token of the stream that the lexer has returned; an
    error of the symbol table is the redeclaration of a name; the
    [ValueError] and [KeyError] of the parser do not occur; and the
    generator fails only on a program that was parsed and in which the
    target of a [for] loop that it visits is not a name, an attribute
    or a subscript. *)
Theorem run_pipeline_failures repr_float repr_str fuel source :
  (forall e,
      run_pipeline repr_float repr_str fuel source = Raise (LexFailure e) ->
      exists message ln cl, e = LexerError message ln cl /\ 1 <= ln /\ 1 <= cl) /\
  (forall message tok,
      run_pipeline repr_float repr_str fuel source
        = Raise (ParseFailure (ParserError message tok)) ->
      exists toks, lex source = Ok toks /\ In tok toks) /\
  (forall err,
      run_pipeline repr_float repr_str fuel source
        = Raise (ParseFailure (SymbolError err)) ->
      exists scope nm, err = Redeclared scope nm) /\
  run_pipeline repr_float repr_str fuel source <> Raise (ParseFailure ValueError) /\
  run_pipeline repr_float repr_str fuel source <> Raise (ParseFailure KeyError) /\
  (run_pipeline repr_float repr_str fuel source
     = Raise (GenFailure NotImplementedError) ->
   exists body,
     front_end fuel source = Ok (mkProgram body) /\
     forallb for_targets_assignable body = false).
Proof.
  pose proof (run_pipeline_failure_cases repr_float repr_str fuel source) as Hc.
  repeat match goal with |- _ /\ _ => split end.
  - intros e H.
    destruct (Hc _ H) as [(m & ln & cl & E & Hl & Hcl)
                         |[(toks & m & tok & _ & _ & E)
                          |[(scope & nm & E)|(body & _ & _ & E)]]];
      try discriminate E.
    injection E as ->. exists m, ln, cl. auto.
  - intros message tok H.
    destruct (Hc _ H) as [(m & ln & cl & E & _)
                         |[(toks & m & tok' & Hl & Hin & E)
                          |[(scope & nm & E)|(body & _ & _ & E)]]];
      try discriminate E.
    injection E as _ ->. exists toks. auto.
  - intros err H.
    destruct (Hc _ H) as [(m & ln & cl & E & _)
                         |[(toks & m & tok & _ & _ & E)
                          |[(scope & nm & E)|(body & _ & _ & E)]]];
      try discriminate E.
    injection E as ->. exists scope, nm. reflexivity.
  - intros H.
    destruct (Hc _ H) as [(m & ln & cl & E & _)
                         |[(toks & m & tok & _ & _ & E)
                          |[(scope & nm & E)|(body & _ & _ & E)]]];
      discriminate E.
  - intros H.
    destruct (Hc _ H) as [(m & ln & cl & E & _)
                         |[(toks & m & tok & _ & _ & E)
                          |[(scope & nm & E)|(body & _ & _ & E)]]];
      discriminate E.
  - intros H.
    destruct (Hc _ H) as [(m & ln & cl & E & _)
                         |[(toks & m & tok & _ & _ & E)
                          |[(scope & nm & E)|(body & Hf & Hb & E)]]];
      try discriminate E.
    exists body. auto.
Qed.

(** X24. In the code that the pipeline returns, every [goto] and
    [if_false_goto] jumps to a label that the code defines, or to the
    placeholder of a [break] or [continue] outside of a loop. *)
Theorem run_pipeline_jumps_land repr_float repr_str fuel source tac :
  run_pipeline repr_float repr_str fuel source = Ok tac ->
  forall l,
    In l (jump_targets tac) ->
    In l (defined_labels tac) \/
    l = "__INVALID_BREAK__" \/ l = "__INVALID_CONTINUE__".
Proof.
  unfold run_pipeline, front_end. intros H.
  destruct (lex source) as [toks|e|]; try discriminate H.
  destruct (parse_tokens fuel toks) as [program|e|] eqn:Ep; try discriminate H.
  destruct (generate_3ac repr_float repr_str program) as [code|e|] eqn:Eg;
    try discriminate H.
  injection H as <-.
  exact (generate_3ac_lands repr_float repr_str program code
           (parse_tokens_built toks fuel program Ep) Eg).
Qed.

End PipelineTheorems.

(** * The theorems at work on the samples *)

Section Witnesses.
Import pystr tokens lexer symtable astnodes parser codegen3ac main.

Lemma lex_tokens_well_formed_witness :
  lex indented_sample = Ok indented_sample_tokens /\
  Forall token_ok indented_sample_tokens.
Proof.
  split; [vm_compute; reflexivity|].
  apply (lex_tokens_well_formed indented_sample). vm_compute. reflexivity.
Defined.

Lemma lex_stream_shape_witness :
  lex indented_sample = Ok indented_sample_tokens /\
  exists body dedents eof,
    indented_sample_tokens = body ++ dedents ++ [eof] /\
    type eof = TT_ENDMARKER /\
    Forall (fun tok => type tok = TT_DEDENT) dedents /\
    Forall (fun tok => type tok <> TT_ENDMARKER) body /\
    (body = [] \/ exists before newline,
        body = before ++ [newline] /\ type newline = TT_NEWLINE).
Proof.
  split; [vm_compute; reflexivity|].
  apply (lex_stream_shape indented_sample). vm_compute. reflexivity.
Defined.

Lemma lex_faults_are_lexer_errors_witness :
  lex unterminated_sample = Raise (LexerError UnterminatedString 1 1) /\
  exists message ln cl,
    LexerError UnterminatedString 1 1 = LexerError message ln cl /\
    1 <= ln /\ 1 <= cl.
Proof.
  split; [vm_compute; reflexivity|].
  apply (lex_faults_are_lexer_errors unterminated_sample). vm_compute. reflexivity.
Defined.

Lemma lex_identifier_witness :
  is_identifier identifier_sample = true /\
  lex identifier_sample
    = Ok [ mkToken TT_NAME (VStr identifier_sample) 1 1;
           mkToken TT_NEWLINE (VStr (String LF EmptyString)) 1
             (1 + String.length identifier_sample);
           mkToken TT_ENDMARKER VNone 1 (1 + String.length identifier_sample) ].
Proof.
  split; [reflexivity|]. apply (lex_identifier identifier_sample). reflexivity.
Defined.

Lemma lex_keyword_is_name_witness :
  is_keyword "while" = true /\
  lex "while"
    = Ok [ mkToken TT_NAME (VStr "while") 1 1;
           mkToken TT_NEWLINE (VStr (String LF EmptyString)) 1
             (1 + String.length "while");
           mkToken TT_ENDMARKER VNone 1 (1 + String.length "while") ].
Proof.
  split; [reflexivity|]. apply (lex_keyword_is_name "while"). reflexivity.
Defined.

Lemma lex_string_literal_witness :
  is_quote "'" = true /\ all_chars (plain_char "'") "hola" = true /\
  lex (String "'" ("hola" +:+ String "'" EmptyString))
    = Ok [ mkToken TT_STRING (VStr "hola") 1 1;
           mkToken TT_NEWLINE (VStr (String LF EmptyString)) 1
             (3 + String.length "hola");
           mkToken TT_ENDMARKER VNone 1 (3 + String.length "hola") ].
Proof.
  split; [reflexivity|]. split; [reflexivity|].
  apply (lex_string_literal "'" "hola"); reflexivity.
Defined.



Lemma operator_longest_match_witness :
  _operator_or_punct (lexer.init "**=2")
    = Some (mkToken TT_DOUBLE_STAREQUAL (VStr "**=") 1 1,
            mkLexer "2" 1 4 [0] true) /\
  exists s,
    VStr "**=" = VStr s /\
    "**=2" = s +:+ "2" /\
    forall s' t', In (s', t') multi_ops -> startswith s' "**=2" = true ->
                  String.length s' <= String.length s.
Proof.
  split; [reflexivity|].
  exact (operator_longest_match (lexer.init "**=2")
           (mkToken TT_DOUBLE_STAREQUAL (VStr "**=") 1 1)
           (mkLexer "2" 1 4 [0] true) eq_refl).
Defined.

Lemma define_then_lookup_witness :
  symtable.define [mkSymbolTable "func f" ∅; scope_with_a] "a" "param" "unknown"
    = Ok (mkSymbolEntry "a" "param" "unknown" "func f" None,
          [ mkSymbolTable "func f"
              (<["a" := mkSymbolEntry "a" "param" "unknown" "func f" None]> ∅);
            scope_with_a ]) /\
  (symtable.lookup
     [ mkSymbolTable "func f"
         (<["a" := mkSymbolEntry "a" "param" "unknown" "func f" None]> ∅);
       scope_with_a ] "a"
     = Ok (Some (mkSymbolEntry "a" "param" "unknown" "func f" None)) /\
   name (mkSymbolEntry "a" "param" "unknown" "func f" None) = "a" /\
   kind (mkSymbolEntry "a" "param" "unknown" "func f" None) = "param" /\
   typ (mkSymbolEntry "a" "param" "unknown" "func f" None) = "unknown" /\
   forall other, other <> "a" ->
     symtable.lookup
       [ mkSymbolTable "func f"
           (<["a" := mkSymbolEntry "a" "param" "unknown" "func f" None]> ∅);
         scope_with_a ] other
       = symtable.lookup [mkSymbolTable "func f" ∅; scope_with_a] other).
Proof.
  split; [reflexivity|].
  exact (define_then_lookup [mkSymbolTable "func f" ∅; scope_with_a]
           "a" "param" "unknown" _ _ eq_refl).
Defined.

Lemma parse_tokens_terminates_witness :
  ends_with_endmarker function_tokens /\
  16 * length function_tokens <= 272 /\
  (parse_tokens 272 function_tokens = OutOfFuel -> False).
Proof.
  split; [reflexivity|]. split; [vm_compute; lia|].
  apply (parse_tokens_terminates function_tokens 272); [reflexivity|].
  vm_compute. lia.
Defined.

Lemma parse_leaves_global_scope_witness :
  ends_with_endmarker function_tokens /\
  exists program p,
    run 64 function_tokens = Ok (program, p) /\
    type (current_of function_tokens p) = TT_ENDMARKER /\
    exists global, symstack p = [global] /\ scope_name global = "global".
Proof.
  split; [reflexivity|].
  destruct (run 64 function_tokens) as [[program p]|e|] eqn:E.
  - exists program, p. split; [reflexivity|].
    exact (parse_leaves_global_scope function_tokens 64 program p eq_refl E).
  - exfalso. vm_compute in E. discriminate E.
  - exfalso. vm_compute in E. discriminate E.
Defined.

Lemma parse_tokens_faults_witness :
  ends_with_endmarker syntax_error_tokens /\
  parse_tokens 64 syntax_error_tokens
    = Raise (ParserError ExpectedAtom (mkToken TT_RPAREN (VStr ")") 1 5)) /\
  In (mkToken TT_RPAREN (VStr ")") 1 5) syntax_error_tokens.
Proof.
  split; [reflexivity|]. split; [vm_compute; reflexivity|].
  apply (proj1 (parse_tokens_faults syntax_error_tokens 64 eq_refl
                  ltac:(discriminate)) ExpectedAtom).
  vm_compute. reflexivity.
Defined.

Lemma parse_tokens_newlines_diverge_witness :
  Forall (fun tok => type tok = TT_NEWLINE) [newline_token; newline_token] /\
  parse_tokens 1000 [newline_token; newline_token] = OutOfFuel.
Proof.
  split; [repeat constructor|].
  apply (parse_tokens_newlines_diverge [newline_token; newline_token] 1000);
    [discriminate | repeat constructor].
Defined.

Lemma parse_tokens_builds_well_formed_trees_witness :
  parse_tokens 64 function_tokens = Ok (mkProgram [function_node]) /\
  program_built (mkProgram [function_node]) = true.
Proof.
  split; [vm_compute; reflexivity|].
  apply (parse_tokens_builds_well_formed_trees function_tokens 64).
  vm_compute. reflexivity.
Defined.

Lemma statement_lowering_restores_loop_stacks_witness :
  visit_stmt (fun s => s) (fun s => s) loop_node codegen3ac.init = Ok loop_generator /\
  ((exists new, code loop_generator = code codegen3ac.init ++ new) /\
   temp_count codegen3ac.init <= temp_count loop_generator /\
   label_count codegen3ac.init <= label_count loop_generator /\
   break_stack loop_generator = break_stack codegen3ac.init /\
   continue_stack loop_generator = continue_stack codegen3ac.init).
Proof.
  split; [vm_compute; reflexivity|].
  apply (statement_lowering_restores_loop_stacks (fun s => s) (fun s => s) loop_node).
  vm_compute. reflexivity.
Defined.

Lemma generator_refuses_unsupported_targets_witness :
  (visit_stmt (fun s => s) (fun s => s) loop_else_node codegen3ac.init
     = Ok loop_else_generator /\
   stmt_supported loop_else_node = true) /\
  (visit_stmt (fun s => s) (fun s => s) literal_target_node codegen3ac.init
     = Raise NotImplementedError /\
   stmt_supported literal_target_node = false).
Proof.
  split.
  - split; [vm_compute; reflexivity|].
    apply (proj1 (generator_refuses_unsupported_targets
                    (fun s => s) (fun s => s) loop_else_node codegen3ac.init)
             loop_else_generator).
    vm_compute. reflexivity.
  - split; [vm_compute; reflexivity|].
    apply (proj2 (generator_refuses_unsupported_targets
                    (fun s => s) (fun s => s) literal_target_node codegen3ac.init)).
    vm_compute. reflexivity.
Defined.

Lemma run_pipeline_failures_witness :
  run_pipeline (fun s => s) (fun s => s) 64 literal_target_source
    = Raise (GenFailure NotImplementedError) /\
  exists body,
    front_end 64 literal_target_source = Ok (mkProgram body) /\
    forallb for_targets_assignable body = false.
Proof.
  split; [vm_compute; reflexivity|].
  apply (proj2 (proj2 (proj2 (proj2 (proj2
           (run_pipeline_failures (fun s => s) (fun s => s) 64
              literal_target_source)))))).
  vm_compute. reflexivity.
Defined.

Lemma run_pipeline_jumps_land_witness :
  run_pipeline (fun s => s) (fun s => s) 64 loop_source = Ok loop_code /\
  In "L_while_end_2" (jump_targets loop_code) /\
  (In "L_while_end_2" (defined_labels loop_code) \/
   "L_while_end_2" = "__INVALID_BREAK__" \/
   "L_while_end_2" = "__INVALID_CONTINUE__").
Proof.
  split; [vm_compute; reflexivity|].
  split; [left; reflexivity|].
  apply (run_pipeline_jumps_land (fun s => s) (fun s => s) 64 loop_source loop_code).
  - vm_compute. reflexivity.
  - left. reflexivity.
Defined.

End Witnesses.
